(** * ReleaseRun badges action: a shallow embedding and its properties

    The development follows the three source modules:
    - [src/badges.ts]  : product parsing, validation, badge rendering;
    - [src/readme.ts]  : the two-marker document splice;
    - [src/index.ts]   : URL validation and the driver [run].

    JavaScript strings are sequences of code units.  They are modelled by
    [string], every character standing for one code unit below 256; the
    platform functions that look at characters ([trim], [toLowerCase],
    [encodeURIComponent]) are written out for that range. *)

From Stdlib Require Import String Ascii List Bool Arith Lia.
From Stdlib Require Import Decimal DecimalString.
Import ListNotations.
Open Scope string_scope.

(** ** JavaScript string and array primitives used by the sources *)

Module JS.

(** Truthiness of a string: only the empty string is falsy. *)
Definition truthy (s : string) : bool := negb (s =? "").

(** [a || b] on strings. *)
Definition orElse (a b : string) : string := if truthy a then a else b.

(** Truthiness of [string | undefined]. *)
Definition truthyOpt (o : option string) : bool :=
  match o with
  | Some s => truthy s
  | None => false
  end.

(** [s.indexOf(pat)], with [None] for -1. *)
Definition indexOf (s pat : string) : option nat := index 0 pat s.

(** [s.substring(a, b)] for [a <= b]. *)
Definition substring2 (s : string) (a b : nat) : string := substring a (b - a) s.

(** [s.substring(a)]. *)
Definition substringFrom (s : string) (a : nat) : string :=
  substring a (String.length s - a) s.

Definition startsWith (s p : string) : bool := prefix p s.

Definition endsWith (s p : string) : bool :=
  (String.length p <=? String.length s)%nat &&
  (substringFrom s (String.length s - String.length p) =? p).

Definition includes (s pat : string) : bool :=
  match indexOf s pat with
  | Some _ => true
  | None => false
  end.

Definition code (c : ascii) : nat := nat_of_ascii c.

Definition inRange (lo hi : nat) (c : ascii) : bool :=
  ((lo <=? code c) && (code c <=? hi))%nat.

(** [\d] *)
Definition isDigit (c : ascii) : bool := inRange 48 57 c.
(** [a-z] *)
Definition isLower (c : ascii) : bool := inRange 97 122 c.
(** [A-Z] *)
Definition isUpper (c : ascii) : bool := inRange 65 90 c.

(** White space and line terminators removed by [trim]: TAB, LF, VT, FF,
    CR, SP and NBSP. *)
Definition isWhiteSpace (c : ascii) : bool :=
  inRange 9 13 c || (code c =? 32)%nat || (code c =? 160)%nat.

Fixpoint trimStart (s : string) : string :=
  match s with
  | "" => ""
  | String c t => if isWhiteSpace c then trimStart t else s
  end.

Fixpoint trimEnd (s : string) : string :=
  match s with
  | "" => ""
  | String c t =>
      let t' := trimEnd t in
      if (t' =? "") && isWhiteSpace c then "" else String c t'
  end.

Definition trim (s : string) : string := trimEnd (trimStart s).

(** [s.split(sep)] for a one-character separator. *)
Fixpoint split (sep : ascii) (s : string) : list string :=
  match s with
  | "" => [""]
  | String c t =>
      if Ascii.eqb c sep then "" :: split sep t
      else match split sep t with
           | h :: r => String c h :: r
           | [] => [String c ""]
           end
  end.

(** [arr.join(sep)]. *)
Fixpoint join (sep : string) (l : list string) : string :=
  match l with
  | [] => ""
  | [x] => x
  | x :: r => x ++ sep ++ join sep r
  end.

(** [arr.includes(x)] on an array of strings. *)
Definition arrIncludes (l : list string) (x : string) : bool :=
  existsb (String.eqb x) l.

Fixpoint allChars (p : ascii -> bool) (s : string) : bool :=
  match s with
  | "" => true
  | String c t => p c && allChars p t
  end.

Fixpoint anyChar (p : ascii -> bool) (s : string) : bool :=
  match s with
  | "" => false
  | String c t => p c || anyChar p t
  end.

Fixpoint mapChars (f : ascii -> ascii) (s : string) : string :=
  match s with
  | "" => ""
  | String c t => String (f c) (mapChars f t)
  end.

(** [toLowerCase] on code units below 256: A-Z and the Latin-1 capitals
    (U+00C0..U+00DE without the multiplication sign) move up by 32. *)
Definition lowerChar (c : ascii) : ascii :=
  if isUpper c || (inRange 192 222 c && negb (code c =? 215)%nat)
  then ascii_of_nat (code c + 32) else c.

Definition toLowerCase (s : string) : string := mapChars lowerChar s.

(** [n.toString()] and [`${n}`] for a non-negative integer. *)
Definition natToString (n : nat) : string :=
  NilEmpty.string_of_uint (Nat.to_uint n).

Definition hexDigit (n : nat) : ascii :=
  if (n <? 10)%nat then ascii_of_nat (48 + n) else ascii_of_nat (55 + n).

(** UTF-8 bytes of one code unit below 256. *)
Definition utf8 (c : ascii) : list nat :=
  let n := code c in
  if (n <? 128)%nat then [n] else [192 + n / 64; 128 + n mod 64].

(** Characters [encodeURIComponent] leaves alone:
    [A-Z a-z 0-9 - _ . ! ~ * ' ( )]. *)
Definition isUriUnreserved (c : ascii) : bool :=
  isUpper c || isLower c || isDigit c ||
  anyChar (Ascii.eqb c) "-_.!~*'()".

Definition percent (b : nat) : string :=
  String "%" (String (hexDigit (b / 16)) (String (hexDigit (b mod 16)) "")).

Fixpoint encodeURIComponent (s : string) : string :=
  match s with
  | "" => ""
  | String c t =>
      (if isUriUnreserved c then String c ""
       else String.concat "" (map percent (utf8 c)))
      ++ encodeURIComponent t
  end.

End JS.

Import JS.

(** The line-feed code unit and the one-character string ["\n"]. *)
Definition LF : ascii := "010"%char.
Definition nl : string := String LF "".

(** The one-character string holding a double quote. *)
Definition dq : string := String (ascii_of_nat 34) "".

(** ** src/types.ts *)

Record Product := mkProduct {
  product : string;
  version : option string
}.

Inductive BadgeType := health | eol | freshness | cve | cloud.

Inductive LinkTo := badge_page | releaserun | none.

Definition badgeTypeName (t : BadgeType) : string :=
  match t with
  | health => "health"
  | eol => "eol"
  | freshness => "freshness"
  | cve => "cve"
  | cloud => "cloud"
  end.

(** ** src/badges.ts *)

Module Badges.

(** [/^[a-z0-9][a-z0-9._-]*$/] and [/^[a-zA-Z0-9][a-zA-Z0-9._-]*$/]: one
    character of the head class, then any number of the tail class, up to
    the end of the input. *)
Definition headThenTail (hd tl : ascii -> bool) (s : string) : bool :=
  match s with
  | "" => false
  | String c t => hd c && allChars tl t
  end.

Definition isPunct (c : ascii) : bool := anyChar (Ascii.eqb c) "._-".

Definition productHead (c : ascii) : bool := isLower c || isDigit c.
Definition productTail (c : ascii) : bool := productHead c || isPunct c.
Definition versionHead (c : ascii) : bool := isLower c || isUpper c || isDigit c.
Definition versionTail (c : ascii) : bool := versionHead c || isPunct c.

Definition PRODUCT_PATTERN : string -> bool := headThenTail productHead productTail.
Definition VERSION_PATTERN : string -> bool := headThenTail versionHead versionTail.
Definition VALID_BADGE_TYPES : list BadgeType := [health; eol; freshness; cve; cloud].
Definition MAX_PRODUCTS : nat := 50.

Definition validateProduct (name : string) : bool := PRODUCT_PATTERN name.

Definition validateVersion (version : string) : bool :=
  (version =? "latest") || VERSION_PATTERN version.

Definition validateBadgeType (type : string) : bool :=
  arrIncludes (map badgeTypeName VALID_BADGE_TYPES) type.

(** The narrowing [type is BadgeType]: the enumeration member a string
    that passed [validateBadgeType] stands for. *)
Definition asBadgeType (type : string) : option BadgeType :=
  find (fun t => type =? badgeTypeName t) VALID_BADGE_TYPES.

Definition truncationWarning : string :=
  "Maximum of " ++ natToString MAX_PRODUCTS ++
  " products allowed. Only the first " ++ natToString MAX_PRODUCTS ++
  " will be processed.".

Definition invalidNameWarning (name : string) : string :=
  "Skipping invalid product name: " ++ dq ++ name ++ dq.

Definition invalidVersionWarning (version name : string) : string :=
  "Skipping invalid version " ++ dq ++ version ++ dq ++
  " for product " ++ dq ++ name ++ dq.

(** One turn of the [for (const line of linesToProcess)] loop, on the two
    arrays the loop pushes to. *)
Definition parseLine (acc : list Product * list string) (line : string)
  : list Product * list string :=
  let '(products, warnings) := acc in
  let colonIdx := indexOf line ":" in
  let '(name, version) :=
    match colonIdx with
    | None => (line, None)
    | Some i => (substring2 line 0 i, Some (substringFrom line (i + 1)))
    end in
  if negb (validateProduct name) then
    (products, (warnings ++ [invalidNameWarning name])%list)
  else
    match version with
    | Some v =>
        if truthy v && negb (validateVersion v) then
          (products, (warnings ++ [invalidVersionWarning v name])%list)
        else
          ((products ++ [mkProduct name (if truthy v then Some v else None)])%list,
           warnings)
    | None => ((products ++ [mkProduct name None])%list, warnings)
    end.

Definition nonEmpty (l : string) : bool := (0 <? String.length l)%nat.

Definition parseProducts (input : string) : list Product * list string :=
  let lines := filter nonEmpty (map trim (split LF input)) in
  let warnings :=
    if (MAX_PRODUCTS <? List.length lines)%nat then [truncationWarning] else [] in
  let linesToProcess := firstn MAX_PRODUCTS lines in
  fold_left parseLine linesToProcess ([], warnings).

Definition parseBadgeTypes (input : string) : list BadgeType :=
  let types :=
    filter nonEmpty (map (fun t => toLowerCase (trim t)) (split ","%char input)) in
  let valid :=
    flat_map (fun t => if validateBadgeType t
                       then match asBadgeType t with Some b => [b] | None => [] end
                       else []) types in
  if (0 <? List.length valid)%nat then valid else [health].

Definition defaultBase : string := "https://img.releaserun.com/badge".

Definition getBadgeUrl (type : BadgeType) (product : string)
    (version style baseUrl : option string) : string :=
  let base := match baseUrl with
              | Some b => orElse b defaultBase
              | None => defaultBase
              end in
  let path :=
    match version with
    | Some v =>
        if truthy v
        then badgeTypeName type ++ "/" ++ product ++ "/" ++ v ++ ".svg"
        else badgeTypeName type ++ "/" ++ product ++ ".svg"
    | None => badgeTypeName type ++ "/" ++ product ++ ".svg"
    end in
  let url := base ++ "/" ++ path in
  match style with
  | Some st =>
      if truthy st && negb (st =? "flat")
      then url ++ "?style=" ++ encodeURIComponent st
      else url
  | None => url
  end.

Definition getLinkUrl (linkTo : LinkTo) (product badgeUrl : string) : string :=
  match linkTo with
  | badge_page => "https://releaserun.com/badges/" ++ product ++ "/"
  | releaserun => "https://releaserun.com"
  | none => badgeUrl
  end.

Definition getBadgeLabel (type : BadgeType) (product : string)
    (version : option string) : string :=
  let versionSuffix :=
    match version with
    | Some v => if truthy v then " " ++ v else ""
    | None => ""
    end in
  match type with
  | health => product ++ versionSuffix ++ " health"
  | eol => product ++ versionSuffix ++ " EOL"
  | freshness => product ++ versionSuffix ++ " freshness"
  | cve => product ++ versionSuffix ++ " CVEs"
  | cloud => product ++ versionSuffix ++ " cloud"
  end.

Definition generateBadgeMarkdown (p : Product) (type : BadgeType)
    (style : string) (linkTo : LinkTo) (baseUrl : option string) : string :=
  let badgeUrl := getBadgeUrl type (product p) (version p) (Some style) baseUrl in
  let linkUrl := getLinkUrl linkTo (product p) badgeUrl in
  let label := getBadgeLabel type (product p) (version p) in
  "[![" ++ label ++ "](" ++ badgeUrl ++ ")](" ++ linkUrl ++ ")".

Definition generateAllBadges (products : list Product)
    (badgeTypes : list BadgeType) (style : string) (linkTo : LinkTo)
    (baseUrl : option string) : string :=
  let lines :=
    fold_left
      (fun (lines : list string) (p : Product) =>
         let badges :=
           map (fun type => generateBadgeMarkdown p type style linkTo baseUrl)
               badgeTypes in
         (lines ++ [join " " badges])%list)
      products [] in
  join nl lines.

End Badges.

(** ** src/readme.ts *)

Module Readme.

Definition START_MARKER : string := "<!-- releaserun-badges-start -->".
Definition END_MARKER : string := "<!-- releaserun-badges-end -->".

Record UpdateResult := mkUpdateResult {
  updated : bool;
  content : string;
  markersFound : bool
}.

Definition updateReadmeContent (readme badges : string) : UpdateResult :=
  match indexOf readme START_MARKER, indexOf readme END_MARKER with
  | Some startIdx, Some endIdx =>
      if (endIdx <? startIdx)%nat then mkUpdateResult false readme false
      else
        let before := substring2 readme 0 (startIdx + String.length START_MARKER) in
        let after := substringFrom readme endIdx in
        let newContent := before ++ nl ++ badges ++ nl ++ after in
        let changed := negb (newContent =? readme) in
        mkUpdateResult changed newContent true
  | _, _ => mkUpdateResult false readme false
  end.

Definition hasMarkers (readme : string) : bool :=
  includes readme START_MARKER && includes readme END_MARKER.

End Readme.

(** ** Platform services used by src/index.ts *)

Module Platform.

(** [path.resolve] in its POSIX flavour: a relative path is taken from the
    working directory; empty and [.] segments are dropped, [..] removes
    the segment before it, and the result has no trailing slash. *)
Definition resolveSegment (stack : list string) (seg : string) : list string :=
  if (seg =? "") || (seg =? ".") then stack
  else if seg =? ".." then removelast stack
  else (stack ++ [seg])%list.

Definition normalizeAbsolute (p : string) : string :=
  "/" ++ join "/" (fold_left resolveSegment (split "/"%char p) []).

Definition path_resolve (cwd p : string) : string :=
  if startsWith p "/" then normalizeAbsolute p
  else normalizeAbsolute (cwd ++ "/" ++ p).

Definition base64Char (n : nat) : ascii :=
  if (n <? 26)%nat then ascii_of_nat (65 + n)
  else if (n <? 52)%nat then ascii_of_nat (97 + (n - 26))
  else if (n <? 62)%nat then ascii_of_nat (48 + (n - 52))
  else if (n =? 62)%nat then "+"%char else "/"%char.

Fixpoint base64 (bytes : list nat) : string :=
  match bytes with
  | [] => ""
  | [a] =>
      String (base64Char (a / 4)) (String (base64Char ((a mod 4) * 16)) "==")
  | [a; b] =>
      String (base64Char (a / 4))
        (String (base64Char ((a mod 4) * 16 + b / 16))
           (String (base64Char ((b mod 16) * 4)) "="))
  | a :: b :: c :: r =>
      String (base64Char (a / 4))
        (String (base64Char ((a mod 4) * 16 + b / 16))
           (String (base64Char ((b mod 16) * 4 + c / 64))
              (String (base64Char (c mod 64)) (base64 r))))
  end.

(** [Buffer.from(s).toString('base64')]. *)
Definition toBase64 (s : string) : string :=
  base64 (flat_map utf8 (list_ascii_of_string s)).

End Platform.

Import Platform.

(** ** src/index.ts: badge-service URL validation *)

Module Index.

Import Badges Readme.

(** What the code reads off a parsed [URL] object. *)
Record URL := mkURL {
  protocol : string;
  hostname : string
}.

(** [\d{1,3}]: one to three digits, as many as there are; the rest of the
    input is returned.  A digit never matches the [\.] or the end that
    follows a group, so taking the longest run loses no match. *)
Definition digits1to3 (s : string) : option string :=
  match s with
  | String a t =>
      if isDigit a then
        match t with
        | String b t2 =>
            if isDigit b then
              match t2 with
              | String c t3 => if isDigit c then Some t3 else Some t2
              | "" => Some t2
              end
            else Some t
        | "" => Some t
        end
      else None
  | "" => None
  end.

(** [(\.\d{1,3}){n}] *)
Fixpoint dotGroups (n : nat) (s : string) : option string :=
  match n with
  | O => Some s
  | S n' =>
      match s with
      | String c t =>
          if Ascii.eqb c "."%char then
            match digits1to3 t with
            | Some r => dotGroups n' r
            | None => None
            end
          else None
      | "" => None
      end
  end.

(** [/^\d{1,3}(\.\d{1,3}){3}$/.test(hostname)] *)
Definition isIPv4Literal (hostname : string) : bool :=
  match digits1to3 hostname with
  | Some r =>
      match dotGroups 3 r with
      | Some "" => true
      | _ => false
      end
  | None => false
  end.

(** The body of [isValidBadgeServiceUrl] after the [URL] was built. *)
Definition checkParsed (parsed : URL) : bool :=
  if negb (protocol parsed =? "https:") then false
  else
    let hostname := hostname parsed in
    if isIPv4Literal hostname || startsWith hostname "[" || (hostname =? "::1")
    then false
    else if (hostname =? "localhost") || (hostname =? "127.0.0.1") then false
    else if negb (hostname =? "releaserun.com") &&
            negb (endsWith hostname ".releaserun.com") then false
    else true.

(** [newURL] stands for the platform's [new URL(url)], [None] when it
    throws. *)
Definition isValidBadgeServiceUrl (newURL : string -> option URL)
    (url : string) : bool :=
  match newURL url with
  | None => false
  | Some parsed => checkParsed parsed
  end.

(** ** The world [run] executes in *)

(** A thrown value: an [Error] with its message, or anything else with
    its [String(...)] rendering. *)
Inductive Thrown :=
| ErrorObj (message : string)
| NonError (asString : string).

(** [err instanceof Error ? err.message : String(err)] *)
Definition errText (e : Thrown) : string :=
  match e with
  | ErrorObj m => m
  | NonError s => s
  end.

(** The remote hosting operations [run] calls, with their arguments. *)
Inductive Call :=
| ReposGet (owner repo : string)
| GitGetRef (owner repo ref : string)
| GitCreateRef (owner repo ref sha : string)
| GitUpdateRef (owner repo ref sha : string) (force : bool)
| GitDeleteRef (owner repo ref : string)
| ReposGetContent (owner repo path ref : string)
| ReposCreateOrUpdateFileContents
    (owner repo path message content : string) (sha : option string)
    (branch : string)
| PullsList (owner repo head state : string)
| PullsUpdate (owner repo : string) (pull_number : nat) (title body : string)
| PullsCreate (owner repo title body head base : string).

(** Everything [run] does to the outside, in the order it happens. *)
Inductive Event :=
| ESetFailed (msg : string)
| EWarning (msg : string)
| EInfo (msg : string)
| EDebug (msg : string)
| ESetOutput (name value : string)
| ESetSecret (secret : string)
| EReadFile (path : string)
| EWriteFile (path data : string)
| ERemote (c : Call).

(** The [data] of a [getContent] answer: a directory listing, or one
    object with its [type] and [sha]. *)
Inductive FileData :=
| ContentArray
| ContentObject (type sha : string).

Record PullRequest := mkPullRequest {
  number : nat;
  html_url : string
}.

(** The remote calls of a trace. *)
Definition callsOf (tr : list Event) : list Call :=
  flat_map (fun e => match e with ERemote c => [c] | _ => [] end) tr.

(** The surroundings of one run.  Each remote operation answers from the
    list of remote calls made so far, the call being answered last; [inl]
    is a rejected promise. *)
Record World := mkWorld {
  rawInput : string -> string;
  env_GITHUB_WORKSPACE : option string;
  env_GITHUB_TOKEN : option string;
  cwd : string;
  newURL : string -> option URL;
  readFileSync : string -> Thrown + string;
  writeFileSync : string -> string -> option Thrown;
  context_owner : string;
  context_repo : string;
  context_default_branch : option string;
  repos_get : list Call -> Thrown + string;
  git_getRef : list Call -> Thrown + string;
  git_createRef : list Call -> Thrown + unit;
  git_updateRef : list Call -> Thrown + unit;
  git_deleteRef : list Call -> Thrown + unit;
  repos_getContent : list Call -> Thrown + FileData;
  repos_createOrUpdateFileContents : list Call -> Thrown + unit;
  pulls_list : list Call -> Thrown + list PullRequest;
  pulls_update : list Call -> Thrown + unit;
  pulls_create : list Call -> Thrown + PullRequest
}.

(** ** Control flow of an [async] function body: a step either yields a
    value, leaves the function by [return], or throws; the trace of
    effects is threaded through. *)

Inductive Outcome (A : Type) :=
| Val (a : A)
| Return
| Throw (e : Thrown).

Arguments Val {A} a.
Arguments Return {A}.
Arguments Throw {A} e.

Definition M (A : Type) : Type := list Event -> Outcome A * list Event.

Definition ret {A} (a : A) : M A := fun tr => (Val a, tr).

Definition bind {A B} (m : M A) (k : A -> M B) : M B :=
  fun tr =>
    match m tr with
    | (Val a, tr') => k a tr'
    | (Return, tr') => (Return, tr')
    | (Throw e, tr') => (Throw e, tr')
    end.

Notation "x <- m ;; k" := (bind m (fun x => k))
  (at level 61, m at next level, right associativity).
Notation "m ;;; k" := (bind m (fun _ => k))
  (at level 61, right associativity).

Definition emit (e : Event) : M unit := fun tr => (Val tt, (tr ++ [e])%list).

Definition returnNow {A} : M A := fun tr => (Return, tr).

Definition throw {A} (e : Thrown) : M A := fun tr => (Throw e, tr).

(** [try { m } catch (err) { handler err }] *)
Definition tryCatch {A} (m : M A) (handler : Thrown -> M A) : M A :=
  fun tr =>
    match m tr with
    | (Throw e, tr') => handler e tr'
    | r => r
    end.

(** [await octokit.rest...(args)]: the call is recorded, then answered. *)
Definition remote {A} (c : Call) (answer : list Call -> Thrown + A) : M A :=
  fun tr =>
    let tr' := (tr ++ [ERemote c])%list in
    match answer (callsOf tr') with
    | inl e => (Throw e, tr')
    | inr a => (Val a, tr')
    end.

Fixpoint forEach {A} (l : list A) (f : A -> M unit) : M unit :=
  match l with
  | [] => ret tt
  | x :: r => f x ;;; forEach r f
  end.

(** [core.getInput(name)] and [core.getInput(name, { required: true })]:
    the value is trimmed; a required input that is not supplied throws. *)
Definition getInput (W : World) (name : string) : string := trim (rawInput W name).

Definition getInputRequired (W : World) (name : string) : M string :=
  if truthy (rawInput W name) then ret (trim (rawInput W name))
  else throw (ErrorObj ("Input required and not supplied: " ++ name)).

(** ** src/index.ts: [run], stage by stage *)

Record Config := mkConfig {
  productsInput : string;
  badgeTypesInput : string;
  readmePath : string;
  linkTo : LinkTo;
  prTitle : string;
  prBranch : string;
  style : string;
  badgeBaseUrl : option string;
  fullPath : string
}.

Definition validStyles : list string :=
  ["flat"; "flat-square"; "plastic"; "for-the-badge"].

Definition validLinkTos : list string := ["badge-page"; "releaserun"; "none"].

(** The cast [as LinkTo], read once the value passed the check against
    [validLinkTos]. *)
Definition asLinkTo (s : string) : LinkTo :=
  if s =? "badge-page" then badge_page
  else if s =? "releaserun" then releaserun
  else none.

(** [[\x00-\x1f\x7f ~^:?*\[\\]] *)
Definition isRefForbidden (c : ascii) : bool :=
  inRange 0 31 c || (code c =? 127)%nat || (code c =? 92)%nat ||
  anyChar (Ascii.eqb c) " ~^:?*[".

Definition invalidBranch (prBranch : string) : bool :=
  includes prBranch ".." || startsWith prBranch "/" || endsWith prBranch "/" ||
  endsWith prBranch ".lock" || anyChar isRefForbidden prBranch.

(** [s.replace(/\/$/, '')] *)
Definition stripTrailingSlash (s : string) : string :=
  if endsWith s "/" then substring2 s 0 (String.length s - 1) else s.

Definition invalidUrlMessage (url : string) : string :=
  "Invalid badge-service-url: " ++ dq ++ url ++ dq ++ ". " ++
  "URL must use HTTPS and match *.releaserun.com (no IP addresses or localhost).".

Definition invalidPathMessage : string :=
  "Invalid readme-path: must be within repository workspace".

(** Lines 43-94: read and validate the inputs. *)
Definition validateInputs (W : World) : M Config :=
  productsInput <- getInputRequired W "products" ;;
  let badgeTypesInput := orElse (getInput W "badge-types") "health" in
  let readmePath := orElse (getInput W "readme-path") "README.md" in
  let linkTo := orElse (getInput W "link-to") "badge-page" in
  let prTitle :=
    orElse (getInput W "pr-title") "chore: update version health badges" in
  let prBranch := orElse (getInput W "pr-branch") "releaserun/badges-update" in
  if invalidBranch prBranch then
    emit (ESetFailed ("Invalid pr-branch: " ++ dq ++ prBranch ++ dq ++
                      ". Branch name contains invalid characters.")) ;;;
    returnNow
  else
  let style := orElse (getInput W "style") "flat" in
  if negb (arrIncludes validStyles style) then
    emit (ESetFailed ("Invalid style: " ++ dq ++ style ++ dq ++
                      ". Must be one of: " ++ join ", " validStyles)) ;;;
    returnNow
  else
  if negb (arrIncludes validLinkTos linkTo) then
    emit (ESetFailed ("Invalid link-to value: " ++ dq ++ linkTo ++ dq ++
                      ". Must be badge-page, releaserun, or none.")) ;;;
    returnNow
  else
  let badgeServiceBaseUrl := getInput W "badge-service-url" in
  if truthy badgeServiceBaseUrl &&
     negb (isValidBadgeServiceUrl (newURL W) badgeServiceBaseUrl) then
    emit (ESetFailed (invalidUrlMessage badgeServiceBaseUrl)) ;;;
    returnNow
  else
  let badgeBaseUrl :=
    if truthy badgeServiceBaseUrl
    then Some (stripTrailingSlash badgeServiceBaseUrl ++ "/badge")
    else None in
  let fullPath := path_resolve (cwd W) readmePath in
  let workspacePath :=
    match env_GITHUB_WORKSPACE W with
    | Some w => orElse w (cwd W)
    | None => cwd W
    end in
  if negb (startsWith fullPath (path_resolve (cwd W) workspacePath)) then
    emit (ESetFailed invalidPathMessage) ;;;
    returnNow
  else
  ret (mkConfig productsInput badgeTypesInput readmePath (asLinkTo linkTo)
         prTitle prBranch style badgeBaseUrl fullPath).

Record Rendered := mkRendered {
  products : list Product;
  badgeTypes : list BadgeType;
  badgesMarkdown : string
}.

(** The display names [badgeTypes.join(', ')] prints. *)
Definition badgeTypeList (ts : list BadgeType) : string :=
  join ", " (map badgeTypeName ts).

(** Lines 96-119: parse the products, render the badges, set the outputs. *)
Definition render (cfg : Config) : M Rendered :=
  let '(products, warnings) := parseProducts (productsInput cfg) in
  forEach warnings (fun w => emit (EWarning w)) ;;;
  if (List.length products =? 0)%nat then
    emit (EWarning "No valid products found in input. Nothing to do.") ;;;
    returnNow
  else
  emit (EInfo ("Parsed " ++ natToString (List.length products) ++ " product(s)")) ;;;
  let badgeTypes := parseBadgeTypes (badgeTypesInput cfg) in
  emit (EInfo ("Badge types: " ++ badgeTypeList badgeTypes)) ;;;
  let badgesMarkdown :=
    generateAllBadges products badgeTypes (style cfg) (linkTo cfg)
      (badgeBaseUrl cfg) in
  emit (EInfo ("Generated badges for " ++ natToString (List.length products) ++
               " product(s) x " ++ natToString (List.length badgeTypes) ++
               " type(s)")) ;;;
  emit (EDebug ("Generated badge markdown:" ++ nl ++ badgesMarkdown)) ;;;
  emit (ESetOutput "badges-markdown" badgesMarkdown) ;;;
  emit (ESetOutput "badges-count"
          (natToString (List.length products * List.length badgeTypes))) ;;;
  emit (ESetOutput "pr-branch" (prBranch cfg)) ;;;
  ret (mkRendered products badgeTypes badgesMarkdown).

Definition noMarkersWarning (readmePath : string) : string :=
  "No badge markers found in " ++ readmePath ++ ". " ++
  "Add <!-- releaserun-badges-start --> and <!-- releaserun-badges-end --> to your README.".

Definition upToDateInfo : string := "No changes detected. Badges are up to date.".

(** Lines 121-156: read the document, splice, write it back. *)
Definition spliceDocument (W : World) (cfg : Config) (r : Rendered)
  : M UpdateResult :=
  emit (EReadFile (fullPath cfg)) ;;;
  match readFileSync W (fullPath cfg) with
  | inl err =>
      emit (ESetFailed ("Failed to read README at " ++ fullPath cfg ++ ": " ++
                        errText err)) ;;;
      returnNow
  | inr readmeContent =>
      let result := updateReadmeContent readmeContent (badgesMarkdown r) in
      if negb (markersFound result) then
        emit (EWarning (noMarkersWarning (readmePath cfg))) ;;;
        returnNow
      else if negb (updated result) then
        emit (EInfo upToDateInfo) ;;;
        returnNow
      else
        emit (EWriteFile (fullPath cfg) (content result)) ;;;
        match writeFileSync W (fullPath cfg) (content result) with
        | Some err =>
            emit (ESetFailed ("Failed to write README at " ++ fullPath cfg ++
                              ": " ++ errText err)) ;;;
            returnNow
        | None =>
            emit (EInfo "README updated with new badges.") ;;;
            ret result
        end
  end.

Record Conn := mkConn {
  defaultBranch : string;
  tipSha : string
}.

(** Lines 158-185: the token, the default branch and its tip commit. *)
Definition connect (W : World) : M Conn :=
  let token :=
    if truthy (getInput W "github-token") then Some (getInput W "github-token")
    else env_GITHUB_TOKEN W in
  if negb (truthyOpt token) then
    emit (ESetFailed
      "No GitHub token provided. Set github-token input or GITHUB_TOKEN env var.") ;;;
    returnNow
  else
  emit (ESetSecret (match token with Some t => t | None => "" end)) ;;;
  let owner := context_owner W in
  let repo := context_repo W in
  defaultBranch <-
    tryCatch (remote (ReposGet owner repo) (repos_get W))
      (fun err =>
         emit (EWarning ("Failed to query repository default branch: " ++
                         errText err ++
                         ". Falling back to context or 'main'.")) ;;;
         ret (match context_default_branch W with
              | Some b => orElse b "main"
              | None => "main"
              end)) ;;
  sha <- remote (GitGetRef owner repo ("heads/" ++ defaultBranch)) (git_getRef W) ;;
  ret (mkConn defaultBranch sha).

Definition recreateFailedMessage (prBranch : string) (err : Thrown) : string :=
  "Branch " ++ prBranch ++ " has diverged and could not be recreated: " ++
  errText err ++ ". " ++
  "Please manually delete the branch and re-run the action.".

(** The three ref operations of lines 187-235, with the arguments the
    source passes. *)
Definition createRefCall (W : World) (cfg : Config) (conn : Conn) : Call :=
  GitCreateRef (context_owner W) (context_repo W)
    ("refs/heads/" ++ prBranch cfg) (tipSha conn).

Definition updateRefCall (W : World) (cfg : Config) (conn : Conn) : Call :=
  GitUpdateRef (context_owner W) (context_repo W)
    ("heads/" ++ prBranch cfg) (tipSha conn) false.

Definition deleteRefCall (W : World) (cfg : Config) : Call :=
  GitDeleteRef (context_owner W) (context_repo W) ("heads/" ++ prBranch cfg).

(** Lines 187-235: create the working branch, or move it without force,
    or delete and recreate it. *)
Definition ensureBranch (W : World) (cfg : Config) (conn : Conn) : M unit :=
  tryCatch
    (remote (createRefCall W cfg conn) (git_createRef W) ;;;
     emit (EInfo ("Created branch " ++ prBranch cfg)))
    (fun _ =>
       tryCatch
         (remote (updateRefCall W cfg conn) (git_updateRef W) ;;;
          emit (EInfo ("Updated branch " ++ prBranch cfg)))
         (fun err =>
            emit (EWarning ("Branch " ++ prBranch cfg ++ " has diverged from " ++
                            defaultBranch conn ++ ": " ++ errText err)) ;;;
            emit (EWarning
              "Deleting and recreating branch to avoid destroying manual commits.") ;;;
            tryCatch
              (remote (deleteRefCall W cfg) (git_deleteRef W) ;;;
               remote (createRefCall W cfg conn) (git_createRef W) ;;;
               emit (EInfo ("Recreated branch " ++ prBranch cfg ++ " from " ++
                            defaultBranch conn)))
              (fun recreateErr =>
                 emit (ESetFailed (recreateFailedMessage (prBranch cfg) recreateErr)) ;;;
                 returnNow))).

(** [!Array.isArray(data) && data.type === 'file'] decides whether the
    revision marker is taken. *)
Definition shaOfFileData (d : FileData) : option string :=
  match d with
  | ContentArray => None
  | ContentObject type sha => if type =? "file" then Some sha else None
  end.

(** Lines 237-251 (and 268-281 for the retry): the file's revision marker
    on the working branch, if it is there. *)
Definition getContentCall (W : World) (cfg : Config) : Call :=
  ReposGetContent (context_owner W) (context_repo W) (readmePath cfg) (prBranch cfg).

Definition getFileSha (W : World) (cfg : Config) : M (option string) :=
  tryCatch
    (fileData <- remote (getContentCall W cfg) (repos_getContent W) ;;
     ret (shaOfFileData fileData))
    (fun _ => ret None).

Definition commitCall (W : World) (cfg : Config) (result : UpdateResult)
    (sha : option string) : Call :=
  ReposCreateOrUpdateFileContents (context_owner W) (context_repo W)
    (readmePath cfg) (prTitle cfg) (toBase64 (content result)) sha (prBranch cfg).

(** Lines 253-293: commit the file, with one retry. *)
Definition commitFile (W : World) (cfg : Config) (result : UpdateResult)
    (fileSha : option string) : M unit :=
  tryCatch
    (remote (commitCall W cfg result fileSha) (repos_createOrUpdateFileContents W))
    (fun firstErr =>
       emit (EWarning ("File content update failed, retrying once: " ++
                       errText firstErr)) ;;;
       retrySha <- getFileSha W cfg ;;
       remote (commitCall W cfg result retrySha)
              (repos_createOrUpdateFileContents W)) ;;;
  emit (EInfo "Committed badge updates.").

Definition productLine (p : Product) : string :=
  "- " ++ product p ++
  match version p with
  | Some v => if truthy v then ":" ++ v else ""
  | None => ""
  end.

Definition bq : string := String (ascii_of_nat 96) "".

Definition prBody (cfg : Config) (r : Rendered) : string :=
  let productList := join nl (map productLine (products r)) in
  "## Version Health Badges Update" ++ nl ++
  nl ++
  "This PR updates version health badges in " ++ bq ++ readmePath cfg ++ bq ++ "." ++ nl ++
  nl ++
  "### Products tracked" ++ nl ++
  productList ++ nl ++
  nl ++
  "### Badge types" ++ nl ++
  badgeTypeList (badgeTypes r) ++ nl ++
  nl ++
  "---" ++ nl ++
  "Powered by [ReleaseRun](https://releaserun.com) | [Badge Documentation](https://releaserun.com/badges/)".

(** Lines 295-348: update the open pull request of the branch, or open
    one. *)
Definition upsertPR (W : World) (cfg : Config) (r : Rendered) (conn : Conn)
  : M unit :=
  let owner := context_owner W in
  let repo := context_repo W in
  tryCatch
    (existingPRs <- remote (PullsList owner repo (owner ++ ":" ++ prBranch cfg) "open")
                           (pulls_list W) ;;
     match existingPRs with
     | pr0 :: _ =>
         remote (PullsUpdate owner repo (number pr0) (prTitle cfg) (prBody cfg r))
                (pulls_update W) ;;;
         emit (EInfo ("Updated existing PR #" ++ natToString (number pr0))) ;;;
         emit (ESetOutput "pr-number" (natToString (number pr0))) ;;;
         emit (ESetOutput "pr-url" (html_url pr0))
     | [] =>
         pr <- remote (PullsCreate owner repo (prTitle cfg) (prBody cfg r)
                         (prBranch cfg) (defaultBranch conn))
                      (pulls_create W) ;;
         emit (EInfo ("Created PR #" ++ natToString (number pr) ++ ": " ++
                      html_url pr)) ;;;
         emit (ESetOutput "pr-number" (natToString (number pr))) ;;;
         emit (ESetOutput "pr-url" (html_url pr))
     end)
    (fun err =>
       emit (ESetFailed ("Failed to create/update PR: " ++ errText err ++
                         ". Badge changes were committed to " ++ prBranch cfg ++
                         " but PR could not be created.")) ;;;
       returnNow).

(** Everything up to the default-branch tip (lines 43-185). *)
Record Prepared := mkPrepared {
  config : Config;
  rendered : Rendered;
  result : UpdateResult;
  conn : Conn
}.

Definition prepare (W : World) : M Prepared :=
  cfg <- validateInputs W ;;
  r <- render cfg ;;
  res <- spliceDocument W cfg r ;;
  cn <- connect W ;;
  ret (mkPrepared cfg r res cn).

(** The remote reconciliation (lines 187-348). *)
Definition reconcile (W : World) (p : Prepared) : M unit :=
  ensureBranch W (config p) (conn p) ;;;
  fileSha <- getFileSha W (config p) ;;
  commitFile W (config p) (result p) fileSha ;;;
  upsertPR W (config p) (rendered p) (conn p).

(** The body of the outer [try]. *)
Definition body (W : World) : M unit :=
  p <- prepare W ;;
  reconcile W p.

(** The outer [catch]. *)
Definition topLevelHandler (error : Thrown) : M unit :=
  match error with
  | ErrorObj message => emit (ESetFailed message)
  | NonError _ => emit (ESetFailed "An unexpected error occurred")
  end.

(** [run()]: the effects of one run, in order. *)
Definition run (W : World) : list Event :=
  snd (tryCatch (body W) topLevelHandler []).

End Index.

(** ** Concrete worlds, after the fixtures of __tests__/index.test.ts *)

Module Scenario.

Import Badges Readme Index.

Definition README_WITH_MARKERS : string :=
  "# Project" ++ nl ++
  START_MARKER ++ nl ++
  "old badges" ++ nl ++
  END_MARKER ++ nl ++
  "Footer".

Definition README_UP_TO_DATE : string :=
  "# Project" ++ nl ++
  START_MARKER ++ nl ++
  "[![python 3.12 health](https://img.releaserun.com/badge/health/python/3.12.svg)](https://releaserun.com/badges/python/)" ++ nl ++
  END_MARKER.

(** [inputs[name] || ''] *)
Fixpoint lookupInput (inputs : list (string * string)) (name : string) : string :=
  match inputs with
  | [] => ""
  | (k, v) :: r => if k =? name then v else lookupInput r name
  end.

(** A reader for URLs of the plain shape [scheme://host] or
    [scheme://host/path] with a lower-case scheme and host, which the
    platform's parser returns as they are; anything else is refused. *)
Definition plainURL (url : string) : option URL :=
  match indexOf url "://" with
  | Some i =>
      let scheme := substring2 url 0 i in
      let rest := substringFrom url (i + 3) in
      let host := match indexOf rest "/" with
                  | Some j => substring2 rest 0 j
                  | None => rest
                  end in
      if headThenTail isLower isLower scheme && headThenTail productHead productTail host
      then Some (mkURL (scheme ++ ":") host)
      else None
  | None => None
  end.

Definition countCalls (p : Call -> bool) (h : list Call) : nat :=
  List.length (filter p h).

Definition isCreateRef (c : Call) : bool :=
  match c with GitCreateRef _ _ _ _ => true | _ => false end.

Definition isCommit (c : Call) : bool :=
  match c with ReposCreateOrUpdateFileContents _ _ _ _ _ _ _ => true | _ => false end.

(** A remote where every operation succeeds, as [makeOctokit] sets up. *)
Definition happyWorld (inputs : list (string * string)) (readme : string) : World :=
  {| rawInput := lookupInput inputs;
     env_GITHUB_WORKSPACE := Some "/workspace";
     env_GITHUB_TOKEN := None;
     cwd := "/workspace";
     newURL := plainURL;
     readFileSync := fun _ => inr readme;
     writeFileSync := fun _ _ => None;
     context_owner := "test-owner";
     context_repo := "test-repo";
     context_default_branch := Some "main";
     repos_get := fun _ => inr "main";
     git_getRef := fun _ => inr "abc123";
     git_createRef := fun _ => inr tt;
     git_updateRef := fun _ => inr tt;
     git_deleteRef := fun _ => inr tt;
     repos_getContent := fun _ => inr (ContentObject "file" "file-sha-123");
     repos_createOrUpdateFileContents := fun _ => inr tt;
     pulls_list := fun _ => inr [];
     pulls_update := fun _ => inr tt;
     pulls_create := fun _ => inr (mkPullRequest 42 "https://github.com/test/pr/42") |}.

Definition defaultInputs : list (string * string) :=
  [("products", "python:3.12"); ("github-token", "fake-token")].

(** The happy remote with five operations replaced. *)
Definition scriptedWorld (readme : string)
    (createRef updateRef deleteRef : list Call -> Thrown + unit)
    (getContent : list Call -> Thrown + FileData)
    (commit : list Call -> Thrown + unit) : World :=
  let W := happyWorld defaultInputs readme in
  {| rawInput := rawInput W;
     env_GITHUB_WORKSPACE := env_GITHUB_WORKSPACE W;
     env_GITHUB_TOKEN := env_GITHUB_TOKEN W;
     cwd := cwd W;
     newURL := newURL W;
     readFileSync := readFileSync W;
     writeFileSync := writeFileSync W;
     context_owner := context_owner W;
     context_repo := context_repo W;
     context_default_branch := context_default_branch W;
     repos_get := repos_get W;
     git_getRef := git_getRef W;
     git_createRef := createRef;
     git_updateRef := updateRef;
     git_deleteRef := deleteRef;
     repos_getContent := getContent;
     repos_createOrUpdateFileContents := commit;
     pulls_list := pulls_list W;
     pulls_update := pulls_update W;
     pulls_create := pulls_create W |}.

Definition ok : list Call -> Thrown + unit := fun _ => inr tt.

Definition failing (msg : string) : list Call -> Thrown + unit :=
  fun _ => inl (ErrorObj msg).

(** Fails on the first create-ref of the run, succeeds afterwards. *)
Definition firstCreateFails : list Call -> Thrown + unit :=
  fun h => if (countCalls isCreateRef h =? 1)%nat
           then inl (ErrorObj "Reference already exists")
           else inr tt.

Definition fileWithSha (sha : string) : list Call -> Thrown + FileData :=
  fun _ => inr (ContentObject "file" sha).

(** The revision marker moves once a commit has been tried. *)
Definition movingSha : list Call -> Thrown + FileData :=
  fun h => if existsb isCommit h
           then inr (ContentObject "file" "file-sha-456")
           else inr (ContentObject "file" "file-sha-123").

(** The working branch exists and has diverged; recreating it works. *)
Definition divergedWorld : World :=
  scriptedWorld README_WITH_MARKERS firstCreateFails
    (failing "Update is not a fast forward") ok (fileWithSha "file-sha-123") ok.

(** The working branch has diverged and cannot be deleted. *)
Definition recreateFailWorld : World :=
  scriptedWorld README_WITH_MARKERS firstCreateFails
    (failing "Update is not a fast forward") (failing "Cannot delete")
    (fileWithSha "file-sha-123") ok.

(** The file commit is rejected every time, and the file's revision marker
    has moved by the time it is fetched again. *)
Definition commitFailWorld : World :=
  scriptedWorld README_WITH_MARKERS ok ok ok movingSha (failing "Conflict").

(** The document already holds the rendered markup. *)
Definition upToDateWorld : World := happyWorld defaultInputs README_UP_TO_DATE.

(** The document path leads to a sibling of the workspace directory whose
    name starts with the workspace's name. *)
Definition siblingWorld : World :=
  happyWorld (("readme-path", "../workspace-evil/README.md") :: defaultInputs)
    README_WITH_MARKERS.

(** A badge-service URL on a foreign domain. *)
Definition spoofedUrlWorld : World :=
  happyWorld (("badge-service-url", "https://releaserun.com.evil.com") :: defaultInputs)
    README_WITH_MARKERS.

(** [Array.from({ length: 51 }, (_, i) => `product${i}:1.0`)], as pairs of
    name and version. *)
Definition products51 : list (string * string) :=
  map (fun i => ("product" ++ natToString i, "1.0")) (seq 0 51).

End Scenario.

(** ** Notions the properties are stated with *)

Module Spec.

Import Badges Readme Index.

(** A step only appends events, and every event it appends satisfies [P]. *)
Definition emitsOnly {A} (P : Event -> bool) (m : M A) : Prop :=
  forall tr, exists suf,
    snd (m tr) = (tr ++ suf)%list /\ forallb P suf = true.

Definition anyEvent (e : Event) : bool := true.

Definition isRemote (e : Event) : bool :=
  match e with ERemote _ => true | _ => false end.

Definition isFile (e : Event) : bool :=
  match e with EReadFile _ | EWriteFile _ _ => true | _ => false end.

(** Neither a file access nor a remote call. *)
Definition isLocalReport (e : Event) : bool := negb (isRemote e) && negb (isFile e).

(** A ref update that passes [force: true]. *)
Definition isForceUpdate (e : Event) : bool :=
  match e with
  | ERemote (GitUpdateRef _ _ _ _ force) => force
  | _ => false
  end.

Definition notForce (e : Event) : bool := negb (isForceUpdate e).

Definition isCommitCall (c : Call) : bool :=
  match c with
  | ReposCreateOrUpdateFileContents _ _ _ _ _ _ _ => true
  | _ => false
  end.

Definition isCommitEvent (e : Event) : bool :=
  match e with ERemote c => isCommitCall c | _ => false end.

Definition notCommit (e : Event) : bool := negb (isCommitEvent e).

(** Remote calls by what they do: look something up; create, delete or
    move a ref without force; write to a pull request. *)
Definition isLookup (c : Call) : bool :=
  match c with
  | ReposGet _ _ | GitGetRef _ _ _ | ReposGetContent _ _ _ _
  | PullsList _ _ _ _ => true
  | _ => false
  end.

Definition isGentleRefOp (c : Call) : bool :=
  match c with
  | GitCreateRef _ _ _ _ | GitDeleteRef _ _ _ => true
  | GitUpdateRef _ _ _ _ force => negb force
  | _ => false
  end.

Definition isPullRequestWrite (c : Call) : bool :=
  match c with
  | PullsUpdate _ _ _ _ _ | PullsCreate _ _ _ _ _ _ => true
  | _ => false
  end.

(** A remote call that changes a file or a pull request. *)
Definition isContentMutation (c : Call) : bool :=
  match c with
  | ReposCreateOrUpdateFileContents _ _ _ _ _ _ _ => true
  | PullsUpdate _ _ _ _ _ => true
  | PullsCreate _ _ _ _ _ _ => true
  | _ => false
  end.

Definition isDigitGroup (a : string) : bool :=
  (1 <=? String.length a)%nat && (String.length a <=? 3)%nat && allChars isDigit a.

(** A bare IPv4 literal: four groups of one to three digits joined by
    dots. *)
Definition bareIPv4 (h : string) : Prop :=
  exists a b c d,
    h = a ++ "." ++ b ++ "." ++ c ++ "." ++ d /\
    isDigitGroup a = true /\ isDigitGroup b = true /\
    isDigitGroup c = true /\ isDigitGroup d = true.

(** What the specification asks of an accepted badge-service URL. *)
Definition acceptableUrl (newURL : string -> option URL) (url : string) : Prop :=
  exists parsed,
    newURL url = Some parsed /\
    protocol parsed = "https:" /\
    (hostname parsed = "releaserun.com" \/
     endsWith (hostname parsed) ".releaserun.com" = true) /\
    ~ bareIPv4 (hostname parsed) /\
    startsWith (hostname parsed) "[" = false /\
    hostname parsed <> "::1" /\
    hostname parsed <> "localhost".

(** A path lies inside a directory when it is the directory or continues
    it after a separator. *)
Definition insideDirectory (root p : string) : bool :=
  (p =? root) || startsWith p (root ++ "/").

(** A product as the parser hands it on: a valid name, and a valid version
    or none. *)
Definition validProduct (p : Product) : bool :=
  validateProduct (product p) &&
  match version p with
  | Some v => validateVersion v
  | None => true
  end.

(** [{baseUrl}/{category}/{product}[/{version}].svg] *)
Definition imagePathSpec (base : string) (type : BadgeType) (p : Product) : string :=
  base ++ "/" ++ badgeTypeName type ++ "/" ++ product p ++
  match version p with
  | Some v => "/" ++ v
  | None => ""
  end ++ ".svg".

(** The image path, with [?style={style}] unless the style is flat. *)
Definition imageUrlSpec (base : string) (type : BadgeType) (p : Product)
    (style : string) : string :=
  imagePathSpec base type p ++
  (if style =? "flat" then "" else "?style=" ++ style).

(** [[![label](imageUrl)](linkUrl)] *)
Definition badgeUnit (label imageUrl linkUrl : string) : string :=
  "[![" ++ label ++ "](" ++ imageUrl ++ ")](" ++ linkUrl ++ ")".

Definition unitSpec (base : string) (style : string) (linkTo : LinkTo)
    (p : Product) (type : BadgeType) : string :=
  let imageUrl := imageUrlSpec base type p style in
  badgeUnit (getBadgeLabel type (product p) (version p)) imageUrl
    (getLinkUrl linkTo (product p) imageUrl).

(** One line per product, the units of a line separated by one space. *)
Definition markupSpec (base : string) (products : list Product)
    (types : list BadgeType) (style : string) (linkTo : LinkTo) : string :=
  join nl (map (fun p => join " " (map (unitSpec base style linkTo p) types))
               products).

(** The base URL in force: the one given, or the default. *)
Definition baseInForce (baseUrl : option string) : string :=
  match baseUrl with
  | Some b => if truthy b then b else defaultBase
  | None => defaultBase
  end.

(** The non-blank lines of the products input, trimmed. *)
Definition productLines (input : string) : list string :=
  filter nonEmpty (map trim (split LF input)).

(** What one line contributes by itself. *)
Definition lineProducts (line : string) : list Product :=
  fst (parseLine ([], []) line).

Definition lineWarnings (line : string) : list string :=
  snd (parseLine ([], []) line).

(** The characters of a line made of a valid name, a colon and a valid
    version. *)
Definition lineChar (c : ascii) : bool := versionTail c || Ascii.eqb c ":".

(** A [name:version] line with a valid name and a valid version. *)
Definition validPair (nv : string * string) : bool :=
  validateProduct (fst nv) && validateVersion (snd nv).

Definition pairLine (nv : string * string) : string := fst nv ++ ":" ++ snd nv.

Definition pairProduct (nv : string * string) : Product :=
  mkProduct (fst nv) (Some (snd nv)).

(** The two warnings of the diverged path. *)
Definition divergedWarnings (cfg : Config) (conn : Conn) (err : Thrown)
  : list Event :=
  [EWarning ("Branch " ++ prBranch cfg ++ " has diverged from " ++
             defaultBranch conn ++ ": " ++ errText err);
   EWarning "Deleting and recreating branch to avoid destroying manual commits."].

(** The revision marker the remote hands out when [getContent] is the last
    call of the history. *)
Definition revisionMarkerAt (W : World) (history : list Call) : option string :=
  match repos_getContent W history with
  | inr d => shaOfFileData d
  | inl _ => None
  end.

(** Not a remote call that changes a file or a pull request. *)
Definition notContentMutation (e : Event) : bool :=
  match e with
  | ERemote c => negb (isContentMutation c)
  | _ => true
  end.

(** The three outputs set once the badges are rendered. *)
Definition earlyOutputs (cfg : Config) (r : Rendered) : list Event :=
  [ESetOutput "badges-markdown" (badgesMarkdown r);
   ESetOutput "badges-count"
     (natToString (List.length (products r) * List.length (badgeTypes r)));
   ESetOutput "pr-branch" (prBranch cfg)].

Definition isFailure (e : Event) : bool :=
  match e with ESetFailed _ => true | _ => false end.

Definition isWrite (e : Event) : bool :=
  match e with EWriteFile _ _ => true | _ => false end.

(** The run reaches the commit step: some file commit is sent. *)
Definition commitInvoked (W : World) : Prop :=
  exists c, In (ERemote c) (run W) /\ isCommitCall c = true.

(** The run sends an update to an open pull request. *)
Definition prUpdateInvoked (W : World) : Prop :=
  exists o r n t b, In (ERemote (PullsUpdate o r n t b)) (run W).

(** The message the outer handler reports for a thrown value. *)
Definition topLevelMessage (e : Thrown) : string :=
  match e with
  | ErrorObj m => m
  | NonError _ => "An unexpected error occurred"
  end.

(** What the outer [try]/[catch] makes of the way its body ended. *)
Definition finish {A} (r : Outcome A * list Event) : list Event :=
  match r with
  | (Throw e, tr) => (tr ++ [ESetFailed (topLevelMessage e)])%list
  | (_, tr) => tr
  end.

(** The warning before the commit is tried again. *)
Definition retryWarning (e : Thrown) : Event :=
  EWarning ("File content update failed, retrying once: " ++ errText e).

(** What [render] reports after the parser's warnings. *)
Definition renderReport (cfg : Config) (r : Rendered) : list Event :=
  ([EInfo ("Parsed " ++ natToString (List.length (products r)) ++ " product(s)");
    EInfo ("Badge types: " ++ badgeTypeList (badgeTypes r));
    EInfo ("Generated badges for " ++ natToString (List.length (products r)) ++
           " product(s) x " ++ natToString (List.length (badgeTypes r)) ++
           " type(s)");
    EDebug ("Generated badge markdown:" ++ nl ++ badgesMarkdown r)] ++
   earlyOutputs cfg r)%list.

End Spec.

(** ** Further notions and worlds *)

Module Extra.

Import Badges Readme Index Scenario Spec.

(** The line a product is entered as: its name, then a colon and the
    version when it has one. *)
Definition productEntry (p : Product) : string :=
  product p ++
  match version p with
  | Some v => ":" ++ v
  | None => ""
  end.

(** [pat] stands in [s] at position [p]. *)
Definition occursAt (pat s : string) (p : nat) : Prop :=
  substring p (String.length pat) s = pat.

(** The separator of path segments in a URL. *)
Definition isSlash (c : ascii) : bool := Ascii.eqb c "/".

Definition notFailure (e : Event) : bool := negb (isFailure e).

Definition notPullRequestWrite (e : Event) : bool :=
  match e with
  | ERemote c => negb (isPullRequestWrite c)
  | _ => true
  end.

Definition isSecret (e : Event) : bool :=
  match e with ESetSecret _ => true | _ => false end.

Definition notRemote (e : Event) : bool := negb (isRemote e).

(** No remote call stands before the first event that satisfies [g]. *)
Fixpoint noCallBefore (g : Event -> bool) (tr : list Event) : bool :=
  match tr with
  | [] => true
  | e :: r => if g e then true else if isRemote e then false else noCallBefore g r
  end.

(** The token of lines 159-163: the input, or else the environment. *)
Definition tokenOf (W : World) : option string :=
  if truthy (getInput W "github-token") then Some (getInput W "github-token")
  else env_GITHUB_TOKEN W.

(** The default branch taken when the repository cannot be asked. *)
Definition fallbackBranch (W : World) : string :=
  match context_default_branch W with
  | Some b => orElse b "main"
  | None => "main"
  end.

Definition reposGetCall (W : World) : Call :=
  ReposGet (context_owner W) (context_repo W).

Definition getRefCall (W : World) (branch : string) : Call :=
  GitGetRef (context_owner W) (context_repo W) ("heads/" ++ branch).

Definition fallbackWarning (err : Thrown) : Event :=
  EWarning ("Failed to query repository default branch: " ++ errText err ++
            ". Falling back to context or 'main'.").

(** The default branch a run settles on after the calls [h], and what
    settling on it adds to the trace. *)
Definition branchLookup (W : World) (h : list Call) : string * list Event :=
  match repos_get W (h ++ [reposGetCall W])%list with
  | inr b => (b, [ERemote (reposGetCall W)])
  | inl err => (fallbackBranch W, [ERemote (reposGetCall W); fallbackWarning err])
  end.

Definition noTokenMessage : string :=
  "No GitHub token provided. Set github-token input or GITHUB_TOKEN env var.".

Definition writtenInfo : Event := EInfo "README updated with new badges.".

(** The working branch a run is given. *)
Definition branchOf (W : World) : string :=
  orElse (getInput W "pr-branch") "releaserun/badges-update".

(** The part of [run] that touches no remote (lines 43-156). *)
Definition localPart (W : World) : M (Config * Rendered * UpdateResult) :=
  cfg <- validateInputs W ;;
  r <- render cfg ;;
  res <- spliceDocument W cfg r ;;
  ret (cfg, r, res).

(** What [run] does once the document is written (lines 158-348). *)
Definition remotePart (W : World) (cfg : Config) (r : Rendered)
    (res : UpdateResult) : M unit :=
  cn <- connect W ;;
  reconcile W (mkPrepared cfg r res cn).

(** [run] up to and including the commit (lines 43-293). *)
Definition upToCommit (W : World) : M Prepared :=
  p <- prepare W ;;
  ensureBranch W (config p) (conn p) ;;;
  fileSha <- getFileSha W (config p) ;;
  commitFile W (config p) (result p) fileSha ;;;
  ret p.

(** [run] up to and including the branch step (lines 43-235). *)
Definition upToBranch (W : World) : M Prepared :=
  p <- prepare W ;;
  ensureBranch W (config p) (conn p) ;;;
  ret p.

Definition prFailedMessage (prBranch : string) (err : Thrown) : string :=
  "Failed to create/update PR: " ++ errText err ++
  ". Badge changes were committed to " ++ prBranch ++
  " but PR could not be created.".

(** A step keeps failures last: what it appends holds no failure report,
    except as the very last event when the step leaves by [return]. *)
Definition orderly {A} (m : M A) : Prop :=
  forall tr, exists suf,
    snd (m tr) = (tr ++ suf)%list /\
    match fst (m tr) with
    | Return => forallb notFailure (removelast suf) = true
    | _ => forallb notFailure suf = true
    end.

Definition isPullRequestWriteEvent (e : Event) : bool :=
  match e with ERemote c => isPullRequestWrite c | _ => false end.

(** The remote calls of the run that name a branch, a path or a content
    name those of the prepared run [p]: ref operations the working branch
    and the tip found, never with force; content calls the document path
    on the working branch, and the base64 form of the spliced document;
    pull-request calls the working branch as head and the default branch
    as base. *)
Definition addressedTo (W : World) (p : Prepared) (e : Event) : bool :=
  let b := prBranch (config p) in
  match e with
  | ERemote (GitCreateRef _ _ ref sha) =>
      (ref =? "refs/heads/" ++ b) && (sha =? tipSha (conn p))
  | ERemote (GitUpdateRef _ _ ref sha force) =>
      (ref =? "heads/" ++ b) && (sha =? tipSha (conn p)) && negb force
  | ERemote (GitDeleteRef _ _ ref) => ref =? "heads/" ++ b
  | ERemote (ReposGetContent _ _ path ref) =>
      (path =? readmePath (config p)) && (ref =? b)
  | ERemote (ReposCreateOrUpdateFileContents _ _ path message data _ branch) =>
      (path =? readmePath (config p)) && (message =? prTitle (config p)) &&
      (data =? toBase64 (content (result p))) && (branch =? b)
  | ERemote (PullsList _ _ head state) =>
      (head =? context_owner W ++ ":" ++ b) && (state =? "open")
  | ERemote (PullsUpdate _ _ _ title _) => title =? prTitle (config p)
  | ERemote (PullsCreate _ _ title _ head base) =>
      (title =? prTitle (config p)) && (head =? b) &&
      (base =? defaultBranch (conn p))
  | _ => true
  end.

Definition notSecret (e : Event) : bool := negb (isSecret e).

Definition committedInfo : Event := EInfo "Committed badge updates.".

Definition pullsListCall (W : World) (cfg : Config) : Call :=
  PullsList (context_owner W) (context_repo W)
    (context_owner W ++ ":" ++ prBranch cfg) "open".

Definition pullsUpdateCall (W : World) (cfg : Config) (r : Rendered)
    (pr : PullRequest) : Call :=
  PullsUpdate (context_owner W) (context_repo W) (number pr) (prTitle cfg)
    (prBody cfg r).

Definition pullsCreateCall (W : World) (cfg : Config) (r : Rendered)
    (cn : Conn) : Call :=
  PullsCreate (context_owner W) (context_repo W) (prTitle cfg) (prBody cfg r)
    (prBranch cfg) (defaultBranch cn).

Definition prFailure (cfg : Config) (err : Thrown) : Event :=
  ESetFailed (prFailedMessage (prBranch cfg) err).

(** Not one of the two outputs of the pull-request step. *)
Definition notPrOutput (e : Event) : bool :=
  match e with
  | ESetOutput name _ => negb (name =? "pr-number") && negb (name =? "pr-url")
  | _ => true
  end.

(** The events of the pull-request step when it succeeds on [pr]. *)
Definition prOutputs (pr : PullRequest) : list Event :=
  [ESetOutput "pr-number" (natToString (number pr));
   ESetOutput "pr-url" (html_url pr)].

(** *** Worlds that differ from the happy one in one place *)

Definition withInputs (W : World) (inputs : list (string * string)) : World :=
  mkWorld (lookupInput inputs) (env_GITHUB_WORKSPACE W) (env_GITHUB_TOKEN W)
    (cwd W) (newURL W) (readFileSync W) (writeFileSync W) (context_owner W)
    (context_repo W) (context_default_branch W) (repos_get W) (git_getRef W)
    (git_createRef W) (git_updateRef W) (git_deleteRef W) (repos_getContent W)
    (repos_createOrUpdateFileContents W) (pulls_list W) (pulls_update W)
    (pulls_create W).

Definition withReadFile (W : World) (f : string -> Thrown + string) : World :=
  mkWorld (rawInput W) (env_GITHUB_WORKSPACE W) (env_GITHUB_TOKEN W)
    (cwd W) (newURL W) f (writeFileSync W) (context_owner W)
    (context_repo W) (context_default_branch W) (repos_get W) (git_getRef W)
    (git_createRef W) (git_updateRef W) (git_deleteRef W) (repos_getContent W)
    (repos_createOrUpdateFileContents W) (pulls_list W) (pulls_update W)
    (pulls_create W).

Definition withWriteFile (W : World) (f : string -> string -> option Thrown)
  : World :=
  mkWorld (rawInput W) (env_GITHUB_WORKSPACE W) (env_GITHUB_TOKEN W)
    (cwd W) (newURL W) (readFileSync W) f (context_owner W)
    (context_repo W) (context_default_branch W) (repos_get W) (git_getRef W)
    (git_createRef W) (git_updateRef W) (git_deleteRef W) (repos_getContent W)
    (repos_createOrUpdateFileContents W) (pulls_list W) (pulls_update W)
    (pulls_create W).

Definition withReposGet (W : World) (f : list Call -> Thrown + string) : World :=
  mkWorld (rawInput W) (env_GITHUB_WORKSPACE W) (env_GITHUB_TOKEN W)
    (cwd W) (newURL W) (readFileSync W) (writeFileSync W) (context_owner W)
    (context_repo W) (context_default_branch W) f (git_getRef W)
    (git_createRef W) (git_updateRef W) (git_deleteRef W) (repos_getContent W)
    (repos_createOrUpdateFileContents W) (pulls_list W) (pulls_update W)
    (pulls_create W).

Definition withGetRef (W : World) (f : list Call -> Thrown + string) : World :=
  mkWorld (rawInput W) (env_GITHUB_WORKSPACE W) (env_GITHUB_TOKEN W)
    (cwd W) (newURL W) (readFileSync W) (writeFileSync W) (context_owner W)
    (context_repo W) (context_default_branch W) (repos_get W) f
    (git_createRef W) (git_updateRef W) (git_deleteRef W) (repos_getContent W)
    (repos_createOrUpdateFileContents W) (pulls_list W) (pulls_update W)
    (pulls_create W).

Definition withGetContent (W : World) (f : list Call -> Thrown + FileData) : World :=
  mkWorld (rawInput W) (env_GITHUB_WORKSPACE W) (env_GITHUB_TOKEN W)
    (cwd W) (newURL W) (readFileSync W) (writeFileSync W) (context_owner W)
    (context_repo W) (context_default_branch W) (repos_get W) (git_getRef W)
    (git_createRef W) (git_updateRef W) (git_deleteRef W) f
    (repos_createOrUpdateFileContents W) (pulls_list W) (pulls_update W)
    (pulls_create W).

Definition withPulls (W : World) (list_ : list Call -> Thrown + list PullRequest)
    (update : list Call -> Thrown + unit)
    (create : list Call -> Thrown + PullRequest) : World :=
  mkWorld (rawInput W) (env_GITHUB_WORKSPACE W) (env_GITHUB_TOKEN W)
    (cwd W) (newURL W) (readFileSync W) (writeFileSync W) (context_owner W)
    (context_repo W) (context_default_branch W) (repos_get W) (git_getRef W)
    (git_createRef W) (git_updateRef W) (git_deleteRef W) (repos_getContent W)
    (repos_createOrUpdateFileContents W) list_ update create.

(** *** The product list, line by line *)

(** The lines of the products input with the white space around them
    removed, without the ones that are empty then. *)
Definition nonBlankLines (input : string) : list string :=
  filter (fun l => negb (l =? "")) (map trim (split LF input)).

Definition capWarning : string :=
  "Maximum of 50 products allowed. Only the first 50 will be processed.".

(** What a line is taken for: the name is what stands before the first
    colon (the whole line when there is none), the version what stands
    after it.  A line whose name is not valid, or whose version is there
    and not valid, is answered by a warning that quotes it; any other line
    gives its product, without a version when none or an empty one was
    written. *)
Definition lineVerdict (line : string) : Product + string :=
  let name := match indexOf line ":" with
              | Some i => substring2 line 0 i
              | None => line
              end in
  let ver := match indexOf line ":" with
             | Some i => substringFrom line (i + 1)
             | None => ""
             end in
  if validateProduct name then
    if ver =? "" then inl (mkProduct name None)
    else if validateVersion ver then inl (mkProduct name (Some ver))
    else inr ("Skipping invalid version " ++ dq ++ ver ++ dq ++
              " for product " ++ dq ++ name ++ dq)
  else inr ("Skipping invalid product name: " ++ dq ++ name ++ dq).

Definition verdictProducts (line : string) : list Product :=
  match lineVerdict line with inl p => [p] | inr _ => [] end.

Definition verdictWarnings (line : string) : list string :=
  match lineVerdict line with inl _ => [] | inr w => [w] end.

Definition README_NO_MARKERS : string := "# Project" ++ nl ++ "No markers here".

Definition happy : World := happyWorld defaultInputs README_WITH_MARKERS.

End Extra.

(** ** Facts about strings *)

Module StringFacts.

Import JS.

Lemma append_nil_r (s : string) : s ++ "" = s.
Proof. induction s; simpl; congruence. Qed.

Lemma append_assoc (a b c : string) : (a ++ b) ++ c = a ++ b ++ c.
Proof. induction a; simpl; congruence. Qed.

Lemma length_append (a b : string) :
  String.length (a ++ b) = String.length a + String.length b.
Proof. induction a; simpl; congruence. Qed.

Lemma substring_zero_zero (s : string) : substring 0 0 s = "".
Proof. destruct s; reflexivity. Qed.

Lemma substring_split (s : string) :
  forall n a b, substring n (a + b) s = substring n a s ++ substring (n + a) b s.
Proof.
  induction s as [|c s IH]; intros n a b.
  - destruct n, a, b; reflexivity.
  - destruct n as [|n]; simpl.
    + destruct a as [|a]; simpl.
      * reflexivity.
      * f_equal. apply (IH 0 a b).
    + apply IH.
Qed.

Lemma substring_full (s : string) : substring 0 (String.length s) s = s.
Proof. induction s; simpl; congruence. Qed.

Lemma length_substring (s : string) :
  forall n m, String.length (substring n m s) = Nat.min m (String.length s - n).
Proof.
  induction s as [|c s IH]; intros n m.
  - destruct n, m; reflexivity.
  - destruct n as [|n]; simpl.
    + destruct m as [|m]; simpl; [reflexivity|].
      rewrite (IH 0 m). rewrite Nat.sub_0_r. reflexivity.
    + apply IH.
Qed.

(** Cutting a string at any position and gluing the pieces gives it back. *)
Lemma cut_and_glue (s : string) (e : nat) :
  e <= String.length s -> substring 0 e s ++ substringFrom s e = s.
Proof.
  intros He. unfold substringFrom.
  pose proof (substring_split s 0 e (String.length s - e)) as H.
  simpl in H. rewrite <- H.
  replace (e + (String.length s - e)) with (String.length s) by lia.
  apply substring_full.
Qed.

Lemma substring_fits (s pat : string) (n : nat) :
  substring n (String.length pat) s = pat -> pat <> "" ->
  n + String.length pat <= String.length s.
Proof.
  intros H Hne.
  assert (L : String.length (substring n (String.length pat) s) = String.length pat)
    by (rewrite H; reflexivity).
  rewrite length_substring in L.
  assert (0 < String.length pat) by (destruct pat; [congruence | simpl; lia]).
  lia.
Qed.

Lemma indexOf_found (s pat : string) (i : nat) :
  indexOf s pat = Some i -> substring i (String.length pat) s = pat.
Proof. unfold indexOf. apply index_correct1. Qed.

Lemma substring_append_l (a b : string) :
  substring 0 (String.length a) (a ++ b) = a.
Proof. induction a; simpl; [apply substring_zero_zero | congruence]. Qed.

Lemma prefix_append (a b : string) : prefix a (a ++ b) = true.
Proof. apply prefix_correct. apply substring_append_l. Qed.

End StringFacts.

(** ** The document splice *)

Module ReadmeFacts.

Import JS Readme StringFacts.

Lemma markers_differ (readme : string) (i : nat) :
  indexOf readme START_MARKER = Some i -> indexOf readme END_MARKER <> Some i.
Proof.
  intros Hs He.
  apply indexOf_found in Hs. apply indexOf_found in He.
  change (String.length START_MARKER) with (String.length END_MARKER + 2) in Hs.
  rewrite substring_split, He in Hs.
  assert (P : prefix END_MARKER START_MARKER = true)
    by (rewrite <- Hs; apply prefix_append).
  vm_compute in P. discriminate.
Qed.

Lemma end_marker_fits (readme : string) (e : nat) :
  indexOf readme END_MARKER = Some e ->
  e + String.length END_MARKER <= String.length readme.
Proof.
  intros He. apply substring_fits.
  - now apply indexOf_found.
  - discriminate.
Qed.

Lemma start_marker_fits (readme : string) (s : nat) :
  indexOf readme START_MARKER = Some s ->
  s + String.length START_MARKER <= String.length readme.
Proof.
  intros Hs. apply substring_fits.
  - now apply indexOf_found.
  - discriminate.
Qed.

Lemma before_is_prefix_and_marker (readme : string) (s : nat) :
  indexOf readme START_MARKER = Some s ->
  substring2 readme 0 (s + String.length START_MARKER) =
  substring2 readme 0 s ++ START_MARKER.
Proof.
  intros Hs. unfold substring2. rewrite !Nat.sub_0_r.
  rewrite substring_split. simpl (0 + s).
  now rewrite (indexOf_found _ _ _ Hs).
Qed.

Lemma after_is_marker_and_suffix (readme : string) (e : nat) :
  indexOf readme END_MARKER = Some e ->
  substringFrom readme e =
  END_MARKER ++ substringFrom readme (e + String.length END_MARKER).
Proof.
  intros He. pose proof (end_marker_fits _ _ He) as Hfit.
  unfold substringFrom.
  replace (String.length readme - e)
    with (String.length END_MARKER +
          (String.length readme - (e + String.length END_MARKER))) by lia.
  rewrite substring_split.
  now rewrite (indexOf_found _ _ _ He).
Qed.

Lemma markers_do_not_overlap (readme : string) (s e : nat) :
  indexOf readme START_MARKER = Some s ->
  indexOf readme END_MARKER = Some e ->
  s < e ->
  s + String.length START_MARKER <= e.
Proof.
  intros Hs He Hlt.
  destruct (Nat.le_gt_cases (s + String.length START_MARKER) e) as [|Hin]; [assumption|].
  exfalso.
  apply indexOf_found in Hs. apply indexOf_found in He.
  set (k := e - s).
  assert (Hk : 1 <= k < String.length START_MARKER) by (unfold k; lia).
  assert (G1 : get e readme = Some "<"%char).
  { pose proof (substring_correct1 readme e (String.length END_MARKER) 0) as G.
    simpl (0 + e) in G. rewrite <- G by (simpl; lia).
    rewrite He. reflexivity. }
  assert (G2 : get e readme = get k START_MARKER).
  { replace e with (k + s) by (unfold k; lia).
    rewrite <- (substring_correct1 readme s (String.length START_MARKER) k) by lia.
    now rewrite Hs. }
  assert (C : forallb (fun i => match get i START_MARKER with
                                | Some c => negb (Ascii.eqb c "<")
                                | None => true
                                end)
                      (seq 1 (String.length START_MARKER - 1)) = true)
    by reflexivity.
  rewrite forallb_forall in C.
  specialize (C k). rewrite <- G2, G1 in C.
  assert (In k (seq 1 (String.length START_MARKER - 1))) by (apply in_seq; lia).
  specialize (C H). discriminate.
Qed.

(** With both markers found in order, the document is the text before the
    start marker, the marker, the old region, the end marker and the rest. *)
Lemma readme_shape (readme : string) (s e : nat) :
  indexOf readme START_MARKER = Some s ->
  indexOf readme END_MARKER = Some e ->
  s < e ->
  readme =
  substring2 readme 0 s ++ START_MARKER ++
  substring2 readme (s + String.length START_MARKER) e ++
  END_MARKER ++ substringFrom readme (e + String.length END_MARKER).
Proof.
  intros Hs He Hlt.
  pose proof (markers_do_not_overlap _ _ _ Hs He Hlt) as Hno.
  pose proof (end_marker_fits _ _ He) as Hfit.
  rewrite <- (after_is_marker_and_suffix _ _ He).
  rewrite <- append_assoc, <- (before_is_prefix_and_marker _ _ Hs).
  rewrite <- append_assoc.
  unfold substring2 at 1 2. rewrite Nat.sub_0_r.
  pose proof (substring_split readme 0 (s + String.length START_MARKER)
                (e - (s + String.length START_MARKER))) as H.
  rewrite Nat.add_0_l in H. rewrite <- H.
  replace (s + String.length START_MARKER + (e - (s + String.length START_MARKER)))
    with e by lia.
  symmetry. apply cut_and_glue. lia.
Qed.

Lemma splice_found (readme badges : string) (s e : nat) :
  indexOf readme START_MARKER = Some s ->
  indexOf readme END_MARKER = Some e ->
  s <= e ->
  updateReadmeContent readme badges =
  let newContent :=
    substring2 readme 0 (s + String.length START_MARKER) ++ nl ++ badges ++ nl ++
    substringFrom readme e in
  mkUpdateResult (negb (newContent =? readme)) newContent true.
Proof.
  intros Hs He Hle. unfold updateReadmeContent. rewrite Hs, He.
  destruct (e <? s)%nat eqn:E; [apply Nat.ltb_lt in E; lia | reflexivity].
Qed.

Lemma splice_not_found (readme badges : string) :
  indexOf readme START_MARKER = None \/ indexOf readme END_MARKER = None \/
  (exists s e, indexOf readme START_MARKER = Some s /\
               indexOf readme END_MARKER = Some e /\ e <= s) ->
  updateReadmeContent readme badges = mkUpdateResult false readme false.
Proof.
  unfold updateReadmeContent.
  intros [H | [H | (s & e & Hs & He & Hle)]].
  - now rewrite H.
  - rewrite H. now destruct (indexOf readme START_MARKER).
  - rewrite Hs, He.
    assert (e <> s) by (intros ->; exact (markers_differ _ _ Hs He)).
    destruct (e <? s)%nat eqn:E; [reflexivity | apply Nat.ltb_ge in E; lia].
Qed.

(** C7. For every document and markup: when a sentinel is absent, or the
    end sentinel's first occurrence is at or before the start sentinel's,
    [updateReadmeContent] answers markersFound=false, updated=false and the
    document unchanged.  When both are found in order, the document is
    [pre ++ START ++ old ++ END ++ post] and the new content is
    [pre ++ START] (the text up to and including the start sentinel), a
    newline, the markup, a newline, and [END ++ post] (the text from the end
    sentinel onward), so [pre] and [post] are kept as they are;
    markersFound=true, and updated=true exactly when the new content
    differs from the document. *)
Theorem updateReadmeContent_outcomes (readme badges : string) :
  let res := updateReadmeContent readme badges in
  ((indexOf readme START_MARKER = None \/ indexOf readme END_MARKER = None \/
    (exists s e, indexOf readme START_MARKER = Some s /\
                 indexOf readme END_MARKER = Some e /\ e <= s)) ->
   markersFound res = false /\ updated res = false /\ content res = readme)
  /\
  (forall s e,
     indexOf readme START_MARKER = Some s ->
     indexOf readme END_MARKER = Some e ->
     s < e ->
     let pre := substring2 readme 0 s in
     let old := substring2 readme (s + String.length START_MARKER) e in
     let post := substringFrom readme (e + String.length END_MARKER) in
     readme = pre ++ START_MARKER ++ old ++ END_MARKER ++ post /\
     substring2 readme 0 (s + String.length START_MARKER) = pre ++ START_MARKER /\
     substringFrom readme e = END_MARKER ++ post /\
     content res = (pre ++ START_MARKER) ++ nl ++ badges ++ nl ++ (END_MARKER ++ post) /\
     markersFound res = true /\
     (updated res = true <-> content res <> readme)).
Proof.
  intros res. split.
  - intros H. subst res. rewrite (splice_not_found _ _ H). now simpl.
  - intros s e Hs He Hlt pre old post. subst res.
    rewrite (splice_found readme badges s e Hs He) by lia. cbv zeta.
    cbn [content markersFound updated].
    rewrite (before_is_prefix_and_marker _ _ Hs), (after_is_marker_and_suffix _ _ He).
    fold pre post.
    split; [exact (readme_shape _ _ _ Hs He Hlt)|].
    repeat split.
    + intros H. apply negb_true_iff in H. now apply String.eqb_neq.
    + intros H. apply negb_true_iff. now apply String.eqb_neq.
Qed.

Lemma updateReadmeContent_outcomes_witness :
  indexOf Scenario.README_WITH_MARKERS START_MARKER = Some 10 /\
  indexOf Scenario.README_WITH_MARKERS END_MARKER = Some 54 /\
  content (updateReadmeContent Scenario.README_WITH_MARKERS "new") =
    ("# Project" ++ nl ++ START_MARKER) ++ nl ++ "new" ++ nl ++
    (END_MARKER ++ nl ++ "Footer") /\
  updated (updateReadmeContent Scenario.README_WITH_MARKERS "new") = true.
Proof.
  assert (Hs : indexOf Scenario.README_WITH_MARKERS START_MARKER = Some 10)
    by reflexivity.
  assert (He : indexOf Scenario.README_WITH_MARKERS END_MARKER = Some 54)
    by reflexivity.
  destruct (proj2 (updateReadmeContent_outcomes Scenario.README_WITH_MARKERS "new")
              10 54 Hs He) as (_ & _ & _ & Hc & _ & Hu); [lia|].
  split; [exact Hs|]. split; [exact He|]. split.
  - rewrite Hc. reflexivity.
  - apply Hu. rewrite Hc. vm_compute. discriminate.
Defined.

End ReadmeFacts.

(** ** Characters and lines of the products input *)

Module BadgesFacts.

Import JS Badges Spec StringFacts.

(** *** Characters of valid names and versions *)

Ltac by_cases_on_ascii c :=
  destruct c as [[] [] [] [] [] [] [] []]; vm_compute; intuition congruence.

Lemma productTail_versionTail c : productTail c = true -> versionTail c = true.
Proof. by_cases_on_ascii c. Qed.

Lemma versionTail_no_colon c : versionTail c = true -> Ascii.eqb c ":" = false.
Proof. by_cases_on_ascii c. Qed.

Lemma lineChar_no_LF c : lineChar c = true -> Ascii.eqb c LF = false.
Proof. by_cases_on_ascii c. Qed.

Lemma lineChar_no_space c : lineChar c = true -> isWhiteSpace c = false.
Proof. by_cases_on_ascii c. Qed.

Lemma versionTail_lineChar c : versionTail c = true -> lineChar c = true.
Proof. unfold lineChar. intros ->. reflexivity. Qed.

Lemma allChars_impl (p q : ascii -> bool) (s : string) :
  (forall c, p c = true -> q c = true) -> allChars p s = true -> allChars q s = true.
Proof.
  intros H. induction s as [|c s IH]; simpl; [reflexivity|].
  rewrite !andb_true_iff. intros [Hc Hs]. auto.
Qed.

Lemma allChars_app (p : ascii -> bool) (a b : string) :
  allChars p (a ++ b) = allChars p a && allChars p b.
Proof. induction a as [|c a IH]; simpl; [reflexivity|]. now rewrite IH, andb_assoc. Qed.

Lemma validateProduct_chars name :
  validateProduct name = true -> name <> "" /\ allChars versionTail name = true.
Proof.
  unfold validateProduct, PRODUCT_PATTERN, headThenTail.
  destruct name as [|c t]; [discriminate|].
  rewrite andb_true_iff. intros [Hc Ht]. split; [discriminate|].
  simpl. rewrite andb_true_iff. split.
  - apply productTail_versionTail. unfold productTail. now rewrite Hc.
  - revert Ht. apply allChars_impl, productTail_versionTail.
Qed.

Lemma validateVersion_chars v :
  validateVersion v = true -> v <> "" /\ allChars versionTail v = true.
Proof.
  unfold validateVersion. rewrite orb_true_iff. intros [H | H].
  - apply String.eqb_eq in H. subst v. split; [discriminate | reflexivity].
  - unfold VERSION_PATTERN, headThenTail in H.
    destruct v as [|c t]; [discriminate|].
    apply andb_true_iff in H as [Hc Ht]. split; [discriminate|].
    simpl. rewrite andb_true_iff. split; [|assumption].
    unfold versionTail. now rewrite Hc.
Qed.

(** *** [indexOf], [split], [trim] on such strings *)

Lemma prefix_single (a b : ascii) (s : string) :
  prefix (String a "") (String b s) = Ascii.eqb a b.
Proof.
  cbn [prefix]. destruct (ascii_dec a b) as [->|N].
  - rewrite Ascii.eqb_refl. now destruct s.
  - symmetry. now apply Ascii.eqb_neq.
Qed.

Lemma index_step (pat : string) (c : ascii) (s : string) :
  index 0 pat (String c s) =
  if prefix pat (String c s) then Some 0
  else match index 0 pat s with Some n => Some (S n) | None => None end.
Proof. reflexivity. Qed.

Lemma index_colon_absent (a : string) :
  allChars versionTail a = true -> indexOf a ":" = None.
Proof.
  unfold indexOf. induction a as [|c a IH]; [reflexivity|].
  cbn [allChars]. rewrite andb_true_iff. intros [Hc Ha].
  apply versionTail_no_colon in Hc.
  rewrite index_step, prefix_single, Ascii.eqb_sym, Hc.
  now rewrite (IH Ha).
Qed.

Lemma index_colon_first (a b : string) :
  allChars versionTail a = true ->
  indexOf (a ++ String ":" b) ":" = Some (String.length a).
Proof.
  unfold indexOf. induction a as [|c a IH].
  - intros _. cbn [append]. now rewrite index_step, prefix_single.
  - cbn [allChars append String.length]. rewrite andb_true_iff. intros [Hc Ha].
    apply versionTail_no_colon in Hc.
    rewrite index_step, prefix_single, Ascii.eqb_sym, Hc.
    now rewrite (IH Ha).
Qed.

Lemma substring_past_prefix (a b : string) :
  substringFrom (a ++ b) (String.length a) = b.
Proof.
  unfold substringFrom. rewrite length_append.
  replace (String.length a + String.length b - String.length a)
    with (String.length b) by lia.
  induction a as [|c a IH]; simpl; [apply substring_full | exact IH].
Qed.

Lemma split_no_sep (sep : ascii) (s : string) :
  allChars (fun c => negb (Ascii.eqb c sep)) s = true -> split sep s = [s].
Proof.
  induction s as [|c s IH]; simpl; [reflexivity|].
  rewrite andb_true_iff, negb_true_iff. intros [Hc Hs].
  now rewrite Hc, (IH Hs).
Qed.

Lemma split_at_sep (sep : ascii) (a b : string) :
  allChars (fun c => negb (Ascii.eqb c sep)) a = true ->
  split sep (a ++ String sep b) = a :: split sep b.
Proof.
  induction a as [|c a IH]; simpl.
  - intros _. now rewrite Ascii.eqb_refl.
  - rewrite andb_true_iff, negb_true_iff. intros [Hc Ha].
    now rewrite Hc, (IH Ha).
Qed.

Lemma split_join (sep : ascii) (ls : list string) :
  ls <> [] ->
  Forall (fun l => allChars (fun c => negb (Ascii.eqb c sep)) l = true) ls ->
  split sep (join (String sep "") ls) = ls.
Proof.
  intros Hne H. induction H as [|l ls Hl Hls IH]; [congruence|].
  destruct ls as [|l2 ls].
  - simpl. now apply split_no_sep.
  - change (join (String sep "") (l :: l2 :: ls))
      with (l ++ String sep (join (String sep "") (l2 :: ls))).
    rewrite split_at_sep by assumption.
    f_equal. apply IH. discriminate.
Qed.

Lemma trimStart_id (s : string) :
  allChars (fun c => negb (isWhiteSpace c)) s = true -> trimStart s = s.
Proof.
  destruct s as [|c s]; simpl; [reflexivity|].
  rewrite andb_true_iff, negb_true_iff. now intros [-> _].
Qed.

Lemma trimEnd_id (s : string) :
  allChars (fun c => negb (isWhiteSpace c)) s = true -> trimEnd s = s.
Proof.
  induction s as [|c s IH]; simpl; [reflexivity|].
  rewrite andb_true_iff, negb_true_iff. intros [Hc Hs].
  now rewrite (IH Hs), Hc, andb_false_r.
Qed.

Lemma trim_id (s : string) :
  allChars (fun c => negb (isWhiteSpace c)) s = true -> trim s = s.
Proof. intros H. unfold trim. now rewrite (trimStart_id _ H), (trimEnd_id _ H). Qed.

Lemma lineChars_trim (s : string) : allChars lineChar s = true -> trim s = s.
Proof.
  intros H. apply trim_id. revert H. apply allChars_impl.
  intros c Hc. now rewrite (lineChar_no_space _ Hc).
Qed.

Lemma lineChars_no_LF (s : string) :
  allChars lineChar s = true ->
  allChars (fun c => negb (Ascii.eqb c LF)) s = true.
Proof.
  apply allChars_impl. intros c Hc. now rewrite (lineChar_no_LF _ Hc).
Qed.

End BadgesFacts.

(** ** The product parser, line by line *)

Module ParseFacts.

Import JS Badges Spec StringFacts BadgesFacts.

(** One turn of the loop appends to the two arrays what the line
    contributes by itself. *)
Lemma parseLine_appends (ps : list Product) (ws : list string) (line : string) :
  parseLine (ps, ws) line =
  ((ps ++ lineProducts line)%list, (ws ++ lineWarnings line)%list).
Proof.
  unfold lineProducts, lineWarnings, parseLine.
  destruct (indexOf line ":") as [i|];
    destruct (negb (validateProduct _)); cbn [fst snd app];
      rewrite ?app_nil_r; try reflexivity.
  destruct (truthy _ && negb (validateVersion _)); cbn [fst snd app];
    rewrite ?app_nil_r; reflexivity.
Qed.

Lemma fold_parseLine (ls : list string) :
  forall ps ws,
    fold_left parseLine ls (ps, ws) =
    ((ps ++ flat_map lineProducts ls)%list, (ws ++ flat_map lineWarnings ls)%list).
Proof.
  induction ls as [|l ls IH]; intros ps ws; cbn [fold_left flat_map].
  - now rewrite !app_nil_r.
  - rewrite parseLine_appends, IH, <- !app_assoc. reflexivity.
Qed.

Lemma parseProducts_by_line (input : string) :
  parseProducts input =
  (flat_map lineProducts (firstn MAX_PRODUCTS (productLines input)),
   ((if (MAX_PRODUCTS <? List.length (productLines input))%nat
     then [truncationWarning] else []) ++
    flat_map lineWarnings (firstn MAX_PRODUCTS (productLines input)))%list).
Proof. unfold parseProducts. fold (productLines input). now rewrite fold_parseLine. Qed.

(** A line gives one product and no warning, or no product and one
    warning that starts with [Skipping]. *)
Lemma line_outcome (line : string) :
  (exists p, lineProducts line = [p] /\ lineWarnings line = [] /\
             validProduct p = true) \/
  (exists w, lineProducts line = [] /\ lineWarnings line = [w] /\
             prefix "Skipping" w = true).
Proof.
  unfold lineProducts, lineWarnings, parseLine.
  destruct (indexOf line ":") as [i|].
  - destruct (validateProduct (substring2 line 0 i)) eqn:Hn; cbn [negb fst snd].
    + unfold truthy.
      destruct (substringFrom line (i + 1) =? "") eqn:Hv; cbn [negb andb fst snd].
      * left. eexists. repeat split. unfold validProduct. cbn. now rewrite Hn.
      * destruct (validateVersion (substringFrom line (i + 1))) eqn:Hvv;
          cbn [negb fst snd].
        -- left. eexists. repeat split. unfold validProduct. cbn.
           now rewrite Hn, Hvv.
        -- right. eexists. repeat split.
    + right. eexists. repeat split.
  - destruct (validateProduct line) eqn:Hn; cbn [negb fst snd].
    + left. eexists. repeat split. unfold validProduct. cbn. now rewrite Hn.
    + right. eexists. repeat split.
Qed.

Lemma lineWarnings_not_truncation (ls : list string) :
  ~ In truncationWarning (flat_map lineWarnings ls).
Proof.
  intros H. apply in_flat_map in H as (l & _ & Hin).
  destruct (line_outcome l) as [(p & _ & Hw & _) | (w & _ & Hw & Hpre)];
    rewrite Hw in Hin.
  - destruct Hin.
  - destruct Hin as [E|[]]. subst w. vm_compute in Hpre. discriminate.
Qed.

Lemma line_products_bound (ls : list string) :
  List.length (flat_map lineProducts ls) <= List.length ls.
Proof.
  induction ls as [|l ls IH]; cbn [flat_map List.length]; [lia|].
  rewrite length_app.
  destruct (line_outcome l) as [(p & -> & _) | (w & -> & _)]; cbn; lia.
Qed.

Lemma line_products_valid (ls : list string) :
  forallb validProduct (flat_map lineProducts ls) = true.
Proof.
  induction ls as [|l ls IH]; cbn [flat_map]; [reflexivity|].
  rewrite forallb_app, IH, andb_true_r.
  destruct (line_outcome l) as [(p & -> & _ & Hp) | (w & -> & _)]; cbn;
    [now rewrite Hp | reflexivity].
Qed.

(** Every product the parser returns is valid. *)
Lemma parseProducts_valid (input : string) :
  forallb validProduct (fst (parseProducts input)) = true.
Proof. rewrite parseProducts_by_line. apply line_products_valid. Qed.

(** *** Lines of the shape [name:version] *)

Lemma validPair_chars (nv : string * string) :
  validPair nv = true ->
  allChars versionTail (fst nv) = true /\ allChars versionTail (snd nv) = true /\
  snd nv <> "".
Proof.
  unfold validPair. rewrite andb_true_iff. intros [Hn Hv].
  apply validateProduct_chars in Hn as [_ Hn].
  apply validateVersion_chars in Hv as [Hne Hv]. auto.
Qed.

Lemma pairLine_chars (nv : string * string) :
  validPair nv = true -> allChars lineChar (pairLine nv) = true.
Proof.
  intros H. apply validPair_chars in H as (Hn & Hv & _).
  unfold pairLine. rewrite allChars_app. cbn [append allChars].
  rewrite (allChars_impl _ _ _ versionTail_lineChar Hn).
  now rewrite (allChars_impl _ _ _ versionTail_lineChar Hv).
Qed.

Lemma pairLine_parses (nv : string * string) :
  validPair nv = true ->
  lineProducts (pairLine nv) = [pairProduct nv] /\ lineWarnings (pairLine nv) = [].
Proof.
  intros H. pose proof (validPair_chars _ H) as (Hn & Hv & Hne).
  unfold validPair in H. apply andb_true_iff in H as [Hvn Hvv].
  unfold lineProducts, lineWarnings, parseLine, pairLine.
  change (fst nv ++ ":" ++ snd nv) with (fst nv ++ String ":" (snd nv)).
  rewrite (index_colon_first _ _ Hn).
  assert (E1 : substring2 (fst nv ++ String ":" (snd nv)) 0 (String.length (fst nv))
               = fst nv).
  { unfold substring2. rewrite Nat.sub_0_r. apply substring_append_l. }
  assert (E2 : substringFrom (fst nv ++ String ":" (snd nv)) (String.length (fst nv) + 1)
               = snd nv).
  { change (String ":" (snd nv)) with (":" ++ snd nv).
    rewrite <- append_assoc.
    replace (String.length (fst nv) + 1) with (String.length (fst nv ++ ":"))
      by (rewrite length_append; reflexivity).
    apply substring_past_prefix. }
  rewrite E1, E2, Hvn, Hvv.
  assert (T : truthy (snd nv) = true).
  { unfold truthy. apply negb_true_iff. now apply String.eqb_neq. }
  rewrite T. cbn. split; reflexivity.
Qed.

Lemma productLines_of_pairs (pairs : list (string * string)) :
  forallb validPair pairs = true ->
  productLines (join nl (map pairLine pairs)) = map pairLine pairs.
Proof.
  intros H. unfold productLines.
  destruct pairs as [|nv pairs]; [reflexivity|].
  assert (F : Forall (fun l => allChars lineChar l = true) (map pairLine (nv :: pairs))).
  { apply Forall_map. rewrite forallb_forall in H. apply Forall_forall.
    intros x Hx. apply pairLine_chars. auto. }
  unfold nl. rewrite split_join.
  - assert (G : forall ls, Forall (fun l => allChars lineChar l = true) ls ->
                           Forall (fun l => l <> "") ls ->
                           filter nonEmpty (map trim ls) = ls).
    { induction 1 as [|l ls Hl Hls IH]; intros Hne; [reflexivity|].
      inversion Hne; subst. cbn [map filter].
      rewrite (lineChars_trim _ Hl), IH by assumption.
      destruct l; [congruence | reflexivity]. }
    apply G; [assumption|].
    apply Forall_map, Forall_forall. intros x _. unfold pairLine.
    destruct (fst x); discriminate.
  - discriminate.
  - revert F. apply Forall_impl. intros l. apply lineChars_no_LF.
Qed.

Lemma flat_map_singletons {A B} (f : A -> list B) (g : A -> B) (l : list A) :
  Forall (fun x => f x = [g x]) l -> flat_map f l = map g l.
Proof. induction 1 as [|x l Hx _ IH]; cbn; [reflexivity|]. now rewrite Hx, IH. Qed.

Lemma flat_map_empties {A B} (f : A -> list B) (l : list A) :
  Forall (fun x => f x = []) l -> flat_map f l = [].
Proof. induction 1 as [|x l Hx _ IH]; cbn; [reflexivity|]. now rewrite Hx, IH. Qed.

Lemma parseProducts_of_pairs (pairs : list (string * string)) :
  forallb validPair pairs = true ->
  parseProducts (join nl (map pairLine pairs)) =
  (map pairProduct (firstn MAX_PRODUCTS pairs),
   if (MAX_PRODUCTS <? List.length pairs)%nat then [truncationWarning] else []).
Proof.
  intros H. rewrite parseProducts_by_line, (productLines_of_pairs _ H).
  rewrite length_map, firstn_map.
  assert (F : Forall (fun nv => validPair nv = true) (firstn MAX_PRODUCTS pairs)).
  { apply Forall_forall. intros x Hx. rewrite forallb_forall in H.
    apply H. rewrite <- (firstn_skipn MAX_PRODUCTS pairs).
    apply in_or_app. now left. }
  rewrite !flat_map_concat_map, !map_map, <- !flat_map_concat_map.
  rewrite (flat_map_singletons _ pairProduct), flat_map_empties.
  - now rewrite app_nil_r.
  - revert F. apply Forall_impl. intros nv Hv. now apply pairLine_parses.
  - revert F. apply Forall_impl. intros nv Hv. now apply pairLine_parses.
Qed.

End ParseFacts.

(** ** Parsing and rendering: the properties *)

Module BadgeTheorems.

Import JS Badges Index Scenario Spec Extra StringFacts BadgesFacts ParseFacts.

Lemma productLines_single (line : string) :
  line <> "" -> allChars lineChar line = true -> productLines line = [line].
Proof.
  intros Hne H. unfold productLines.
  rewrite (split_no_sep LF line (lineChars_no_LF _ H)).
  cbn [map filter]. rewrite (lineChars_trim _ H).
  destruct line; [congruence | reflexivity].
Qed.

Lemma parseProducts_single (line : string) :
  line <> "" -> allChars lineChar line = true ->
  parseProducts line = (lineProducts line, lineWarnings line).
Proof.
  intros Hne H. rewrite parseProducts_by_line, (productLines_single _ Hne H).
  cbn. now rewrite !app_nil_r.
Qed.

Lemma nonBlankLines_kept (input : string) :
  nonBlankLines input = productLines input.
Proof.
  unfold nonBlankLines, productLines. apply filter_ext.
  intros l. now destruct l.
Qed.

Lemma lineVerdict_products (line : string) :
  lineProducts line = verdictProducts line.
Proof.
  unfold lineProducts, verdictProducts, lineVerdict, parseLine, truthy,
    invalidNameWarning, invalidVersionWarning.
  destruct (indexOf line ":") as [i|];
    destruct (validateProduct _); cbn [negb fst]; try reflexivity.
  destruct (substringFrom line (i + 1) =? ""); cbn [negb andb fst];
    [reflexivity|].
  destruct (validateVersion _); reflexivity.
Qed.

Lemma lineVerdict_warnings (line : string) :
  lineWarnings line = verdictWarnings line.
Proof.
  unfold lineWarnings, verdictWarnings, lineVerdict, parseLine, truthy,
    invalidNameWarning, invalidVersionWarning.
  destruct (indexOf line ":") as [i|];
    destruct (validateProduct _); cbn [negb snd]; try reflexivity.
  destruct (substringFrom line (i + 1) =? ""); cbn [negb andb snd];
    [reflexivity|].
  destruct (validateVersion _); reflexivity.
Qed.

Lemma flat_map_same {A B} (f g : A -> list B) (l : list A) :
  (forall a, f a = g a) -> flat_map f l = flat_map g l.
Proof. intros H. induction l as [|a l IH]; cbn; [reflexivity|]. now rewrite H, IH. Qed.

Lemma nonBlankLines_not_blank (input : string) :
  Forall (fun l => l <> "") (nonBlankLines input).
Proof.
  unfold nonBlankLines. apply Forall_forall. intros l H.
  apply filter_In in H as [_ H]. now destruct l.
Qed.

(** C9. [parseProducts] works on the lines of its input with the white
    space around them removed, and leaves out the ones that are empty
    then.  Of the lines left it takes the first 50, and each of them is
    judged by itself: it gives its product when its name and (if it has
    one) its version are valid, and otherwise the warning that quotes what
    is wrong, whatever the other lines are; so every product returned is
    valid.  The truncation warning is among the warnings exactly once when
    more than 50 lines were left, and not at all otherwise.  In particular
    more than 50 valid [name:version] lines (51, say) give the products of
    the first 50 and the truncation warning as the only warning. *)
Theorem parseProducts_cap :
  (forall input : string,
     let lines := nonBlankLines input in
     let kept := firstn 50 lines in
     let truncated := (50 <? List.length lines)%nat in
     Forall (fun l => l <> "") lines /\
     fst (parseProducts input) = flat_map verdictProducts kept /\
     snd (parseProducts input) =
       ((if truncated then [capWarning] else []) ++
        flat_map verdictWarnings kept)%list /\
     count_occ string_dec (snd (parseProducts input)) capWarning =
       (if truncated then 1 else 0) /\
     List.length (fst (parseProducts input)) <= 50 /\
     forallb validProduct (fst (parseProducts input)) = true) /\
  (forall pairs : list (string * string),
     forallb validPair pairs = true ->
     50 < List.length pairs ->
     parseProducts (join nl (map pairLine pairs)) =
       (map pairProduct (firstn 50 pairs), [capWarning]) /\
     List.length (map pairProduct (firstn 50 pairs)) = 50).
Proof.
  assert (T : truncationWarning = capWarning) by reflexivity.
  split.
  - intros input lines kept truncated. subst kept truncated lines.
    split; [apply nonBlankLines_not_blank|].
    rewrite nonBlankLines_kept, parseProducts_by_line. cbn [fst snd].
    change 50 with MAX_PRODUCTS. rewrite <- T.
    rewrite <- (flat_map_same _ _ _ lineVerdict_products).
    rewrite <- (flat_map_same _ _ _ lineVerdict_warnings).
    repeat split.
    + rewrite count_occ_app.
      rewrite (proj1 (count_occ_not_In string_dec _ _)
                 (lineWarnings_not_truncation
                    (firstn MAX_PRODUCTS (productLines input)))).
      destruct (MAX_PRODUCTS <? _)%nat; cbn [count_occ]; [|reflexivity].
      destruct (string_dec truncationWarning truncationWarning);
        [reflexivity | congruence].
    + etransitivity; [apply line_products_bound | apply firstn_le_length].
    + apply line_products_valid.
  - intros pairs Hv Hlen. change 50 with MAX_PRODUCTS in *. rewrite <- T. split.
    + rewrite (parseProducts_of_pairs _ Hv).
      apply Nat.ltb_lt in Hlen. now rewrite Hlen.
    + rewrite length_map, length_firstn. lia.
Qed.

Lemma parseProducts_cap_witness :
  forallb validPair products51 = true /\
  List.length products51 = 51 /\
  NoDup (map pairLine products51) /\
  List.length (fst (parseProducts (join nl (map pairLine products51)))) = 50 /\
  snd (parseProducts (join nl (map pairLine products51))) = [capWarning].
Proof.
  assert (V : forallb validPair products51 = true) by (vm_compute; reflexivity).
  assert (L : 50 < List.length products51) by (vm_compute; lia).
  destruct (proj2 parseProducts_cap products51 V L) as [E N].
  rewrite E. cbn [fst snd]. rewrite N.
  repeat split; try reflexivity.
  vm_compute. repeat (constructor; [cbv; intuition discriminate|]). constructor.
Defined.

(** C10. For every valid product name, the line made of the name and a
    colon with nothing after it is accepted without a warning and gives
    the product with no version, the same result as the line made of the
    name alone. *)
Theorem parseProducts_empty_version (name : string) :
  validateProduct name = true ->
  parseProducts (name ++ ":") = ([mkProduct name None], []) /\
  parseProducts (name ++ ":") = parseProducts name.
Proof.
  intros Hv. pose proof (validateProduct_chars _ Hv) as [Hne Hc].
  assert (A : parseProducts name = ([mkProduct name None], [])).
  { rewrite parseProducts_single; [|assumption|
      now apply (allChars_impl _ _ _ versionTail_lineChar)].
    unfold lineProducts, lineWarnings, parseLine.
    rewrite (index_colon_absent _ Hc), Hv. reflexivity. }
  assert (B : parseProducts (name ++ ":") = ([mkProduct name None], [])).
  { rewrite parseProducts_single.
    - unfold lineProducts, lineWarnings, parseLine.
      change (name ++ ":") with (name ++ String ":" "").
      rewrite (index_colon_first _ _ Hc).
      unfold substring2. rewrite Nat.sub_0_r, substring_append_l, Hv.
      change (String ":" "") with (":" ++ "").
      rewrite <- append_assoc.
      replace (String.length name + 1) with (String.length (name ++ ":"))
        by (rewrite length_append; reflexivity).
      rewrite substring_past_prefix. reflexivity.
    - destruct name; discriminate.
    - rewrite allChars_app, (allChars_impl _ _ _ versionTail_lineChar Hc).
      reflexivity. }
  rewrite A, B. split; reflexivity.
Qed.

Lemma parseProducts_empty_version_witness :
  validateProduct "python" = true /\
  parseProducts "python:" = ([mkProduct "python" None], []) /\
  parseProducts "python:" = parseProducts "python".
Proof.
  split; [reflexivity|].
  apply (parseProducts_empty_version "python"). reflexivity.
Defined.

(** *** Rendering *)

Lemma fold_left_push {A B} (f : A -> B) (l : list A) :
  forall acc, fold_left (fun acc x => (acc ++ [f x])%list) l acc = (acc ++ map f l)%list.
Proof.
  induction l as [|x l IH]; intros acc; cbn [fold_left map].
  - now rewrite app_nil_r.
  - rewrite IH, <- app_assoc. reflexivity.
Qed.

Lemma validStyle_plain (style : string) :
  arrIncludes validStyles style = true ->
  truthy style = true /\ encodeURIComponent style = style.
Proof.
  unfold arrIncludes, validStyles. cbn [existsb].
  rewrite !orb_true_iff, !String.eqb_eq.
  intros [-> | [-> | [-> | [-> | H]]]]; try discriminate H; split; reflexivity.
Qed.

(** The image URL for any style string: the suffix carries the style
    percent-encoded, and is left out for the empty style too. *)
Lemma getBadgeUrl_any_style (type : BadgeType) (p : Product) (style : string)
    (baseUrl : option string) :
  validProduct p = true ->
  getBadgeUrl type (product p) (version p) (Some style) baseUrl =
  imagePathSpec (baseInForce baseUrl) type p ++
  (if truthy style && negb (style =? "flat")
   then "?style=" ++ encodeURIComponent style else "").
Proof.
  intros Hp.
  unfold getBadgeUrl, imagePathSpec, baseInForce, orElse.
  assert (Hv : forall v, version p = Some v -> truthy v = true).
  { intros v E. unfold validProduct in Hp. rewrite E in Hp.
    apply andb_true_iff in Hp as [_ Hp].
    apply validateVersion_chars in Hp as [Hne _].
    unfold truthy. apply negb_true_iff. now apply String.eqb_neq. }
  destruct (version p) as [v|].
  - rewrite (Hv v eq_refl).
    destruct (truthy style && negb (style =? "flat"));
      rewrite ?append_assoc, ?append_nil_r; cbn [append];
      rewrite ?append_assoc; reflexivity.
  - destruct (truthy style && negb (style =? "flat"));
      rewrite ?append_assoc, ?append_nil_r; cbn [append];
      rewrite ?append_assoc; reflexivity.
Qed.

Lemma getBadgeUrl_spec (type : BadgeType) (p : Product) (style : string)
    (baseUrl : option string) :
  validProduct p = true ->
  arrIncludes validStyles style = true ->
  getBadgeUrl type (product p) (version p) (Some style) baseUrl =
  imageUrlSpec (baseInForce baseUrl) type p style.
Proof.
  intros Hp Hs. destruct (validStyle_plain _ Hs) as [Ht He].
  rewrite (getBadgeUrl_any_style type p style baseUrl Hp), Ht, He.
  unfold imageUrlSpec. now destruct (style =? "flat").
Qed.

(** C8. For validated products, any categories, a style of the
    enumeration and any base URL: the image URL of a badge is
    [{base}/{category}/{product}[/{version}].svg], followed by
    [?style={style}] exactly when the style is not flat ([base] is the
    given base URL, or the default one when none is given); and the markup
    is one line per product in the order of the products, lines joined by
    newlines, a line being the badge units [[![label](image)](link)] of
    the product in the order of the categories, joined by single spaces. *)
Theorem rendering_format (products : list Product) (types : list BadgeType)
    (style : string) (linkTo : LinkTo) (baseUrl : option string) :
  forallb validProduct products = true ->
  arrIncludes validStyles style = true ->
  (forall p type, In p products ->
     getBadgeUrl type (product p) (version p) (Some style) baseUrl =
     imageUrlSpec (baseInForce baseUrl) type p style) /\
  generateAllBadges products types style linkTo baseUrl =
  markupSpec (baseInForce baseUrl) products types style linkTo.
Proof.
  intros Hps Hs. rewrite forallb_forall in Hps. split.
  - intros p type Hin. apply getBadgeUrl_spec; auto.
  - unfold generateAllBadges, markupSpec.
    rewrite (fold_left_push
               (fun p => join " " (map (fun type =>
                  generateBadgeMarkdown p type style linkTo baseUrl) types))).
    cbn [app]. f_equal. apply map_ext_in. intros p Hin.
    f_equal. apply map_ext. intros type.
    unfold generateBadgeMarkdown, unitSpec, badgeUnit.
    now rewrite (getBadgeUrl_spec type p style baseUrl (Hps p Hin) Hs).
Qed.

Lemma rendering_format_witness :
  generateAllBadges
    [mkProduct "python" (Some "3.12"); mkProduct "node" None] [health; eol]
    "for-the-badge" badge_page (Some "https://staging.releaserun.com/badge") =
  markupSpec "https://staging.releaserun.com/badge"
    [mkProduct "python" (Some "3.12"); mkProduct "node" None] [health; eol]
    "for-the-badge" badge_page.
Proof.
  apply (rendering_format
           [mkProduct "python" (Some "3.12"); mkProduct "node" None] [health; eol]
           "for-the-badge" badge_page (Some "https://staging.releaserun.com/badge"));
    reflexivity.
Defined.

End BadgeTheorems.

(** ** Steps of the driver and what they emit *)

Module MonadFacts.

Import JS Platform Badges Readme Index Spec.

Lemma bind_val {A B} (m : M A) (k : A -> M B) tr a tr' :
  m tr = (Val a, tr') -> bind m k tr = k a tr'.
Proof. unfold bind. now intros ->. Qed.

Lemma bind_return {A B} (m : M A) (k : A -> M B) tr tr' :
  m tr = (Return, tr') -> bind m k tr = (Return, tr').
Proof. unfold bind. now intros ->. Qed.

Lemma bind_throw {A B} (m : M A) (k : A -> M B) tr e tr' :
  m tr = (Throw e, tr') -> bind m k tr = (Throw e, tr').
Proof. unfold bind. now intros ->. Qed.

Lemma tryCatch_val {A} (m : M A) h tr a tr' :
  m tr = (Val a, tr') -> tryCatch m h tr = (Val a, tr').
Proof. unfold tryCatch. now intros ->. Qed.

Lemma tryCatch_return {A} (m : M A) h tr tr' :
  m tr = (Return, tr') -> tryCatch m h tr = (Return, tr').
Proof. unfold tryCatch. now intros ->. Qed.

Lemma tryCatch_throw {A} (m : M A) h tr e tr' :
  m tr = (Throw e, tr') -> tryCatch m h tr = h e tr'.
Proof. unfold tryCatch. now intros ->. Qed.

Lemma callsOf_app (a b : list Event) : callsOf (a ++ b) = (callsOf a ++ callsOf b)%list.
Proof. unfold callsOf. apply flat_map_app. Qed.

Lemma callsOf_remote (tr : list Event) (c : Call) :
  callsOf (tr ++ [ERemote c]) = (callsOf tr ++ [c])%list.
Proof. now rewrite callsOf_app. Qed.

Lemma remote_ok {A} (c : Call) (answer : list Call -> Thrown + A) tr a :
  answer (callsOf tr ++ [c])%list = inr a ->
  remote c answer tr = (Val a, (tr ++ [ERemote c])%list).
Proof. unfold remote. rewrite callsOf_remote. now intros ->. Qed.

Lemma remote_fails {A} (c : Call) (answer : list Call -> Thrown + A) tr e :
  answer (callsOf tr ++ [c])%list = inl e ->
  remote c answer tr = (Throw e, (tr ++ [ERemote c])%list).
Proof. unfold remote. rewrite callsOf_remote. now intros ->. Qed.

Lemma emit_run (e : Event) tr : emit e tr = (Val tt, (tr ++ [e])%list).
Proof. reflexivity. Qed.

(** How the outcome of the body shows in the trace of the run. *)
Lemma run_of_body (W : World) :
  match body W [] with
  | (Throw e, tr) => run W = (tr ++ [ESetFailed (topLevelMessage e)])%list
  | (_, tr) => run W = tr
  end.
Proof.
  unfold run, tryCatch. destruct (body W []) as [[a| |e] tr]; try reflexivity.
  destruct e; reflexivity.
Qed.

(** *** Steps only append, and what they append *)

Section EmitsOnly.

Variable P : Event -> bool.

Lemma emitsOnly_ret {A} (a : A) : emitsOnly P (ret a).
Proof. intros tr. exists []. now rewrite app_nil_r. Qed.

Lemma emitsOnly_returnNow {A} : emitsOnly P (@returnNow A).
Proof. intros tr. exists []. now rewrite app_nil_r. Qed.

Lemma emitsOnly_throw {A} e : emitsOnly P (@throw A e).
Proof. intros tr. exists []. now rewrite app_nil_r. Qed.

Lemma emitsOnly_emit e : P e = true -> emitsOnly P (emit e).
Proof. intros H tr. exists [e]. cbn. now rewrite H. Qed.

Lemma emitsOnly_remote {A} c (answer : list Call -> Thrown + A) :
  P (ERemote c) = true -> emitsOnly P (remote c answer).
Proof.
  intros H tr. exists [ERemote c]. unfold remote.
  destruct (answer _); cbn; now rewrite H.
Qed.

Lemma emitsOnly_bind {A B} (m : M A) (k : A -> M B) :
  emitsOnly P m -> (forall a, emitsOnly P (k a)) -> emitsOnly P (bind m k).
Proof.
  intros Hm Hk tr. unfold bind.
  destruct (Hm tr) as (s1 & E1 & F1).
  destruct (m tr) as [[a| |e] tr1]; cbn [snd] in E1; subst tr1.
  - destruct (Hk a (tr ++ s1)%list) as (s2 & E2 & F2).
    exists (s1 ++ s2)%list. rewrite E2, app_assoc, forallb_app, F1, F2. auto.
  - exists s1. auto.
  - exists s1. auto.
Qed.

Lemma emitsOnly_tryCatch {A} (m : M A) (h : Thrown -> M A) :
  emitsOnly P m -> (forall e, emitsOnly P (h e)) -> emitsOnly P (tryCatch m h).
Proof.
  intros Hm Hh tr. unfold tryCatch.
  destruct (Hm tr) as (s1 & E1 & F1).
  destruct (m tr) as [[a| |e] tr1]; cbn [snd] in E1; subst tr1.
  - exists s1. auto.
  - exists s1. auto.
  - destruct (Hh e (tr ++ s1)%list) as (s2 & E2 & F2).
    exists (s1 ++ s2)%list. rewrite E2, app_assoc, forallb_app, F1, F2. auto.
Qed.

Lemma emitsOnly_forEach {A} (l : list A) (f : A -> M unit) :
  (forall x, emitsOnly P (f x)) -> emitsOnly P (forEach l f).
Proof.
  intros H. induction l as [|x l IH]; cbn [forEach].
  - apply emitsOnly_ret.
  - apply emitsOnly_bind; auto.
Qed.

End EmitsOnly.

(** Breaks a goal [emitsOnly P m] down along the structure of [m]; what is
    left are the conditions [P e = true] on the events [m] emits. *)
Ltac emits_step :=
  match goal with
  | |- emitsOnly _ (bind _ _) => apply emitsOnly_bind
  | |- emitsOnly _ (tryCatch _ _) => apply emitsOnly_tryCatch
  | |- emitsOnly _ (forEach _ _) => apply emitsOnly_forEach
  | |- emitsOnly _ (ret _) => apply emitsOnly_ret
  | |- emitsOnly _ returnNow => apply emitsOnly_returnNow
  | |- emitsOnly _ (throw _) => apply emitsOnly_throw
  | |- emitsOnly _ (emit _) => apply emitsOnly_emit
  | |- emitsOnly _ (remote _ _) => apply emitsOnly_remote
  | |- emitsOnly _ (if ?c then _ else _) => destruct c
  | |- emitsOnly _ (match ?x with _ => _ end) => destruct x
  | |- emitsOnly _ (let _ := _ in _) => cbv zeta
  | |- forall _, _ => intro
  end.

Ltac emits := repeat emits_step; try reflexivity.

Section Stages.

Variable P : Event -> bool.

(** What [P] may be asked to allow: the reporting calls ([core.setFailed],
    [core.info], ...), file accesses, and the four kinds of remote call. *)
Hypothesis P_report : forall e, isLocalReport e = true -> P e = true.
Hypothesis P_file : forall e, isFile e = true -> P e = true.
Hypothesis P_lookup : forall c, isLookup c = true -> P (ERemote c) = true.
Hypothesis P_ref : forall c, isGentleRefOp c = true -> P (ERemote c) = true.
Hypothesis P_commit : forall c, isCommitCall c = true -> P (ERemote c) = true.
Hypothesis P_pr : forall c, isPullRequestWrite c = true -> P (ERemote c) = true.

Ltac allowed :=
  first [ now apply P_report | now apply P_file | now apply P_lookup
        | now apply P_ref | now apply P_commit | now apply P_pr ].

Lemma emitsOnly_validateInputs W : emitsOnly P (validateInputs W).
Proof. unfold validateInputs, getInputRequired. emits; allowed. Qed.

Lemma emitsOnly_render cfg : emitsOnly P (render cfg).
Proof. unfold render. emits; allowed. Qed.

Lemma emitsOnly_spliceDocument W cfg r : emitsOnly P (spliceDocument W cfg r).
Proof. unfold spliceDocument. emits; allowed. Qed.

Lemma emitsOnly_connect W : emitsOnly P (connect W).
Proof. unfold connect. emits; allowed. Qed.

Lemma emitsOnly_ensureBranch W cfg cn : emitsOnly P (ensureBranch W cfg cn).
Proof. unfold ensureBranch. emits; allowed. Qed.

Lemma emitsOnly_getFileSha W cfg : emitsOnly P (getFileSha W cfg).
Proof. unfold getFileSha. emits; allowed. Qed.

Lemma emitsOnly_commitFile W cfg res sha : emitsOnly P (commitFile W cfg res sha).
Proof.
  unfold commitFile. emits; first [allowed | apply emitsOnly_getFileSha].
Qed.

Lemma emitsOnly_upsertPR W cfg r cn : emitsOnly P (upsertPR W cfg r cn).
Proof. unfold upsertPR. emits; allowed. Qed.

Lemma emitsOnly_prepare W : emitsOnly P (prepare W).
Proof.
  unfold prepare. emits;
    auto using emitsOnly_validateInputs, emitsOnly_render,
               emitsOnly_spliceDocument, emitsOnly_connect.
Qed.

Lemma emitsOnly_reconcile W p : emitsOnly P (reconcile W p).
Proof.
  unfold reconcile. emits;
    auto using emitsOnly_ensureBranch, emitsOnly_getFileSha,
               emitsOnly_commitFile, emitsOnly_upsertPR.
Qed.

Lemma emitsOnly_body W : emitsOnly P (body W).
Proof.
  unfold body. emits; auto using emitsOnly_prepare, emitsOnly_reconcile.
Qed.

Lemma run_events W : forallb P (run W) = true.
Proof.
  unfold run.
  assert (H : emitsOnly P (tryCatch (body W) topLevelHandler)).
  { apply emitsOnly_tryCatch; [apply emitsOnly_body|].
    intros [m|s]; apply emitsOnly_emit; now apply P_report. }
  destruct (H []) as (suf & E & F). now rewrite E.
Qed.

End Stages.

End MonadFacts.

(** ** The badge-service URL check *)

Module UrlFacts.

Import JS Platform Badges Readme Index Spec StringFacts MonadFacts.

Lemma dot_not_digit : isDigit "."%char = false.
Proof. reflexivity. Qed.

(** A digit group in front of something that does not start with a digit
    is what [\d{1,3}] takes. *)
Lemma digits1to3_group (a r : string) :
  isDigitGroup a = true ->
  match r with "" => True | String c _ => isDigit c = false end ->
  digits1to3 (a ++ r) = Some r.
Proof.
  unfold isDigitGroup. rewrite !andb_true_iff.
  intros [[L1 L2] D] Hr.
  apply Nat.leb_le in L1. apply Nat.leb_le in L2.
  destruct a as [|x [|y [|z [|w a]]]]; cbn [String.length] in *; try lia;
    cbn [allChars] in D; rewrite ?andb_true_iff in D.
  - destruct D as [Dx _]. cbn [append digits1to3]. rewrite Dx.
    destruct r as [|c r]; [reflexivity | now rewrite Hr].
  - destruct D as [Dx [Dy _]]. cbn [append digits1to3]. rewrite Dx, Dy.
    destruct r as [|c r]; [reflexivity | now rewrite Hr].
  - destruct D as [Dx [Dy [Dz _]]]. cbn [append digits1to3].
    now rewrite Dx, Dy, Dz.
Qed.

Lemma digits1to3_inv (s r : string) :
  digits1to3 s = Some r -> exists a, s = a ++ r /\ isDigitGroup a = true.
Proof.
  unfold digits1to3.
  destruct s as [|x t]; [discriminate|].
  destruct (isDigit x) eqn:Dx; [|discriminate].
  destruct t as [|y t2].
  { intros [= <-]. exists (String x ""). unfold isDigitGroup. cbn. now rewrite Dx. }
  destruct (isDigit y) eqn:Dy.
  2:{ intros [= <-]. exists (String x ""). unfold isDigitGroup. cbn. now rewrite Dx. }
  destruct t2 as [|z t3].
  { intros [= <-]. exists (String x (String y "")). unfold isDigitGroup. cbn.
    now rewrite Dx, Dy. }
  destruct (isDigit z) eqn:Dz.
  - intros [= <-]. exists (String x (String y (String z ""))).
    unfold isDigitGroup. cbn. now rewrite Dx, Dy, Dz.
  - intros [= <-]. exists (String x (String y "")). unfold isDigitGroup. cbn.
    now rewrite Dx, Dy.
Qed.

Lemma dotGroup_step (n : nat) (a r : string) :
  isDigitGroup a = true ->
  match r with "" => True | String c _ => isDigit c = false end ->
  dotGroups (S n) ("." ++ a ++ r) = dotGroups n r.
Proof.
  intros Ha Hr. cbn [dotGroups append]. rewrite Ascii.eqb_refl.
  now rewrite (digits1to3_group a r Ha Hr).
Qed.

Lemma dotGroup_inv (n : nat) (s r : string) :
  dotGroups (S n) s = Some r ->
  exists a rest, s = "." ++ a ++ rest /\ isDigitGroup a = true /\
                 dotGroups n rest = Some r.
Proof.
  cbn [dotGroups]. destruct s as [|c t]; [discriminate|].
  destruct (Ascii.eqb_spec c "."); [subst c | discriminate].
  destruct (digits1to3 t) as [rest|] eqn:E; [|discriminate].
  intros H. apply digits1to3_inv in E as (a & -> & Ha).
  exists a, rest. auto.
Qed.

(** The regular expression accepts exactly the bare IPv4 literals. *)
Lemma isIPv4Literal_spec (h : string) : isIPv4Literal h = true <-> bareIPv4 h.
Proof.
  unfold isIPv4Literal, bareIPv4. split.
  - destruct (digits1to3 h) as [r|] eqn:E; [|discriminate].
    apply digits1to3_inv in E as (a & -> & Ha).
    destruct (dotGroups 3 r) as [[|]|] eqn:G; try discriminate. intros _.
    apply dotGroup_inv in G as (b & r1 & -> & Hb & G).
    apply dotGroup_inv in G as (c & r2 & -> & Hc & G).
    apply dotGroup_inv in G as (d & r3 & -> & Hd & G).
    cbn [dotGroups] in G. injection G as ->.
    exists a, b, c, d. rewrite append_nil_r. auto.
  - intros (a & b & c & d & -> & Ha & Hb & Hc & Hd).
    rewrite (digits1to3_group a _ Ha) by exact dot_not_digit.
    rewrite (dotGroup_step 2 b _ Hb) by exact dot_not_digit.
    rewrite (dotGroup_step 1 c _ Hc) by exact dot_not_digit.
    rewrite <- (append_nil_r d).
    rewrite (dotGroup_step 0 d "" Hd) by exact I.
    reflexivity.
Qed.

Lemma isIPv4Literal_false (h : string) : isIPv4Literal h = false <-> ~ bareIPv4 h.
Proof.
  rewrite <- isIPv4Literal_spec. destruct (isIPv4Literal h); intuition congruence.
Qed.

Lemma checkParsed_spec (parsed : URL) :
  checkParsed parsed = true <->
  protocol parsed = "https:" /\
  (hostname parsed = "releaserun.com" \/
   endsWith (hostname parsed) ".releaserun.com" = true) /\
  ~ bareIPv4 (hostname parsed) /\
  startsWith (hostname parsed) "[" = false /\
  hostname parsed <> "::1" /\
  hostname parsed <> "localhost".
Proof.
  unfold checkParsed. rewrite <- isIPv4Literal_false.
  destruct (String.eqb_spec (protocol parsed) "https:") as [Hp|Hp]; cbn [negb].
  2:{ split; [discriminate | intros [? _]; contradiction]. }
  destruct (isIPv4Literal (hostname parsed)) eqn:Hip; cbn [orb].
  { split; [discriminate | intros (_ & _ & ? & _); discriminate]. }
  destruct (startsWith (hostname parsed) "[") eqn:Hb; cbn [orb].
  { split; [discriminate | intros (_ & _ & _ & ? & _); discriminate]. }
  destruct (String.eqb_spec (hostname parsed) "::1") as [H1|H1].
  { split; [discriminate | intros (_ & _ & _ & _ & ? & _); contradiction]. }
  destruct (String.eqb_spec (hostname parsed) "localhost") as [Hl|Hl]; cbn [orb].
  { split; [discriminate | intros (_ & _ & _ & _ & _ & ?); contradiction]. }
  destruct (String.eqb_spec (hostname parsed) "127.0.0.1") as [H127|H127].
  { rewrite H127 in Hip. vm_compute in Hip. discriminate. }
  destruct (String.eqb_spec (hostname parsed) "releaserun.com") as [Hr|Hr];
    cbn [negb andb].
  { intuition. }
  destruct (endsWith (hostname parsed) ".releaserun.com") eqn:He; cbn [negb].
  { intuition. }
  split; [discriminate|]. intros (_ & [?|?] & _); [contradiction | discriminate].
Qed.

Lemma isValidBadgeServiceUrl_spec (newURL : string -> option URL) (url : string) :
  isValidBadgeServiceUrl newURL url = true <-> acceptableUrl newURL url.
Proof.
  unfold isValidBadgeServiceUrl, acceptableUrl.
  destruct (newURL url) as [parsed|].
  - rewrite checkParsed_spec. split.
    + intros H. exists parsed. auto.
    + intros (p & [= <-] & H). exact H.
  - split; [discriminate | intros (p & E & _); discriminate].
Qed.

(** *** A rejected URL stops the run *)

(** [validateInputs] ends in one of three ways, and reports at most one
    failure. *)
Lemma validateInputs_outcome (W : World) (tr : list Event) :
  (exists cfg, validateInputs W tr = (Val cfg, tr)) \/
  (exists msg, validateInputs W tr = (Return, (tr ++ [ESetFailed msg])%list)) \/
  (exists e, validateInputs W tr = (Throw e, tr)).
Proof.
  unfold validateInputs, getInputRequired.
  destruct (truthy (rawInput W "products")); cbn [bind ret throw].
  2:{ right. right. eexists. reflexivity. }
  unfold bind at 1. cbn [ret].
  repeat match goal with
         | |- context [if ?c then _ else _] => destruct c
         end;
    try (left; eexists; reflexivity);
    right; left; eexists; reflexivity.
Qed.

Lemma validateInputs_rejects_url (W : World) (tr : list Event) :
  truthy (getInput W "badge-service-url") = true ->
  isValidBadgeServiceUrl (newURL W) (getInput W "badge-service-url") = false ->
  (exists msg, validateInputs W tr = (Return, (tr ++ [ESetFailed msg])%list)) \/
  (exists e, validateInputs W tr = (Throw e, tr)).
Proof.
  intros Ht Hv. unfold validateInputs, getInputRequired.
  destruct (truthy (rawInput W "products")); cbn [bind ret throw].
  2:{ right. eexists. reflexivity. }
  unfold bind at 1. cbn [ret]. rewrite Ht, Hv. cbn [negb andb].
  repeat match goal with
         | |- context [if ?c then _ else _] => destruct c
         end;
    left; eexists; reflexivity.
Qed.

(** The path check as the code has it: a resolved path that does not
    start with the resolved workspace path, as strings, is refused. *)
Lemma validateInputs_rejects_path (W : World) (tr : list Event) :
  startsWith
    (path_resolve (cwd W) (orElse (getInput W "readme-path") "README.md"))
    (path_resolve (cwd W)
       match env_GITHUB_WORKSPACE W with
       | Some w => orElse w (cwd W)
       | None => cwd W
       end) = false ->
  (exists msg, validateInputs W tr = (Return, (tr ++ [ESetFailed msg])%list)) \/
  (exists e, validateInputs W tr = (Throw e, tr)).
Proof.
  intros Hp. unfold validateInputs, getInputRequired.
  destruct (truthy (rawInput W "products")); cbn [bind ret throw].
  2:{ right. eexists. reflexivity. }
  unfold bind at 1. cbn [ret]. rewrite Hp. cbn [negb].
  repeat match goal with
         | |- context [if ?c then _ else _] => destruct c
         end;
    left; eexists; reflexivity.
Qed.

Lemma run_stops_in_validateInputs (W : World) :
  (forall cfg tr, validateInputs W [] <> (Val cfg, tr)) ->
  exists msg, run W = [ESetFailed msg].
Proof.
  intros H. pose proof (run_of_body W) as R.
  unfold body, prepare in R.
  destruct (validateInputs_outcome W []) as [(cfg & E) | [(msg & E) | (e & E)]].
  - exfalso. exact (H _ _ E).
  - erewrite bind_return in R by (apply bind_return; exact E). eauto.
  - erewrite bind_throw in R by (apply bind_throw; exact E). eauto.
Qed.

End UrlFacts.

(** ** The branch and commit steps, case by case *)

Module DriverFacts.

Import JS Platform Badges Readme Index Spec MonadFacts.

(** Puts a trace built by successive appends into the form [tr ++ [e1; ...]],
    and the call histories with it. *)
Ltac flatten_traces :=
  repeat rewrite callsOf_app;
  repeat rewrite <- app_assoc;
  cbn [callsOf flat_map app].

(** The four ways through the branch step, by the remote's answers. *)
Lemma ensureBranch_cases (W : World) (cfg : Config) (cn : Conn) (tr : list Event) :
  let h := callsOf tr in
  let create := createRefCall W cfg cn in
  let update := updateRefCall W cfg cn in
  let delete := deleteRefCall W cfg in
  match git_createRef W (h ++ [create]) with
  | inr _ =>
      ensureBranch W cfg cn tr =
      (Val tt, tr ++ [ERemote create; EInfo ("Created branch " ++ prBranch cfg)])
  | inl _ =>
      match git_updateRef W (h ++ [create; update]) with
      | inr _ =>
          ensureBranch W cfg cn tr =
          (Val tt, tr ++ [ERemote create; ERemote update;
                          EInfo ("Updated branch " ++ prBranch cfg)])
      | inl e2 =>
          match git_deleteRef W (h ++ [create; update; delete]) with
          | inl e3 =>
              ensureBranch W cfg cn tr =
              (Return, tr ++ [ERemote create; ERemote update] ++
                       divergedWarnings cfg cn e2 ++
                       [ERemote delete;
                        ESetFailed (recreateFailedMessage (prBranch cfg) e3)])
          | inr _ =>
              match git_createRef W (h ++ [create; update; delete; create]) with
              | inl e3 =>
                  ensureBranch W cfg cn tr =
                  (Return, tr ++ [ERemote create; ERemote update] ++
                           divergedWarnings cfg cn e2 ++
                           [ERemote delete; ERemote create;
                            ESetFailed (recreateFailedMessage (prBranch cfg) e3)])
              | inr _ =>
                  ensureBranch W cfg cn tr =
                  (Val tt, tr ++ [ERemote create; ERemote update] ++
                           divergedWarnings cfg cn e2 ++
                           [ERemote delete; ERemote create;
                            EInfo ("Recreated branch " ++ prBranch cfg ++ " from " ++
                                   defaultBranch cn)])
              end
          end
      end
  end%list.
Proof.
  intros h create update delete. subst h.
  unfold ensureBranch, tryCatch, bind, remote, emit, returnNow, divergedWarnings.
  fold create update delete. flatten_traces.
  destruct (git_createRef W _) as [e1|[]]; [|flatten_traces; reflexivity].
  flatten_traces.
  destruct (git_updateRef W _) as [e2|[]]; [|flatten_traces; reflexivity].
  flatten_traces.
  destruct (git_deleteRef W _) as [e3|[]]; [flatten_traces; reflexivity|].
  flatten_traces.
  destruct (git_createRef W _) as [e3|[]]; flatten_traces; reflexivity.
Qed.

Lemma getFileSha_run (W : World) (cfg : Config) (tr : list Event) :
  getFileSha W cfg tr =
  (Val (revisionMarkerAt W (callsOf tr ++ [getContentCall W cfg])),
   tr ++ [ERemote (getContentCall W cfg)])%list.
Proof.
  unfold getFileSha, revisionMarkerAt, tryCatch, bind, remote, ret.
  flatten_traces. now destruct (repos_getContent W _).
Qed.

(** The three ways through the commit step. *)
Lemma commitFile_cases (W : World) (cfg : Config) (res : UpdateResult)
    (fileSha : option string) (tr : list Event) :
  let h := callsOf tr in
  let first := commitCall W cfg res fileSha in
  let fetch := getContentCall W cfg in
  let retrySha := revisionMarkerAt W (h ++ [first; fetch]) in
  let second := commitCall W cfg res retrySha in
  match repos_createOrUpdateFileContents W (h ++ [first]) with
  | inr _ =>
      commitFile W cfg res fileSha tr =
      (Val tt, tr ++ [ERemote first; EInfo "Committed badge updates."])
  | inl e1 =>
      match repos_createOrUpdateFileContents W (h ++ [first; fetch; second]) with
      | inr _ =>
          commitFile W cfg res fileSha tr =
          (Val tt, tr ++ [ERemote first; retryWarning e1; ERemote fetch;
                          ERemote second; EInfo "Committed badge updates."])
      | inl e2 =>
          commitFile W cfg res fileSha tr =
          (Throw e2, tr ++ [ERemote first; retryWarning e1; ERemote fetch;
                            ERemote second])
      end
  end%list.
Proof.
  intros h first fetch retrySha second. subst h retrySha second.
  unfold commitFile, getFileSha, revisionMarkerAt, retryWarning,
    tryCatch, bind, remote, emit, ret.
  fold first fetch. flatten_traces.
  destruct (repos_createOrUpdateFileContents W _) as [e1|[]];
    [|flatten_traces; reflexivity].
  flatten_traces.
  destruct (repos_getContent W _) as [e|d]; flatten_traces;
    destruct (repos_createOrUpdateFileContents W _) as [e2|[]];
    flatten_traces; reflexivity.
Qed.

End DriverFacts.

(** ** From the steps to the run *)

Module RunFacts.

Import JS Platform Badges Readme Index Spec MonadFacts.

Lemma run_finish (W : World) : run W = finish (body W []).
Proof.
  unfold run, finish, tryCatch. destruct (body W []) as [[a| |e] tr]; try reflexivity.
  destruct e; reflexivity.
Qed.

Lemma finish_extends {A} (m : M A) (tr : list Event) (P : Event -> bool) :
  emitsOnly P m ->
  (forall msg, P (ESetFailed msg) = true) ->
  exists rest, finish (m tr) = (tr ++ rest)%list /\ forallb P rest = true.
Proof.
  intros H Hf. destruct (H tr) as (suf & E & F).
  destruct (m tr) as [[a| |e] tr1]; cbn [snd] in E; subst tr1; cbn [finish].
  - eauto.
  - eauto.
  - exists (suf ++ [ESetFailed (topLevelMessage e)])%list.
    rewrite app_assoc, forallb_app, F. cbn. now rewrite Hf.
Qed.

Lemma bind_inv {A B} (m : M A) (k : A -> M B) tr b tr' :
  bind m k tr = (Val b, tr') ->
  exists a tr1, m tr = (Val a, tr1) /\ k a tr1 = (Val b, tr').
Proof.
  unfold bind. destruct (m tr) as [[a| |e] tr1]; try discriminate. eauto.
Qed.

Lemma body_after_prepare (W : World) (p : Prepared) (tr : list Event) :
  prepare W [] = (Val p, tr) -> run W = finish (reconcile W p tr).
Proof. intros H. rewrite run_finish. unfold body. now rewrite (bind_val _ _ _ _ _ H). Qed.

Lemma anyEvent_all (l : list Event) : forallb anyEvent l = true.
Proof. induction l; cbn; auto. Qed.

(** What [prepare] leaves in the trace satisfies any [P] that allows
    reports, file accesses and look-ups. *)
Lemma prepare_events (P : Event -> bool) (W : World) o tr :
  (forall e, isLocalReport e = true -> P e = true) ->
  (forall e, isFile e = true -> P e = true) ->
  (forall c, isLookup c = true -> P (ERemote c) = true) ->
  prepare W [] = (o, tr) -> forallb P tr = true.
Proof.
  intros H1 H2 H3 E.
  destruct (emitsOnly_prepare P H1 H2 H3 W []) as (suf & Es & F).
  rewrite E in Es. cbn in Es. now subst tr.
Qed.

Lemma forEach_warnings (ws : list string) (tr : list Event) :
  forEach ws (fun w => emit (EWarning w)) tr = (Val tt, (tr ++ map EWarning ws)%list).
Proof.
  revert tr. induction ws as [|w ws IH]; intros tr; cbn [forEach map].
  - unfold ret. now rewrite app_nil_r.
  - unfold bind, emit. rewrite IH, <- app_assoc. reflexivity.
Qed.

(** [render] either finds no product and returns, or reports the
    warnings, the progress lines and the three outputs. *)
Lemma render_run (cfg : Config) (tr : list Event) :
  let ps := fst (parseProducts (productsInput cfg)) in
  let ws := snd (parseProducts (productsInput cfg)) in
  let r := mkRendered ps (parseBadgeTypes (badgeTypesInput cfg))
             (generateAllBadges ps (parseBadgeTypes (badgeTypesInput cfg))
                (style cfg) (linkTo cfg) (badgeBaseUrl cfg)) in
  render cfg tr =
  if (List.length ps =? 0)%nat then
    (Return, (tr ++ map EWarning ws ++
              [EWarning "No valid products found in input. Nothing to do."])%list)
  else (Val r, (tr ++ map EWarning ws ++ renderReport cfg r)%list).
Proof.
  unfold render. destruct (parseProducts (productsInput cfg)) as [ps ws].
  cbn [fst snd]. unfold bind at 1. rewrite forEach_warnings.
  destruct (List.length ps =? 0)%nat.
  - unfold bind, emit, returnNow. now rewrite <- app_assoc.
  - unfold bind, emit, ret, renderReport, earlyOutputs. cbn [products badgeTypes badgesMarkdown].
    repeat rewrite <- app_assoc. reflexivity.
Qed.

Lemma render_val (cfg : Config) (tr tr' : list Event) (r : Rendered) :
  render cfg tr = (Val r, tr') ->
  exists ws, tr' = (tr ++ map EWarning ws ++ renderReport cfg r)%list /\
             products r = fst (parseProducts (productsInput cfg)) /\
             badgesMarkdown r =
               generateAllBadges (products r) (badgeTypes r) (style cfg) (linkTo cfg)
                 (badgeBaseUrl cfg).
Proof.
  rewrite render_run. cbv zeta.
  destruct (List.length _ =? 0)%nat; [discriminate|].
  intros [= <- <-]. eexists. repeat split.
Qed.

(** Once [prepare] has succeeded, the three early outputs are in the
    trace. *)
Lemma prepare_outputs (W : World) (p : Prepared) (tr : list Event) :
  prepare W [] = (Val p, tr) ->
  forall e, In e (earlyOutputs (config p) (rendered p)) -> In e tr.
Proof.
  unfold prepare. intros H.
  apply bind_inv in H as (cfg & t1 & Hv & H).
  apply bind_inv in H as (r & t2 & Hr & H).
  apply bind_inv in H as (res & t3 & Hs & H).
  apply bind_inv in H as (cn & t4 & Hc & H).
  unfold ret in H. injection H as <- <-. cbn [config rendered].
  apply render_val in Hr as (ws & -> & _).
  destruct (emitsOnly_spliceDocument anyEvent (fun _ _ => eq_refl) (fun _ _ => eq_refl)
              W cfg r (t1 ++ map EWarning ws ++ renderReport cfg r)%list)
    as (s3 & E3 & _).
  rewrite Hs in E3. cbn [snd] in E3. subst t3.
  destruct (emitsOnly_connect anyEvent (fun _ _ => eq_refl) (fun _ _ => eq_refl)
              W ((t1 ++ map EWarning ws ++ renderReport cfg r) ++ s3)%list)
    as (s4 & E4 & _).
  rewrite Hc in E4. cbn [snd] in E4. subst t4.
  intros e He. unfold renderReport. rewrite !in_app_iff. tauto.
Qed.

End RunFacts.

(** ** The driver: the properties *)

Module DriverTheorems.

Import JS Platform Badges Readme Index Spec Scenario.
Import StringFacts ReadmeFacts MonadFacts UrlFacts DriverFacts RunFacts.

Lemma notForce_report e : isLocalReport e = true -> notForce e = true.
Proof. destruct e; try reflexivity. discriminate. Qed.

Lemma notForce_file e : isFile e = true -> notForce e = true.
Proof. destruct e; try reflexivity. discriminate. Qed.

Lemma notForce_lookup c : isLookup c = true -> notForce (ERemote c) = true.
Proof. destruct c; try reflexivity. discriminate. Qed.

Lemma notForce_ref c : isGentleRefOp c = true -> notForce (ERemote c) = true.
Proof. destruct c; try reflexivity. cbn. auto. Qed.

Lemma notForce_commit c : isCommitCall c = true -> notForce (ERemote c) = true.
Proof. destruct c; try reflexivity. discriminate. Qed.

Lemma notForce_pr c : isPullRequestWrite c = true -> notForce (ERemote c) = true.
Proof. destruct c; try reflexivity. discriminate. Qed.

(** After the branch step, whatever way it ended, the run only adds to
    the trace. *)
Lemma run_extends_branch_step (W : World) (p : Prepared) (tr tr1 : list Event) o :
  prepare W [] = (Val p, tr) ->
  ensureBranch W (config p) (conn p) tr = (o, tr1) ->
  exists rest, run W = (tr1 ++ rest)%list.
Proof.
  intros Hp Hb. rewrite (body_after_prepare _ _ _ Hp).
  unfold reconcile, bind at 1. rewrite Hb.
  destruct o as [[]| |e]; cbn [finish].
  - edestruct (finish_extends
                 (fileSha <- getFileSha W (config p) ;;
                  commitFile W (config p) (result p) fileSha ;;;
                  upsertPR W (config p) (rendered p) (conn p))
                 tr1 anyEvent) as (rest & E & _); [|reflexivity|eauto].
    emits; auto using emitsOnly_getFileSha, emitsOnly_commitFile, emitsOnly_upsertPR.
  - exists []. now rewrite app_nil_r.
  - eauto.
Qed.

(** No event of a run is a forced ref update, and the calls of the branch
    step follow each other as the remote's answers fail. *)
Lemma branch_step_calls :
  (forall W, forallb notForce (run W) = true) /\
  (forall W p tr e1,
     prepare W [] = (Val p, tr) ->
     let h := callsOf tr in
     let create := createRefCall W (config p) (conn p) in
     let update := updateRefCall W (config p) (conn p) in
     let delete := deleteRefCall W (config p) in
     git_createRef W (h ++ [create]) = inl e1 ->
     (exists rest, callsOf (run W) = h ++ [create; update] ++ rest) /\
     (forall e2,
        git_updateRef W (h ++ [create; update]) = inl e2 ->
        (exists rest, callsOf (run W) = h ++ [create; update; delete] ++ rest) /\
        (git_deleteRef W (h ++ [create; update; delete]) = inr tt ->
         exists rest,
           callsOf (run W) = h ++ [create; update; delete; create] ++ rest)))%list.
Proof.
  split.
  - intros W. apply run_events;
      auto using notForce_report, notForce_file, notForce_lookup, notForce_ref,
                 notForce_commit, notForce_pr.
  - intros W p tr e1 Hp h create update delete Hc.
    pose proof (ensureBranch_cases W (config p) (conn p) tr) as C.
    cbv zeta in C. fold h create update delete in C. rewrite Hc in C.
    split.
    + destruct (git_updateRef W _) as [e2|u];
        [destruct (git_deleteRef W _) as [e3|d];
         [|destruct (git_createRef W (h ++ [create; update; delete; create])%list)]|];
        destruct (run_extends_branch_step _ _ _ _ _ Hp C) as (rest & ->);
        flatten_traces; eexists; reflexivity.
    + intros e2 Hu. rewrite Hu in C. split.
      * destruct (git_deleteRef W _) as [e3|d];
          [|destruct (git_createRef W (h ++ [create; update; delete; create])%list)];
          destruct (run_extends_branch_step _ _ _ _ _ Hp C) as (rest & ->);
          flatten_traces; eexists; reflexivity.
      * intros Hd. rewrite Hd in C.
        destruct (git_createRef W (h ++ [create; update; delete; create])%list);
          destruct (run_extends_branch_step _ _ _ _ _ Hp C) as (rest & ->);
          flatten_traces; eexists; reflexivity.
Qed.

Lemma notMutation_report e : isLocalReport e = true -> notContentMutation e = true.
Proof. destruct e; try reflexivity. discriminate. Qed.

Lemma notMutation_file e : isFile e = true -> notContentMutation e = true.
Proof. destruct e; try reflexivity. discriminate. Qed.

Lemma notMutation_lookup c : isLookup c = true -> notContentMutation (ERemote c) = true.
Proof. destruct c; try reflexivity; discriminate. Qed.

(** C2. When, on the diverged path, the delete-ref call fails, or it
    succeeds and the create-ref call after it fails, the run ends right
    there with [core.setFailed]: the message names the working branch and
    asks to delete the branch by hand, nothing happens after it, and the
    whole run holds no file commit and no pull-request creation or
    update. *)
Theorem recreate_failure_aborts (W : World) (p : Prepared) (tr : list Event)
    (e1 e2 e3 : Thrown) :
  let cfg := config p in
  let h := callsOf tr in
  let create := createRefCall W cfg (conn p) in
  let update := updateRefCall W cfg (conn p) in
  let delete := deleteRefCall W cfg in
  let msg := recreateFailedMessage (prBranch cfg) e3 in
  prepare W [] = (Val p, tr) ->
  git_createRef W (h ++ [create])%list = inl e1 ->
  git_updateRef W (h ++ [create; update])%list = inl e2 ->
  (git_deleteRef W (h ++ [create; update; delete])%list = inl e3 \/
   (git_deleteRef W (h ++ [create; update; delete])%list = inr tt /\
    git_createRef W (h ++ [create; update; delete; create])%list = inl e3)) ->
  (exists attempted,
     (attempted = [delete] \/ attempted = [delete; create]) /\
     run W = (tr ++ [ERemote create; ERemote update] ++
              divergedWarnings cfg (conn p) e2 ++
              map ERemote attempted ++ [ESetFailed msg])%list) /\
  forallb notContentMutation (run W) = true /\
  msg = "Branch " ++ prBranch cfg ++ " has diverged and could not be recreated: " ++
        errText e3 ++ ". Please manually delete the branch and re-run the action.".
Proof.
  intros cfg h create update delete msg Hp Hc Hu Hd.
  pose proof (ensureBranch_cases W cfg (conn p) tr) as C.
  cbv zeta in C. fold h create update delete in C. rewrite Hc, Hu in C.
  pose proof (prepare_events notContentMutation W _ _
                notMutation_report notMutation_file notMutation_lookup Hp) as Htr.
  assert (R : exists attempted,
             (attempted = [delete] \/ attempted = [delete; create]) /\
             run W = (tr ++ [ERemote create; ERemote update] ++
                      divergedWarnings cfg (conn p) e2 ++
                      map ERemote attempted ++ [ESetFailed msg])%list).
  { rewrite (body_after_prepare _ _ _ Hp). unfold reconcile, bind at 1.
    destruct Hd as [Hd | [Hd Hc2]].
    - rewrite Hd in C. fold cfg. rewrite C. exists [delete]. auto.
    - rewrite Hd, Hc2 in C. fold cfg. rewrite C. exists [delete; create]. auto. }
  split; [exact R|]. split; [|reflexivity].
  destruct R as (attempted & Ha & ->).
  rewrite !forallb_app, Htr.
  destruct Ha as [-> | ->]; reflexivity.
Qed.

Lemma recreate_failure_aborts_witness :
  exists p tr,
    prepare recreateFailWorld [] = (Val p, tr) /\
    run recreateFailWorld =
    (tr ++ [ERemote (createRefCall recreateFailWorld (config p) (conn p));
            ERemote (updateRefCall recreateFailWorld (config p) (conn p))] ++
     divergedWarnings (config p) (conn p) (ErrorObj "Update is not a fast forward") ++
     [ERemote (deleteRefCall recreateFailWorld (config p));
      ESetFailed (recreateFailedMessage (prBranch (config p))
                    (ErrorObj "Cannot delete"))])%list.
Proof.
  destruct (prepare recreateFailWorld []) as [o tr] eqn:Hp.
  vm_compute in Hp. injection Hp as <- <-.
  match goal with
  | |- exists p tr, (Val ?p0, ?tr0) = _ /\ _ =>
      assert (Hp : prepare recreateFailWorld [] = (Val p0, tr0))
        by (vm_compute; reflexivity);
      destruct (recreate_failure_aborts recreateFailWorld p0 tr0
                  (ErrorObj "Reference already exists")
                  (ErrorObj "Update is not a fast forward")
                  (ErrorObj "Cannot delete") Hp) as [(attempted & Ha & Hr) _];
        [vm_compute; reflexivity | vm_compute; reflexivity
        | left; vm_compute; reflexivity |];
      exists p0, tr0; split; [reflexivity|];
      destruct Ha as [-> | ->]; vm_compute in Hr;
        [vm_compute; exact Hr | discriminate Hr]
  end.
Defined.

Lemma notCommit_report e : isLocalReport e = true -> notCommit e = true.
Proof. destruct e; try reflexivity. discriminate. Qed.

Lemma notCommit_file e : isFile e = true -> notCommit e = true.
Proof. destruct e; try reflexivity. discriminate. Qed.

Lemma notCommit_lookup c : isLookup c = true -> notCommit (ERemote c) = true.
Proof. destruct c; try reflexivity; discriminate. Qed.

Lemma notCommit_ref c : isGentleRefOp c = true -> notCommit (ERemote c) = true.
Proof. destruct c; try reflexivity; discriminate. Qed.

Lemma notCommit_pr c : isPullRequestWrite c = true -> notCommit (ERemote c) = true.
Proof. destruct c; try reflexivity; discriminate. Qed.

Lemma stage_events {A} (P : Event -> bool) (m : M A) tr o tr' :
  emitsOnly P m -> m tr = (o, tr') -> forallb P tr = true -> forallb P tr' = true.
Proof.
  intros H E F. destruct (H tr) as (suf & Es & Fs).
  rewrite E in Es. cbn in Es. subst tr'. now rewrite forallb_app, F, Fs.
Qed.

Lemma stage_extends {A} (m : M A) tr o tr' :
  emitsOnly anyEvent m -> m tr = (o, tr') -> exists suf, tr' = (tr ++ suf)%list.
Proof.
  intros H E. destruct (H tr) as (suf & Es & _).
  rewrite E in Es. cbn in Es. eauto.
Qed.

Lemma filter_none (l : list Event) :
  forallb notCommit l = true -> filter isCommitEvent l = [].
Proof.
  induction l as [|e l IH]; cbn; [reflexivity|].
  unfold notCommit at 1. rewrite andb_true_iff, negb_true_iff.
  intros [-> H]. auto.
Qed.

(** The run after a first commit that failed, in terms of the steps. *)
Lemma commit_retry_steps (W : World) (p : Prepared) (tr1 tr2 tr3 : list Event)
    (fileSha : option string) (e1 : Thrown) :
  let cfg := config p in
  let h := callsOf tr3 in
  let first := commitCall W cfg (result p) fileSha in
  let fetch := getContentCall W cfg in
  let retrySha := revisionMarkerAt W (h ++ [first; fetch])%list in
  let second := commitCall W cfg (result p) retrySha in
  let attempts := [ERemote first; retryWarning e1; ERemote fetch; ERemote second] in
  prepare W [] = (Val p, tr1) ->
  ensureBranch W cfg (conn p) tr1 = (Val tt, tr2) ->
  getFileSha W cfg tr2 = (Val fileSha, tr3) ->
  repos_createOrUpdateFileContents W (h ++ [first])%list = inl e1 ->
  (exists rest, run W = (tr3 ++ attempts ++ rest)%list) /\
  List.length (filter isCommitEvent (run W)) = 2 /\
  (forall e2,
     repos_createOrUpdateFileContents W (h ++ [first; fetch; second])%list = inl e2 ->
     run W = (tr3 ++ attempts ++ [ESetFailed (topLevelMessage e2)])%list) /\
  (forall e, In e (earlyOutputs cfg (rendered p)) -> In e (run W)).
Proof.
  intros cfg h first fetch retrySha second attempts Hp Hb Hs Hc.
  pose proof (commitFile_cases W cfg (result p) fileSha tr3) as C.
  cbv zeta in C. fold h first fetch retrySha second in C. rewrite Hc in C.
  assert (Hrun : run W =
            finish ((commitFile W cfg (result p) fileSha ;;;
                     upsertPR W cfg (rendered p) (conn p)) tr3)).
  { rewrite (body_after_prepare _ _ _ Hp). unfold reconcile.
    fold cfg. rewrite (bind_val _ _ _ _ _ Hb), (bind_val _ _ _ _ _ Hs). reflexivity. }
  assert (F3 : forallb notCommit tr3 = true).
  { eapply stage_events; [| exact Hs |].
    - apply emitsOnly_getFileSha. apply notCommit_lookup.
    - eapply stage_events; [| exact Hb |].
      + apply emitsOnly_ensureBranch; auto using notCommit_report, notCommit_ref.
      + eapply prepare_events; eauto using notCommit_report, notCommit_file, notCommit_lookup. }
  assert (X : exists tail, run W = (tr3 ++ attempts ++ tail)%list /\
                           forallb notCommit tail = true /\
                           forall e2, repos_createOrUpdateFileContents W
                                        (h ++ [first; fetch; second])%list = inl e2 ->
                                      tail = [ESetFailed (topLevelMessage e2)]).
  { rewrite Hrun.
    destruct (repos_createOrUpdateFileContents W (h ++ [first; fetch; second])%list)
      as [e2|u] eqn:E2.
    - rewrite (bind_throw _ _ _ _ _ C). cbn [finish].
      exists [ESetFailed (topLevelMessage e2)]. rewrite <- app_assoc.
      repeat split. intros e2' [= <-]. reflexivity.
    - rewrite (bind_val _ _ _ _ _ C).
      destruct (finish_extends (upsertPR W cfg (rendered p) (conn p))
                  (tr3 ++ [ERemote first; retryWarning e1; ERemote fetch;
                           ERemote second; EInfo "Committed badge updates."])%list
                  notCommit) as (rest & -> & Fr).
      + apply emitsOnly_upsertPR;
          auto using notCommit_report, notCommit_lookup, notCommit_pr.
      + reflexivity.
      + exists (EInfo "Committed badge updates." :: rest).
        rewrite <- !app_assoc. cbn [app]. repeat split.
        * exact Fr.
        * discriminate. }
  destruct X as (tail & Er & Ft & Hfail).
  repeat split.
  - eauto.
  - rewrite Er, !filter_app, (filter_none _ F3), (filter_none _ Ft). reflexivity.
  - intros e2 H2. now rewrite Er, (Hfail e2 H2).
  - intros e He. rewrite Er. apply in_or_app. left.
    destruct (stage_extends _ _ _ _
                (emitsOnly_getFileSha anyEvent (fun _ _ => eq_refl) W cfg) Hs)
      as (s3 & ->).
    destruct (stage_extends _ _ _ _
                (emitsOnly_ensureBranch anyEvent (fun _ _ => eq_refl)
                   (fun _ _ => eq_refl) W cfg (conn p)) Hb)
      as (s2 & ->).
    rewrite !in_app_iff. left. left. exact (prepare_outputs _ _ _ Hp e He).
Qed.

(** A document whose region between the markers is the markup between
    two newlines splices to itself. *)
Lemma splice_up_to_date (doc markup : string) (s e : nat) :
  indexOf doc START_MARKER = Some s ->
  indexOf doc END_MARKER = Some e ->
  substring2 doc (s + String.length START_MARKER) e = nl ++ markup ++ nl ->
  updateReadmeContent doc markup = mkUpdateResult false doc true.
Proof.
  intros Hs He Hmid.
  assert (L : String.length (substring2 doc (s + String.length START_MARKER) e) >= 2).
  { rewrite Hmid, !length_append. cbn. lia. }
  unfold substring2 in L. rewrite length_substring in L.
  assert (Hle : s + String.length START_MARKER <= e) by lia.
  rewrite (splice_found doc markup s e Hs He) by lia. cbv zeta.
  assert (E : substring2 doc 0 (s + String.length START_MARKER) ++ nl ++ markup ++ nl ++
              substringFrom doc e = doc).
  { rewrite <- (append_assoc markup), <- (append_assoc nl), <- Hmid.
    rewrite <- append_assoc. unfold substring2. rewrite Nat.sub_0_r.
    pose proof (substring_split doc 0 (s + String.length START_MARKER)
                  (e - (s + String.length START_MARKER))) as H.
    rewrite Nat.add_0_l in H. rewrite <- H.
    replace (s + String.length START_MARKER + (e - (s + String.length START_MARKER)))
      with e by lia.
    apply cut_and_glue. pose proof (end_marker_fits _ _ He). lia. }
  rewrite E, String.eqb_refl. reflexivity.
Qed.

Lemma local_reports_only (l : list Event) :
  forallb isLocalReport l = true ->
  callsOf l = [] /\ forallb (fun e => negb (isFile e)) l = true.
Proof.
  induction l as [|e l IH]; [cbn; auto|].
  cbn [forallb]. rewrite andb_true_iff. intros [He Hl].
  destruct (IH Hl) as [Hc Hf]. unfold callsOf in *. cbn [flat_map forallb].
  rewrite Hc, Hf. destruct e; try discriminate; auto.
Qed.

(** C4, amended. When the document already holds the rendered markup
    between the markers (a newline, the markup, a newline), the splice
    finds the markers, reports no change and returns the document as it
    is; the run then ends with the message that the badges are up to date:
    the file is not written and no remote call is made, so no commit and
    no pull-request call. *)
Theorem up_to_date_run_stops (W : World) (cfg : Config) (r : Rendered)
    (tr0 tr : list Event) (doc : string) (s e : nat) :
  validateInputs W [] = (Val cfg, tr0) ->
  render cfg tr0 = (Val r, tr) ->
  readFileSync W (fullPath cfg) = inr doc ->
  indexOf doc START_MARKER = Some s ->
  indexOf doc END_MARKER = Some e ->
  substring2 doc (s + String.length START_MARKER) e = nl ++ badgesMarkdown r ++ nl ->
  updateReadmeContent doc (badgesMarkdown r) = mkUpdateResult false doc true /\
  run W = (tr ++ [EReadFile (fullPath cfg); EInfo upToDateInfo])%list /\
  callsOf (run W) = [] /\
  existsb isWrite (run W) = false.
Proof.
  intros Hv Hr Hread Hs He Hmid.
  pose proof (splice_up_to_date doc (badgesMarkdown r) s e Hs He Hmid) as Hsplice.
  assert (Hrun : run W = (tr ++ [EReadFile (fullPath cfg); EInfo upToDateInfo])%list).
  { rewrite run_finish. unfold body, prepare.
    assert (S : spliceDocument W cfg r tr =
                (Return, (tr ++ [EReadFile (fullPath cfg); EInfo upToDateInfo])%list)).
    { unfold spliceDocument. unfold bind at 1. unfold emit at 1.
      rewrite Hread, Hsplice. cbn [markersFound updated negb].
      unfold bind, emit, returnNow. now rewrite <- app_assoc. }
    erewrite bind_return; [reflexivity|].
    rewrite (bind_val _ _ _ _ _ Hv), (bind_val _ _ _ _ _ Hr).
    now apply bind_return. }
  assert (F : forallb isLocalReport tr = true).
  { eapply stage_events; [apply emitsOnly_render; auto | exact Hr |].
    eapply stage_events; [apply emitsOnly_validateInputs; auto | exact Hv | reflexivity]. }
  destruct (local_reports_only _ F) as [Hc Hf].
  repeat split; try assumption.
  - rewrite Hrun, callsOf_app, Hc. reflexivity.
  - rewrite Hrun, existsb_app. cbn. rewrite orb_false_r.
    clear -Hf. induction tr as [|x l IH]; cbn in *; [reflexivity|].
    apply andb_true_iff in Hf as [Hx Hl]. rewrite (IH Hl).
    destruct x; cbn in *; try reflexivity; discriminate.
Qed.

Lemma up_to_date_run_stops_witness :
  exists cfg r tr,
    validateInputs upToDateWorld [] = (Val cfg, []) /\
    render cfg [] = (Val r, tr) /\
    run upToDateWorld = (tr ++ [EReadFile (fullPath cfg); EInfo upToDateInfo])%list /\
    callsOf (run upToDateWorld) = [].
Proof.
  do 3 eexists.
  split; [vm_compute; reflexivity|].
  split; [vm_compute; reflexivity|].
  refine ((fun H => conj (proj1 (proj2 H)) (proj1 (proj2 (proj2 H))))
            (up_to_date_run_stops upToDateWorld _ _ [] _ README_UP_TO_DATE 10 163
               _ _ _ _ _ _));
    vm_compute; reflexivity.
Defined.

(** C4, as stated, fails: for the up-to-date document of the test
    fixtures the splice reports no change, and the run invokes neither the
    commit step nor the pull-request update. *)
Lemma up_to_date_skips_commit :
  updated (updateReadmeContent README_UP_TO_DATE
             (generateAllBadges [mkProduct "python" (Some "3.12")] [health] "flat"
                badge_page None)) = false /\
  ~ commitInvoked upToDateWorld /\
  ~ prUpdateInvoked upToDateWorld.
Proof.
  split; [vm_compute; reflexivity|]. unfold commitInvoked, prUpdateInvoked.
  assert (E : callsOf (run upToDateWorld) = []) by (vm_compute; reflexivity).
  assert (N : forall c, ~ In (ERemote c) (run upToDateWorld)).
  { intros c Hin.
    assert (In c (callsOf (run upToDateWorld))).
    { unfold callsOf. apply in_flat_map. exists (ERemote c). cbn. auto. }
    rewrite E in H. destruct H. }
  split.
  - intros (c & Hin & _). exact (N c Hin).
  - intros (o & r & n & t & b & Hin). exact (N _ Hin).
Qed.

(** What the path check does catch: the run reports one failure and does
    nothing else. *)
Lemma path_off_prefix_aborts (W : World) :
  startsWith
    (path_resolve (cwd W) (orElse (getInput W "readme-path") "README.md"))
    (path_resolve (cwd W)
       match env_GITHUB_WORKSPACE W with
       | Some w => orElse w (cwd W)
       | None => cwd W
       end) = false ->
  exists msg, run W = [ESetFailed msg].
Proof.
  intros Hp. apply run_stops_in_validateInputs. intros cfg tr E.
  destruct (validateInputs_rejects_path W [] Hp) as [(msg & E') | (e & E')];
    rewrite E' in E; discriminate.
Qed.

(** C6 fails on the code. With the workspace at [/workspace], the
    readme-path [../workspace-evil/README.md] resolves to
    [/workspace-evil/README.md], which is not inside the workspace
    directory; the run reports no failure, reads and writes that file, and
    goes on to commit it. *)
Theorem readme_path_sibling_escape :
  let full := path_resolve (cwd siblingWorld) "../workspace-evil/README.md" in
  getInput siblingWorld "readme-path" = "../workspace-evil/README.md" /\
  path_resolve (cwd siblingWorld) "/workspace" = "/workspace" /\
  full = "/workspace-evil/README.md" /\
  insideDirectory "/workspace" full = false /\
  existsb isFailure (run siblingWorld) = false /\
  In (EReadFile full) (run siblingWorld) /\
  existsb isWrite (run siblingWorld) = true /\
  existsb isCommitCall (callsOf (run siblingWorld)) = true.
Proof.
  cbv zeta. repeat split; try (vm_compute; reflexivity).
  vm_compute. tauto.
Qed.

(** C5. [isValidBadgeServiceUrl] accepts a URL exactly when it parses,
    its scheme is https, its host is releaserun.com or ends with
    [.releaserun.com], and the host is not a bare IPv4 literal, does not
    start with a bracket, and is neither [::1] nor [localhost].  So the
    hosts releaserun.com and sub.releaserun.com are accepted under https,
    the hosts releaserun.com.evil.com, 192.168.1.1 and localhost are
    rejected, and so is every other scheme and every string that does not
    parse.  A run given a URL that is rejected reports one failure and
    does nothing else. *)
Theorem badge_service_url_validation :
  (forall newURL url,
     isValidBadgeServiceUrl newURL url = true <-> acceptableUrl newURL url) /\
  (forall newURL url host,
     newURL url = Some (mkURL "https:" host) ->
     (host = "releaserun.com" \/ host = "sub.releaserun.com" ->
      isValidBadgeServiceUrl newURL url = true) /\
     (host = "releaserun.com.evil.com" \/ host = "192.168.1.1" \/ host = "localhost" ->
      isValidBadgeServiceUrl newURL url = false)) /\
  (forall newURL url parsed,
     newURL url = Some parsed -> protocol parsed <> "https:" ->
     isValidBadgeServiceUrl newURL url = false) /\
  (forall newURL url, newURL url = None -> isValidBadgeServiceUrl newURL url = false) /\
  (forall W,
     let url := getInput W "badge-service-url" in
     url <> "" ->
     isValidBadgeServiceUrl (newURL W) url = false ->
     exists msg, run W = [ESetFailed msg]).
Proof.
  split; [exact isValidBadgeServiceUrl_spec|].
  split.
  { intros newURL url host H. unfold isValidBadgeServiceUrl. rewrite H. split.
    - intros [-> | ->]; reflexivity.
    - intros [-> | [-> | ->]]; reflexivity. }
  split.
  { intros newURL url parsed H Hp. unfold isValidBadgeServiceUrl, checkParsed.
    rewrite H. apply String.eqb_neq in Hp. now rewrite Hp. }
  split.
  { intros newURL url H. unfold isValidBadgeServiceUrl. now rewrite H. }
  intros W url Hne Hv. apply run_stops_in_validateInputs.
  intros cfg tr E.
  assert (Ht : truthy url = true).
  { unfold truthy. apply negb_true_iff. now apply String.eqb_neq. }
  destruct (validateInputs_rejects_url W [] Ht Hv) as [(msg & E') | (e & E')];
    rewrite E' in E; discriminate.
Qed.

Lemma badge_service_url_validation_witness :
  isValidBadgeServiceUrl plainURL "https://releaserun.com" = true /\
  isValidBadgeServiceUrl plainURL "https://sub.releaserun.com" = true /\
  isValidBadgeServiceUrl plainURL "https://releaserun.com.evil.com" = false /\
  isValidBadgeServiceUrl plainURL "https://192.168.1.1" = false /\
  isValidBadgeServiceUrl plainURL "https://localhost" = false /\
  isValidBadgeServiceUrl plainURL "http://img.releaserun.com" = false /\
  exists msg, run spoofedUrlWorld = [ESetFailed msg].
Proof.
  destruct badge_service_url_validation as (_ & Hhost & Hproto & _ & Hrun).
  split; [apply (proj1 (Hhost plainURL "https://releaserun.com"
                          "releaserun.com" eq_refl)); now left|].
  split; [apply (proj1 (Hhost plainURL "https://sub.releaserun.com"
                          "sub.releaserun.com" eq_refl)); now right|].
  split; [apply (proj2 (Hhost plainURL "https://releaserun.com.evil.com"
                          "releaserun.com.evil.com" eq_refl)); now left|].
  split; [apply (proj2 (Hhost plainURL "https://192.168.1.1"
                          "192.168.1.1" eq_refl)); right; now left|].
  split; [apply (proj2 (Hhost plainURL "https://localhost"
                          "localhost" eq_refl)); right; now right|].
  split; [apply (Hproto plainURL "http://img.releaserun.com"
                   (mkURL "http:" "img.releaserun.com") eq_refl); discriminate|].
  apply (Hrun spoofedUrlWorld); [discriminate | vm_compute; reflexivity].
Defined.

End DriverTheorems.

(** ** Badge types: spelling and round trip *)

Module BadgeTypeProps.

Import Badges Index Spec Extra StringFacts BadgesFacts.

Ltac each_ascii c :=
  destruct c as [[] [] [] [] [] [] [] []]; vm_compute; intuition congruence.

Lemma lowerChar_comma c : Ascii.eqb (lowerChar c) "," = Ascii.eqb c ",".
Proof. each_ascii c. Qed.

Lemma lowerChar_space c : isWhiteSpace (lowerChar c) = isWhiteSpace c.
Proof. each_ascii c. Qed.

Lemma lowerChar_twice c : lowerChar (lowerChar c) = lowerChar c.
Proof. each_ascii c. Qed.

Lemma mapChars_empty (f : ascii -> ascii) (s : string) :
  (mapChars f s =? "") = (s =? "").
Proof. destruct s; reflexivity. Qed.

Lemma split_mapChars (f : ascii -> ascii) (sep : ascii) (s : string) :
  (forall c, Ascii.eqb (f c) sep = Ascii.eqb c sep) ->
  split sep (mapChars f s) = map (mapChars f) (split sep s).
Proof.
  intros H. induction s as [|c s IH]; cbn [mapChars split map]; [reflexivity|].
  rewrite H, IH. destruct (Ascii.eqb c sep); [reflexivity|].
  destruct (split sep s); reflexivity.
Qed.

Lemma trimStart_mapChars (f : ascii -> ascii) (s : string) :
  (forall c, isWhiteSpace (f c) = isWhiteSpace c) ->
  trimStart (mapChars f s) = mapChars f (trimStart s).
Proof.
  intros H. induction s as [|c s IH]; cbn [mapChars trimStart]; [reflexivity|].
  rewrite H. destruct (isWhiteSpace c); [exact IH | reflexivity].
Qed.

Lemma trimEnd_mapChars (f : ascii -> ascii) (s : string) :
  (forall c, isWhiteSpace (f c) = isWhiteSpace c) ->
  trimEnd (mapChars f s) = mapChars f (trimEnd s).
Proof.
  intros H. induction s as [|c s IH]; cbn [mapChars trimEnd]; [reflexivity|].
  rewrite IH, mapChars_empty, H.
  destruct ((trimEnd s =? "") && isWhiteSpace c); reflexivity.
Qed.

Lemma trim_mapChars (f : ascii -> ascii) (s : string) :
  (forall c, isWhiteSpace (f c) = isWhiteSpace c) ->
  trim (mapChars f s) = mapChars f (trim s).
Proof.
  intros H. unfold trim. now rewrite trimStart_mapChars, trimEnd_mapChars.
Qed.

Lemma toLowerCase_twice (s : string) : toLowerCase (toLowerCase s) = toLowerCase s.
Proof.
  unfold toLowerCase. induction s as [|c s IH]; cbn [mapChars]; [reflexivity|].
  now rewrite lowerChar_twice, IH.
Qed.

(** The tokens [parseBadgeTypes] looks at. *)
Lemma tokens_of_lowered (input : string) :
  map (fun t => toLowerCase (trim t)) (split "," (toLowerCase input)) =
  map (fun t => toLowerCase (trim t)) (split "," input).
Proof.
  unfold toLowerCase at 2. rewrite (split_mapChars _ _ _ lowerChar_comma), map_map.
  apply map_ext. intros t. fold (toLowerCase t).
  unfold toLowerCase at 2. rewrite (trim_mapChars _ _ lowerChar_space).
  fold (toLowerCase (trim t)). apply toLowerCase_twice.
Qed.

(** The category list is read without regard to case: an input and its
    lower-case form give the same categories, so two inputs that differ
    in case only do too; and the result is never empty. *)
Theorem parseBadgeTypes_case_insensitive (a b : string) :
  toLowerCase a = toLowerCase b ->
  parseBadgeTypes a = parseBadgeTypes b /\ parseBadgeTypes a <> [].
Proof.
  assert (L : forall x, parseBadgeTypes (toLowerCase x) = parseBadgeTypes x).
  { intros x. unfold parseBadgeTypes. now rewrite tokens_of_lowered. }
  intros H. split.
  - now rewrite <- (L a), <- (L b), H.
  - unfold parseBadgeTypes.
    destruct (flat_map _ _) as [|t ts]; cbn; discriminate.
Qed.

Lemma parseBadgeTypes_case_insensitive_witness :
  toLowerCase "Health, EOL,CVE" = toLowerCase "health, eol,cve" /\
  parseBadgeTypes "Health, EOL,CVE" = [health; eol; cve].
Proof.
  split; [reflexivity|].
  rewrite (proj1 (parseBadgeTypes_case_insensitive "Health, EOL,CVE"
                     "health, eol,cve" eq_refl)).
  reflexivity.
Defined.

(** *** Printing and reading back a category list *)

Lemma name_no_comma (t : BadgeType) :
  allChars (fun c => negb (Ascii.eqb c ",")) (badgeTypeName t) = true.
Proof. destruct t; reflexivity. Qed.

Lemma name_token (t : BadgeType) (pre : string) :
  pre = "" \/ pre = " " ->
  toLowerCase (trim (pre ++ badgeTypeName t)) = badgeTypeName t.
Proof. intros [-> | ->]; destruct t; reflexivity. Qed.

Lemma tokens_of_list (ts : list BadgeType) :
  ts <> [] ->
  forall pre, pre = "" \/ pre = " " ->
  map (fun t => toLowerCase (trim t)) (split "," (pre ++ badgeTypeList ts)) =
  map badgeTypeName ts.
Proof.
  unfold badgeTypeList.
  induction ts as [|t ts IH]; [congruence|]. intros _ pre Hpre.
  destruct ts as [|t2 ts].
  - cbn [map join]. rewrite split_no_sep.
    + cbn [map]. now rewrite name_token.
    + rewrite allChars_app, name_no_comma.
      destruct Hpre as [-> | ->]; reflexivity.
  - change (join ", " (map badgeTypeName (t :: t2 :: ts)))
      with (badgeTypeName t ++ String "," (" " ++ join ", " (map badgeTypeName (t2 :: ts)))).
    rewrite <- append_assoc, split_at_sep.
    + cbn [map]. rewrite name_token by assumption. f_equal.
      apply (IH ltac:(discriminate) " "). now right.
    + rewrite allChars_app, name_no_comma.
      destruct Hpre as [-> | ->]; reflexivity.
Qed.

Lemma valid_names (ts : list BadgeType) :
  flat_map (fun t => if validateBadgeType t
                     then match asBadgeType t with Some b => [b] | None => [] end
                     else [])
           (filter nonEmpty (map badgeTypeName ts)) = ts.
Proof.
  induction ts as [|t ts IH]; [reflexivity|].
  cbn [map filter]. replace (nonEmpty (badgeTypeName t)) with true by now destruct t.
  cbn [flat_map]. rewrite IH. now destruct t.
Qed.

(** A non-empty list of categories, printed the way the driver prints it
    (names joined by a comma and a space), reads back as the same list:
    order and repetitions are kept. *)
Theorem parseBadgeTypes_of_printed (ts : list BadgeType) :
  ts <> [] -> parseBadgeTypes (badgeTypeList ts) = ts.
Proof.
  intros Hne. unfold parseBadgeTypes.
  pose proof (tokens_of_list ts Hne "" (or_introl eq_refl)) as T.
  cbn [append] in T. rewrite T, valid_names.
  destruct ts; [congruence | reflexivity].
Qed.

Lemma parseBadgeTypes_of_printed_witness :
  parseBadgeTypes (badgeTypeList [cve; health; cve]) = [cve; health; cve].
Proof. apply parseBadgeTypes_of_printed. discriminate. Defined.

End BadgeTypeProps.

(** ** Product lines: what the parser keeps *)

Module ProductProps.

Import Badges Index Spec Extra StringFacts BadgesFacts ParseFacts.

Ltac every_ascii c :=
  destruct c as [[] [] [] [] [] [] [] []]; vm_compute; intuition congruence.

Lemma versionTail_unreserved c : versionTail c = true -> isUriUnreserved c = true.
Proof. every_ascii c. Qed.

Lemma versionTail_no_slash c : versionTail c = true -> isSlash c = false.
Proof. every_ascii c. Qed.

Lemma productHead_not_dot c : productHead c = true -> Ascii.eqb c "." = false.
Proof. every_ascii c. Qed.

Lemma encode_unreserved (s : string) :
  allChars isUriUnreserved s = true -> encodeURIComponent s = s.
Proof.
  induction s as [|c s IH]; cbn [allChars encodeURIComponent]; [reflexivity|].
  rewrite andb_true_iff. intros [Hc Hs]. now rewrite Hc, (IH Hs).
Qed.

Lemma no_slash_chars (s : string) :
  allChars versionTail s = true -> anyChar isSlash s = false.
Proof.
  induction s as [|c s IH]; cbn [allChars anyChar]; [reflexivity|].
  rewrite andb_true_iff. intros [Hc Hs].
  now rewrite (versionTail_no_slash _ Hc), (IH Hs).
Qed.

(** Valid names and versions go into a URL as they are: percent-encoding
    leaves them unchanged and they hold no slash; a valid name is neither
    [.] nor [..], as it starts with a letter or a digit. *)
Theorem valid_names_are_url_safe (name ver : string) :
  validateProduct name = true ->
  validateVersion ver = true ->
  encodeURIComponent name = name /\ encodeURIComponent ver = ver /\
  anyChar isSlash name = false /\ anyChar isSlash ver = false /\
  startsWith name "." = false.
Proof.
  intros Hn Hv.
  pose proof (validateProduct_chars _ Hn) as [_ Cn].
  pose proof (validateVersion_chars _ Hv) as [_ Cv].
  repeat split.
  - apply encode_unreserved. revert Cn. apply allChars_impl, versionTail_unreserved.
  - apply encode_unreserved. revert Cv. apply allChars_impl, versionTail_unreserved.
  - now apply no_slash_chars.
  - now apply no_slash_chars.
  - unfold validateProduct, PRODUCT_PATTERN, headThenTail in Hn.
    destruct name as [|c t]; [discriminate|].
    apply andb_true_iff in Hn as [Hc _]. apply productHead_not_dot in Hc.
    unfold startsWith. cbn [prefix].
    destruct (ascii_dec "." c) as [E|_]; [|reflexivity].
    subst c. rewrite Ascii.eqb_refl in Hc. discriminate.
Qed.

Lemma valid_names_are_url_safe_witness :
  encodeURIComponent "node.js" = "node.js" /\
  encodeURIComponent "3.12-rc1" = "3.12-rc1" /\
  anyChar isSlash "node.js" = false /\ anyChar isSlash "3.12-rc1" = false /\
  startsWith "node.js" "." = false.
Proof.
  apply (valid_names_are_url_safe "node.js" "3.12-rc1"); reflexivity.
Defined.

(** *** No line is lost *)

Lemma line_counts (ls : list string) :
  List.length (flat_map lineProducts ls) + List.length (flat_map lineWarnings ls) =
  List.length ls.
Proof.
  induction ls as [|l ls IH]; cbn [flat_map List.length]; [reflexivity|].
  rewrite !length_app.
  destruct (line_outcome l) as [(p & -> & -> & _) | (w & -> & -> & _)];
    cbn [List.length]; lia.
Qed.

Lemma line_versions (ls : list string) :
  forallb (fun p => negb (match version p with Some "" => true | _ => false end))
          (flat_map lineProducts ls) = true.
Proof.
  induction ls as [|l ls IH]; cbn [flat_map]; [reflexivity|].
  rewrite forallb_app, IH, andb_true_r.
  unfold lineProducts, parseLine.
  destruct (indexOf l ":") as [i|];
    destruct (negb (validateProduct _)); cbn [fst forallb]; try reflexivity.
  destruct (truthy (substringFrom l (i + 1))) eqn:T; cbn [andb].
  - destruct (negb (validateVersion _)); cbn [fst forallb version]; [reflexivity|].
    unfold truthy in T. destruct (substringFrom l (i + 1)); [discriminate | reflexivity].
  - reflexivity.
Qed.

(** Every non-blank line among the first 50 ends up as a product or as a
    warning, never as both and never as neither; the products are valid,
    and none carries an empty version. *)
Theorem parseProducts_accounts_for_lines (input : string) :
  let lines := productLines input in
  let overflow := if (MAX_PRODUCTS <? List.length lines)%nat then 1 else 0 in
  List.length (fst (parseProducts input)) +
  List.length (snd (parseProducts input)) =
    Nat.min MAX_PRODUCTS (List.length lines) + overflow /\
  forallb validProduct (fst (parseProducts input)) = true /\
  forallb (fun p => negb (match version p with Some "" => true | _ => false end))
          (fst (parseProducts input)) = true.
Proof.
  intros lines overflow. rewrite parseProducts_by_line. fold lines.
  cbn [fst snd]. repeat split.
  - rewrite length_app.
    pose proof (line_counts (firstn MAX_PRODUCTS lines)) as C.
    rewrite length_firstn in C. subst overflow.
    destruct (MAX_PRODUCTS <? List.length lines)%nat; cbn [List.length]; lia.
  - apply line_products_valid.
  - apply line_versions.
Qed.

(** *** Reading back what was entered *)

Lemma entry_chars (p : Product) :
  validProduct p = true ->
  productEntry p <> "" /\ allChars lineChar (productEntry p) = true.
Proof.
  unfold validProduct, productEntry. rewrite andb_true_iff. intros [Hn Hv].
  pose proof (validateProduct_chars _ Hn) as [Hne Cn]. split.
  - destruct (product p); [congruence | discriminate].
  - rewrite allChars_app, (allChars_impl _ _ _ versionTail_lineChar Cn).
    destruct (version p) as [v|]; [|reflexivity].
    apply validateVersion_chars in Hv as [_ Cv]. cbn [append allChars].
    now rewrite (allChars_impl _ _ _ versionTail_lineChar Cv).
Qed.

Lemma entry_parses (p : Product) :
  validProduct p = true ->
  lineProducts (productEntry p) = [p] /\ lineWarnings (productEntry p) = [].
Proof.
  intros H. destruct p as [name [v|]].
  - unfold validProduct in H. cbn [product version] in H.
    exact (pairLine_parses (name, v) H).
  - unfold validProduct in H. cbn [product version] in H.
    rewrite andb_true_r in H.
    pose proof (validateProduct_chars _ H) as [_ Cn].
    unfold lineProducts, lineWarnings, parseLine, productEntry.
    cbn [product version]. rewrite append_nil_r, (index_colon_absent _ Cn), H.
    split; reflexivity.
Qed.

Lemma lines_kept (ls : list string) :
  Forall (fun l => l <> "" /\ allChars lineChar l = true) ls ->
  productLines (join nl ls) = ls.
Proof.
  intros F. unfold productLines. destruct ls as [|l0 ls0]; [reflexivity|].
  unfold nl. rewrite split_join.
  - induction F as [|l ls [Hne Hl] _ IH]; [reflexivity|].
    cbn [map filter]. rewrite (lineChars_trim _ Hl), IH.
    destruct l; [congruence | reflexivity].
  - discriminate.
  - revert F. apply Forall_impl. intros l [_ Hl]. now apply lineChars_no_LF.
Qed.

(** Up to 50 valid products, entered one per line as [name] or
    [name:version], are read back as the same products in the same order,
    with no warning. *)
Theorem parseProducts_of_entries (ps : list Product) :
  forallb validProduct ps = true ->
  List.length ps <= MAX_PRODUCTS ->
  parseProducts (join nl (map productEntry ps)) = (ps, []).
Proof.
  intros Hv Hlen. rewrite forallb_forall in Hv.
  rewrite parseProducts_by_line, lines_kept.
  - rewrite length_map, firstn_all2 by now rewrite length_map.
    replace (MAX_PRODUCTS <? List.length ps)%nat with false
      by (symmetry; apply Nat.ltb_ge; lia).
    rewrite !flat_map_concat_map, !map_map, <- !flat_map_concat_map.
    rewrite (flat_map_singletons _ (fun p => p)), flat_map_empties.
    + now rewrite map_id.
    + apply Forall_forall. intros p Hp. now apply entry_parses, Hv.
    + apply Forall_forall. intros p Hp. now apply entry_parses, Hv.
  - apply Forall_map, Forall_forall. intros p Hp. now apply entry_chars, Hv.
Qed.

Lemma parseProducts_of_entries_witness :
  parseProducts
    (join nl (map productEntry
                [mkProduct "python" (Some "3.12"); mkProduct "node" None;
                 mkProduct "python" (Some "latest")])) =
  ([mkProduct "python" (Some "3.12"); mkProduct "node" None;
    mkProduct "python" (Some "latest")], []).
Proof.
  apply parseProducts_of_entries; [reflexivity | vm_compute; lia].
Defined.

(** *** What a colon does *)

Lemma colon_not_version (v : string) :
  anyChar (fun c => Ascii.eqb c ":") v = true -> validateVersion v = false.
Proof.
  intros H. destruct (validateVersion v) eqn:E; [|reflexivity].
  apply validateVersion_chars in E as [_ C]. exfalso.
  induction v as [|c v IH]; cbn [anyChar allChars] in *; [discriminate|].
  apply andb_true_iff in C as [Cc Cv]. rewrite (versionTail_no_colon _ Cc) in H.
  auto.
Qed.

(** Only the first colon of a line separates name and version: with a
    valid name in front, whatever follows the first colon is the version,
    and a version that holds another colon is refused with the warning
    that names it; nothing is added to the products. *)
Theorem second_colon_is_refused (ps : list Product) (ws : list string)
    (name v : string) :
  validateProduct name = true ->
  anyChar (fun c => Ascii.eqb c ":") v = true ->
  parseLine (ps, ws) (name ++ ":" ++ v) =
  (ps, (ws ++ [invalidVersionWarning v name])%list).
Proof.
  intros Hn Hc. pose proof (validateProduct_chars _ Hn) as [_ Cn].
  unfold parseLine. change (name ++ ":" ++ v) with (name ++ String ":" v).
  rewrite (index_colon_first _ _ Cn).
  unfold substring2. rewrite Nat.sub_0_r, substring_append_l, Hn.
  change (String ":" v) with (":" ++ v). rewrite <- append_assoc.
  replace (String.length name + 1) with (String.length (name ++ ":"))
    by (rewrite length_append; reflexivity).
  rewrite substring_past_prefix, (colon_not_version _ Hc).
  assert (T : truthy v = true) by (destruct v; [discriminate | reflexivity]).
  rewrite T. reflexivity.
Qed.

Lemma second_colon_is_refused_witness :
  parseLine ([], []) "python:3.12:extra" =
  ([], [invalidVersionWarning "3.12:extra" "python"]).
Proof.
  apply (second_colon_is_refused [] [] "python" "3.12:extra"); reflexivity.
Defined.

(** *** Blank input *)

Lemma split_all (p : ascii -> bool) (sep : ascii) (s : string) :
  allChars p s = true -> Forall (fun l => allChars p l = true) (split sep s).
Proof.
  induction s as [|c s IH]; cbn [allChars split].
  - intros _. repeat constructor.
  - rewrite andb_true_iff. intros [Hc Hs]. specialize (IH Hs).
    destruct (Ascii.eqb c sep).
    + constructor; [reflexivity | assumption].
    + destruct (split sep s) as [|h r].
      * repeat constructor. cbn. now rewrite Hc.
      * inversion IH; subst. constructor; [|assumption].
        cbn. now rewrite Hc.
Qed.

Lemma trim_blank (s : string) : allChars isWhiteSpace s = true -> trim s = "".
Proof.
  intros H. unfold trim.
  assert (E : trimStart s = "").
  { induction s as [|c s IH]; cbn [allChars trimStart] in *; [reflexivity|].
    apply andb_true_iff in H as [Hc Hs]. rewrite Hc. auto. }
  now rewrite E.
Qed.

(** Input made of white space and line breaks only holds no product
    line: the parser returns no product and no warning. *)
Theorem parseProducts_blank (input : string) :
  allChars isWhiteSpace input = true -> parseProducts input = ([], []).
Proof.
  intros H. rewrite parseProducts_by_line.
  assert (E : productLines input = []).
  { unfold productLines. pose proof (split_all _ LF _ H) as F.
    induction F as [|l ls Hl _ IH]; [reflexivity|].
    cbn [map filter]. now rewrite (trim_blank _ Hl). }
  rewrite E. reflexivity.
Qed.

Lemma parseProducts_blank_witness :
  parseProducts (" " ++ nl ++ nl ++ "   " ++ nl) = ([], []).
Proof. apply parseProducts_blank. reflexivity. Defined.

End ProductProps.

(** ** Splicing twice *)

Module SpliceProps.

Import Readme Spec Extra StringFacts ReadmeFacts BadgesFacts.

Lemma includes_found (s pat : string) :
  includes s pat = true <-> exists i, indexOf s pat = Some i.
Proof.
  unfold includes. destruct (indexOf s pat) as [i|].
  - split; eauto.
  - split; [discriminate | intros [i H]; discriminate].
Qed.

Lemma markersFound_inv (readme badges : string) :
  markersFound (updateReadmeContent readme badges) = true ->
  exists s e, indexOf readme START_MARKER = Some s /\
              indexOf readme END_MARKER = Some e /\ s < e.
Proof.
  unfold updateReadmeContent.
  destruct (indexOf readme START_MARKER) as [s|] eqn:Hs; [|discriminate].
  destruct (indexOf readme END_MARKER) as [e|] eqn:He; [|discriminate].
  destruct (e <? s)%nat eqn:L; [discriminate|]. intros _.
  apply Nat.ltb_ge in L. exists s, e. repeat split.
  assert (e <> s) by (intros ->; exact (markers_differ _ _ Hs He)). lia.
Qed.

(** [hasMarkers] says less than the splice needs: the splice finds the
    markers exactly when both are there and the first start marker stands
    before the first end marker.  So a document without both markers is
    returned unchanged, every document the splice accepts has both, and a
    document with both in the wrong order is one [hasMarkers] accepts and
    the splice leaves alone. *)
Theorem hasMarkers_and_splice (readme badges : string) :
  let res := updateReadmeContent readme badges in
  (hasMarkers readme = false -> res = mkUpdateResult false readme false) /\
  (markersFound res = true -> hasMarkers readme = true) /\
  (markersFound res = true <->
   exists s e, indexOf readme START_MARKER = Some s /\
               indexOf readme END_MARKER = Some e /\ s < e) /\
  (forall s e, indexOf readme START_MARKER = Some s ->
               indexOf readme END_MARKER = Some e -> e < s ->
               hasMarkers readme = true /\ res = mkUpdateResult false readme false).
Proof.
  intros res. subst res. split; [|split; [|split]].
  - unfold hasMarkers, includes. intros H. apply splice_not_found.
    destruct (indexOf readme START_MARKER); [|now left].
    destruct (indexOf readme END_MARKER); [discriminate | right; now left].
  - intros H. apply markersFound_inv in H as (s & e & Hs & He & _).
    unfold hasMarkers, includes. now rewrite Hs, He.
  - split; [apply markersFound_inv|].
    intros (s & e & Hs & He & Hlt).
    rewrite (splice_found _ badges _ _ Hs He) by lia. reflexivity.
  - intros s e Hs He Hlt. split.
    + unfold hasMarkers, includes. now rewrite Hs, He.
    + apply splice_not_found. right. right. exists s, e. repeat split; auto. lia.
Qed.

(** *** Where a pattern stands in a string put together from pieces *)

Lemma substring_app_left (a b : string) (p n : nat) :
  p + n <= String.length a -> substring p n (a ++ b) = substring p n a.
Proof.
  revert p n. induction a as [|c a IH]; intros p n H; cbn [String.length] in H.
  - assert (p = 0) by lia. assert (n = 0) by lia. subst.
    cbn [append]. now rewrite !substring_zero_zero.
  - destruct p as [|p]; cbn [append substring].
    + destruct n as [|n]; [reflexivity|]. f_equal. apply IH. lia.
    + apply IH. lia.
Qed.

Lemma substring_app_right (a b : string) (p n : nat) :
  substring (String.length a + p) n (a ++ b) = substring p n b.
Proof. induction a as [|c a IH]; cbn; [reflexivity | exact IH]. Qed.

Lemma get_app_left (a b : string) (i : nat) :
  i < String.length a -> get i (a ++ b) = get i a.
Proof. intros H. symmetry. now apply append_correct1. Qed.

Lemma get_app_right (a b : string) (i : nat) :
  get (String.length a + i) (a ++ b) = get i b.
Proof. rewrite Nat.add_comm. symmetry. apply append_correct2. Qed.

Lemma occursAt_get (pat s : string) (p i : nat) :
  occursAt pat s p -> i < String.length pat -> get (p + i) s = get i pat.
Proof.
  unfold occursAt. intros H Hi.
  pose proof (substring_correct1 s p (String.length pat) i Hi) as G.
  rewrite H in G. rewrite Nat.add_comm. now symmetry.
Qed.

Lemma index_first (pat s : string) (m : nat) :
  pat <> "" -> occursAt pat s m ->
  (forall p, p < m -> ~ occursAt pat s p) ->
  indexOf s pat = Some m.
Proof.
  unfold indexOf, occursAt. intros Hne Hm Hbefore.
  destruct (index 0 pat s) as [m'|] eqn:E.
  - pose proof (index_correct1 _ _ _ _ E) as H1.
    pose proof (index_correct2 _ _ _ _ E) as H2.
    destruct (Nat.lt_trichotomy m m') as [L | [-> | L]]; [|reflexivity|].
    + exfalso. apply (H2 m); [lia | assumption | assumption].
    + exfalso. exact (Hbefore m' L H1).
  - exfalso. exact (index_correct3 0 m _ _ E Hne (Nat.le_0_l m) Hm).
Qed.

Lemma not_before_first (pat s : string) (m p : nat) :
  indexOf s pat = Some m -> p < m -> ~ occursAt pat s p.
Proof.
  unfold indexOf, occursAt. intros E L.
  apply (index_correct2 _ _ _ _ E); [lia | assumption].
Qed.

Lemma occurs_means_included (pat s : string) (p : nat) :
  pat <> "" -> occursAt pat s p -> includes s pat = true.
Proof.
  unfold includes, indexOf, occursAt. intros Hne H.
  destruct (index 0 pat s) eqn:E; [reflexivity|].
  exfalso. exact (index_correct3 0 p _ _ E Hne (Nat.le_0_l p) H).
Qed.

(** The end marker has one angle bracket that opens, at its start, and no
    line break; the start marker has its opening bracket at its start
    only. *)
Lemma start_marker_chars (k : nat) :
  1 <= k < String.length START_MARKER -> get k START_MARKER <> Some "<"%char.
Proof.
  intros Hk.
  assert (C : forallb (fun i => match get i START_MARKER with
                                | Some c => negb (Ascii.eqb c "<")
                                | None => true
                                end)
                      (seq 1 (String.length START_MARKER - 1)) = true)
    by reflexivity.
  rewrite forallb_forall in C. specialize (C k).
  intros G. rewrite G in C.
  assert (In k (seq 1 (String.length START_MARKER - 1))) by (apply in_seq; lia).
  specialize (C H). discriminate.
Qed.

Lemma end_marker_chars (k : nat) :
  k < String.length END_MARKER -> get k END_MARKER <> Some LF.
Proof.
  intros Hk.
  assert (C : forallb (fun i => match get i END_MARKER with
                                | Some c => negb (Ascii.eqb c LF)
                                | None => true
                                end)
                      (seq 0 (String.length END_MARKER)) = true)
    by reflexivity.
  rewrite forallb_forall in C. specialize (C k).
  intros G. rewrite G in C.
  assert (In k (seq 0 (String.length END_MARKER))) by (apply in_seq; lia).
  specialize (C H). discriminate.
Qed.

Section Overwrite.

Variables (readme m1 : string) (s e : nat).
Hypothesis Hs : indexOf readme START_MARKER = Some s.
Hypothesis He : indexOf readme END_MARKER = Some e.
Hypothesis Hlt : s < e.
Hypothesis Hclean : includes m1 END_MARKER = false.

Let A : string := substring2 readme 0 (s + String.length START_MARKER).
Let After : string := substringFrom readme e.
Let r1 : string := A ++ nl ++ m1 ++ nl ++ After.

Lemma kept_head_length : String.length A = s + String.length START_MARKER.
Proof.
  unfold A, substring2. rewrite Nat.sub_0_r, length_substring.
  pose proof (start_marker_fits _ _ Hs). lia.
Qed.

Lemma kept_head_prefix : readme = A ++ substringFrom readme (s + String.length START_MARKER).
Proof.
  unfold A, substring2. rewrite Nat.sub_0_r. symmetry. apply cut_and_glue.
  exact (start_marker_fits _ _ Hs).
Qed.

Lemma kept_head_get (p : nat) :
  s <= p < s + String.length START_MARKER -> get p A = get (p - s) START_MARKER.
Proof.
  intros Hp. unfold A. rewrite (before_is_prefix_and_marker _ _ Hs).
  assert (L : String.length (substring2 readme 0 s) = s).
  { unfold substring2. rewrite Nat.sub_0_r, length_substring.
    pose proof (start_marker_fits _ _ Hs). lia. }
  replace p with (String.length (substring2 readme 0 s) + (p - s)) at 1 by lia.
  apply get_app_right.
Qed.

Lemma start_stays_first : indexOf r1 START_MARKER = Some s.
Proof.
  apply index_first; [discriminate | |].
  - unfold occursAt, r1. rewrite substring_app_left by (rewrite kept_head_length; lia).
    pose proof (indexOf_found _ _ _ Hs) as F.
    rewrite kept_head_prefix in F.
    now rewrite substring_app_left in F by (rewrite kept_head_length; lia).
  - intros p Hp Hocc. apply (not_before_first _ _ _ p Hs Hp).
    unfold occursAt in *. unfold r1 in Hocc.
    rewrite substring_app_left in Hocc by (rewrite kept_head_length; lia).
    pose proof kept_head_prefix as F. rewrite F.
    now rewrite substring_app_left by (rewrite kept_head_length; lia).
Qed.

Lemma spliced_get_middle (k : nat) :
  get (String.length A + k) r1 = get k (nl ++ m1 ++ nl ++ After).
Proof. unfold r1. apply get_app_right. Qed.

Lemma end_comes_after_markup :
  indexOf r1 END_MARKER = Some (String.length A + (String.length m1 + 2)).
Proof.
  pose proof (markers_do_not_overlap _ _ _ Hs He Hlt) as Hno.
  pose proof kept_head_length as LA.
  assert (LE : String.length END_MARKER = 30) by reflexivity.
  assert (LS : String.length START_MARKER = 32) by reflexivity.
  apply index_first; [discriminate | |].
  - unfold occursAt, r1.
    replace (A ++ nl ++ m1 ++ nl ++ After) with ((A ++ nl ++ m1 ++ nl) ++ After)
      by (now rewrite !append_assoc).
    replace (String.length A + (String.length m1 + 2))
      with (String.length (A ++ nl ++ m1 ++ nl) + 0)
      by (rewrite !length_append; change (String.length nl) with 1;
          generalize (String.length A) (String.length m1); intros; lia).
    rewrite substring_app_right. unfold After.
    rewrite (after_is_marker_and_suffix _ _ He). apply substring_append_l.
  - intros p Hp Hocc.
    destruct (Nat.le_gt_cases (p + String.length END_MARKER) (String.length A))
      as [Hin | Hout].
    { (* inside the untouched part *)
      apply (not_before_first _ _ _ p He); [lia|].
      unfold occursAt in *. unfold r1 in Hocc.
      rewrite substring_app_left in Hocc by assumption.
      pose proof kept_head_prefix as F. rewrite F.
      now rewrite substring_app_left by assumption. }
    pose proof (occursAt_get _ _ _ 0 Hocc ltac:(lia)) as G0.
    rewrite Nat.add_0_r in G0. change (get 0 END_MARKER) with (Some "<"%char) in G0.
    destruct (Nat.lt_ge_cases p (String.length A)) as [HpA | HpA].
    { (* starts inside the start marker *)
      unfold r1 in G0. rewrite get_app_left in G0 by assumption.
      rewrite kept_head_get in G0 by lia.
      apply (start_marker_chars (p - s)); [lia | assumption]. }
    set (j := p - String.length A).
    assert (Ep : p = String.length A + j) by (unfold j; lia).
    destruct j as [|j].
    { (* starts at the line break after the start marker *)
      rewrite Ep, spliced_get_middle in G0. discriminate. }
    destruct (Nat.le_gt_cases (j + String.length END_MARKER) (String.length m1))
      as [Hm | Hm].
    { (* inside the old markup *)
      assert (O : occursAt END_MARKER m1 j).
      { unfold occursAt in *. unfold r1 in Hocc. rewrite Ep in Hocc.
        rewrite substring_app_right in Hocc.
        change (nl ++ m1 ++ nl ++ After) with (String LF (m1 ++ nl ++ After)) in Hocc.
        cbn [substring] in Hocc.
        now rewrite substring_app_left in Hocc by assumption. }
      apply (occurs_means_included END_MARKER m1 j) in O; [|discriminate].
      congruence. }
    (* runs over the line break after the old markup *)
    assert (Hi : String.length m1 - j < String.length END_MARKER) by lia.
    pose proof (occursAt_get _ _ _ _ Hocc Hi) as G.
    replace (p + (String.length m1 - j))
      with (String.length A + S (String.length m1 + 0)) in G by lia.
    rewrite spliced_get_middle in G.
    change (nl ++ m1 ++ nl ++ After) with (String LF (m1 ++ nl ++ After)) in G.
    cbn [get] in G. rewrite get_app_right in G. cbn [append get] in G.
    symmetry in G. exact (end_marker_chars _ Hi G).
Qed.

Lemma second_splice (m2 : string) :
  updateReadmeContent r1 m2 =
  let c := A ++ nl ++ m2 ++ nl ++ After in
  mkUpdateResult (negb (c =? r1)) c true.
Proof.
  pose proof kept_head_length as LA.
  rewrite (splice_found r1 m2 _ _ start_stays_first end_comes_after_markup) by lia.
  cbv zeta.
  assert (E1 : substring2 r1 0 (s + String.length START_MARKER) = A).
  { unfold substring2, r1. rewrite Nat.sub_0_r, <- LA. apply substring_append_l. }
  assert (E2 : substringFrom r1 (String.length A + (String.length m1 + 2)) = After).
  { unfold r1.
    replace (A ++ nl ++ m1 ++ nl ++ After) with ((A ++ nl ++ m1 ++ nl) ++ After)
      by (now rewrite !append_assoc).
    replace (String.length A + (String.length m1 + 2))
      with (String.length (A ++ nl ++ m1 ++ nl))
      by (rewrite !length_append; change (String.length nl) with 1;
          generalize (String.length A) (String.length m1); intros; lia).
    apply substring_past_prefix. }
  now rewrite E1, E2.
Qed.

End Overwrite.

(** Splicing again replaces all of the first markup: when the first
    markup holds no end marker, splicing [m2] into the result of splicing
    [m1] gives the document that splicing [m2] into the original gives;
    and splicing [m1] a second time reports no change. *)
Theorem splice_overwrites (readme m1 m2 : string) :
  markersFound (updateReadmeContent readme m1) = true ->
  includes m1 END_MARKER = false ->
  let first := content (updateReadmeContent readme m1) in
  content (updateReadmeContent first m2) = content (updateReadmeContent readme m2) /\
  markersFound (updateReadmeContent first m2) = true /\
  updateReadmeContent first m1 = mkUpdateResult false first true.
Proof.
  intros Hf Hclean first.
  apply markersFound_inv in Hf as (s & e & Hs & He & Hlt).
  assert (E : first = substring2 readme 0 (s + String.length START_MARKER) ++
                      nl ++ m1 ++ nl ++ substringFrom readme e).
  { unfold first. now rewrite (splice_found _ m1 _ _ Hs He) by lia. }
  rewrite E, !(second_splice readme m1 s e Hs He Hlt Hclean).
  rewrite (splice_found _ m2 _ _ Hs He) by lia. cbv zeta.
  cbn [content markersFound]. rewrite String.eqb_refl. auto.
Qed.

Lemma splice_overwrites_witness :
  content (updateReadmeContent
             (content (updateReadmeContent Scenario.README_WITH_MARKERS "one"))
             "two") =
  content (updateReadmeContent Scenario.README_WITH_MARKERS "two") /\
  updated (updateReadmeContent
             (content (updateReadmeContent Scenario.README_WITH_MARKERS "one"))
             "one") = false.
Proof.
  destruct (splice_overwrites Scenario.README_WITH_MARKERS "one" "two")
    as (H1 & _ & H3); [reflexivity | reflexivity |].
  split; [exact H1 | now rewrite H3].
Defined.

End SpliceProps.

(** ** Runs that end before the document is written *)

Module LocalProps.

Import Badges Readme Index Scenario Spec Extra.
Import StringFacts MonadFacts UrlFacts RunFacts.

(** [validateInputs] reports nothing when it succeeds. *)
Lemma validateInputs_val (W : World) (tr tr' : list Event) (cfg : Config) :
  validateInputs W tr = (Val cfg, tr') -> tr' = tr.
Proof.
  intros H.
  destruct (validateInputs_outcome W tr) as [(c & E) | [(m & E) | (e & E)]];
    rewrite E in H; congruence.
Qed.

Lemma local_events (P : Event -> bool) (W : World) o tr :
  (forall e, isLocalReport e = true -> P e = true) ->
  (forall e, isFile e = true -> P e = true) ->
  localPart W [] = (o, tr) -> forallb P tr = true.
Proof.
  intros H1 H2 E.
  assert (S : emitsOnly P (localPart W)).
  { unfold localPart. emits;
      auto using emitsOnly_validateInputs, emitsOnly_render, emitsOnly_spliceDocument. }
  destruct (S []) as (suf & Es & F). rewrite E in Es. cbn in Es. now subst tr.
Qed.

Lemma no_calls (tr : list Event) : forallb notRemote tr = true -> callsOf tr = [].
Proof.
  induction tr as [|e tr IH]; [reflexivity|]. cbn [forallb].
  rewrite andb_true_iff. intros [He Ht]. unfold callsOf in *. cbn [flat_map].
  rewrite (IH Ht). destruct e; try reflexivity. discriminate.
Qed.

Lemma notRemote_report e : isLocalReport e = true -> notRemote e = true.
Proof. destruct e; try reflexivity. discriminate. Qed.

Lemma notRemote_file e : isFile e = true -> notRemote e = true.
Proof. destruct e; try reflexivity; discriminate. Qed.

(** How the run goes on from the local part. *)
Lemma prepare_after_local (W : World) (tr : list Event) :
  prepare W tr =
  (x <- localPart W ;;
   cn <- connect W ;;
   ret (mkPrepared (fst (fst x)) (snd (fst x)) (snd x) cn)) tr.
Proof.
  unfold prepare, localPart, bind, ret.
  destruct (validateInputs W tr) as [[cfg| |e] t1]; try reflexivity.
  destruct (render cfg t1) as [[r| |e] t2]; try reflexivity.
  destruct (spliceDocument W cfg r t2) as [[res| |e] t3]; reflexivity.
Qed.

Lemma run_after_local_exit (W : World) (tr : list Event) :
  localPart W [] = (Return, tr) -> run W = tr.
Proof.
  intros H. rewrite run_finish. unfold body.
  erewrite bind_return; [reflexivity|].
  rewrite prepare_after_local. now apply bind_return.
Qed.

Lemma local_exit_from_render (W : World) (cfg : Config) (tr0 tr : list Event) :
  validateInputs W [] = (Val cfg, tr0) ->
  render cfg tr0 = (Return, tr) ->
  localPart W [] = (Return, tr).
Proof.
  intros Hv Hr. unfold localPart.
  rewrite (bind_val _ _ _ _ _ Hv). now apply bind_return.
Qed.

Lemma local_exit_from_splice (W : World) (cfg : Config) (r : Rendered)
    (tr0 tr1 tr : list Event) :
  validateInputs W [] = (Val cfg, tr0) ->
  render cfg tr0 = (Val r, tr1) ->
  spliceDocument W cfg r tr1 = (Return, tr) ->
  localPart W [] = (Return, tr).
Proof.
  intros Hv Hr Hs. unfold localPart.
  rewrite (bind_val _ _ _ _ _ Hv), (bind_val _ _ _ _ _ Hr). now apply bind_return.
Qed.

Lemma warnings_are_reports (ws : list string) :
  forallb isLocalReport (map EWarning ws) = true /\
  existsb isFailure (map EWarning ws) = false.
Proof. induction ws as [|w ws [IH1 IH2]]; cbn; auto. Qed.

(** When no line of the products input gives a product, the run reports
    the parser's warnings and one more warning, and ends: it reports no
    failure, touches no file and makes no remote call. *)
Theorem no_products_ends_quietly (W : World) (cfg : Config) (tr0 : list Event) :
  validateInputs W [] = (Val cfg, tr0) ->
  fst (parseProducts (productsInput cfg)) = [] ->
  run W =
    (map EWarning (snd (parseProducts (productsInput cfg))) ++
     [EWarning "No valid products found in input. Nothing to do."])%list /\
  forallb isLocalReport (run W) = true /\
  existsb isFailure (run W) = false.
Proof.
  intros Hv Hp. pose proof (validateInputs_val _ _ _ _ Hv). subst tr0.
  assert (R : run W =
              (map EWarning (snd (parseProducts (productsInput cfg))) ++
               [EWarning "No valid products found in input. Nothing to do."])%list).
  { apply run_after_local_exit, (local_exit_from_render W cfg [] _ Hv).
    rewrite render_run. cbv zeta. now rewrite Hp. }
  destruct (warnings_are_reports (snd (parseProducts (productsInput cfg))))
    as [F1 F2].
  rewrite R, forallb_app, existsb_app, F1, F2. auto.
Qed.

Lemma no_products_ends_quietly_witness :
  exists cfg,
    validateInputs
      (withInputs happy [("products", "Bad Name" ++ nl ++ "python:3.12:x")]) [] =
      (Val cfg, []) /\
    snd (parseProducts (productsInput cfg)) =
      [invalidNameWarning "Bad Name"; invalidVersionWarning "3.12:x" "python"] /\
    run (withInputs happy [("products", "Bad Name" ++ nl ++ "python:3.12:x")]) =
    (map EWarning (snd (parseProducts (productsInput cfg))) ++
     [EWarning "No valid products found in input. Nothing to do."])%list.
Proof.
  eexists. split; [vm_compute; reflexivity|]. split; [vm_compute; reflexivity|].
  refine (proj1 (no_products_ends_quietly
                   (withInputs happy [("products", "Bad Name" ++ nl ++ "python:3.12:x")])
                   _ [] _ _));
    vm_compute; reflexivity.
Defined.

Section AfterRender.

Variables (W : World) (cfg : Config) (r : Rendered) (tr0 tr : list Event).
Hypothesis Hv : validateInputs W [] = (Val cfg, tr0).
Hypothesis Hr : render cfg tr0 = (Val r, tr).

Lemma rendered_trace_is_local : forallb isLocalReport tr = true.
Proof.
  eapply DriverTheorems.stage_events; [apply emitsOnly_render; auto | exact Hr |].
  eapply DriverTheorems.stage_events;
    [apply emitsOnly_validateInputs; auto | exact Hv | reflexivity].
Qed.

Lemma rendered_trace_quiet :
  callsOf tr = [] /\ existsb isWrite tr = false.
Proof.
  pose proof rendered_trace_is_local as F. clear Hv Hr. split.
  - apply no_calls. revert F. clear. induction tr as [|e l IH]; cbn; [auto|].
    rewrite !andb_true_iff. intros [He Hl]. split; [|auto].
    destruct e; try reflexivity; discriminate.
  - revert F. clear. induction tr as [|e l IH]; cbn; [auto|].
    rewrite andb_true_iff. intros [He Hl]. rewrite (IH Hl).
    destruct e; try reflexivity; discriminate.
Qed.

Lemma rendered_trace_no_failure : existsb isFailure tr = false.
Proof.
  pose proof (validateInputs_val _ _ _ _ Hv). subst tr0.
  destruct (render_val _ _ _ _ Hr) as (ws & -> & _).
  rewrite !existsb_app.
  now rewrite (proj2 (warnings_are_reports ws)).
Qed.

Lemma splice_exit (o : list Event) :
  spliceDocument W cfg r tr = (Return, (tr ++ o)%list) ->
  run W = (tr ++ o)%list.
Proof.
  intros Hs. apply run_after_local_exit.
  exact (local_exit_from_splice W cfg r tr0 tr _ Hv Hr Hs).
Qed.

End AfterRender.

(** When the document cannot be read, the run fails with a message that
    gives the resolved path and the cause; nothing is written and no
    remote call is made. *)
Theorem read_failure_aborts (W : World) (cfg : Config) (r : Rendered)
    (tr0 tr : list Event) (err : Thrown) :
  validateInputs W [] = (Val cfg, tr0) ->
  render cfg tr0 = (Val r, tr) ->
  readFileSync W (fullPath cfg) = inl err ->
  run W = (tr ++ [EReadFile (fullPath cfg);
                  ESetFailed ("Failed to read README at " ++ fullPath cfg ++ ": " ++
                              errText err)])%list /\
  callsOf (run W) = [] /\ existsb isWrite (run W) = false.
Proof.
  intros Hv Hr Hread.
  destruct (rendered_trace_quiet W cfg r tr0 tr Hv Hr) as [Hc Hw].
  assert (R : run W = (tr ++ [EReadFile (fullPath cfg);
                  ESetFailed ("Failed to read README at " ++ fullPath cfg ++ ": " ++
                              errText err)])%list).
  { apply (splice_exit W cfg r tr0 tr Hv Hr).
    unfold spliceDocument, bind, emit, returnNow. rewrite Hread.
    now rewrite <- app_assoc. }
  rewrite R, callsOf_app, existsb_app, Hc, Hw. auto.
Qed.

Lemma read_failure_aborts_witness :
  exists cfg r tr,
    validateInputs
      (withReadFile happy (fun _ => inl (ErrorObj "ENOENT: no such file"))) [] =
      (Val cfg, []) /\
    render cfg [] = (Val r, tr) /\
    fullPath cfg = "/workspace/README.md" /\
    run (withReadFile happy (fun _ => inl (ErrorObj "ENOENT: no such file"))) =
    (tr ++ [EReadFile (fullPath cfg);
            ESetFailed ("Failed to read README at " ++ fullPath cfg ++ ": " ++
                        errText (ErrorObj "ENOENT: no such file"))])%list.
Proof.
  do 3 eexists.
  split; [vm_compute; reflexivity|]. split; [vm_compute; reflexivity|].
  split; [reflexivity|].
  refine (proj1 (read_failure_aborts
                   (withReadFile happy (fun _ => inl (ErrorObj "ENOENT: no such file")))
                   _ _ [] _ (ErrorObj "ENOENT: no such file") _ _ _));
    vm_compute; reflexivity.
Defined.

(** When the document lacks the markers (or has them in the wrong
    order), the run warns and ends: it has read the document, writes
    nothing, makes no remote call and reports no failure. *)
Theorem no_markers_ends_quietly (W : World) (cfg : Config) (r : Rendered)
    (tr0 tr : list Event) (doc : string) :
  validateInputs W [] = (Val cfg, tr0) ->
  render cfg tr0 = (Val r, tr) ->
  readFileSync W (fullPath cfg) = inr doc ->
  markersFound (updateReadmeContent doc (badgesMarkdown r)) = false ->
  run W = (tr ++ [EReadFile (fullPath cfg);
                  EWarning (noMarkersWarning (readmePath cfg))])%list /\
  callsOf (run W) = [] /\ existsb isWrite (run W) = false /\
  existsb isFailure (run W) = false.
Proof.
  intros Hv Hr Hread Hm.
  destruct (rendered_trace_quiet W cfg r tr0 tr Hv Hr) as [Hc Hw].
  assert (R : run W = (tr ++ [EReadFile (fullPath cfg);
                  EWarning (noMarkersWarning (readmePath cfg))])%list).
  { apply (splice_exit W cfg r tr0 tr Hv Hr).
    unfold spliceDocument, bind, emit, returnNow. rewrite Hread, Hm.
    cbn [negb]. now rewrite <- app_assoc. }
  rewrite R, callsOf_app, !existsb_app, Hc, Hw.
  rewrite (rendered_trace_no_failure W cfg r tr0 tr Hv Hr). auto.
Qed.

Lemma no_markers_ends_quietly_witness :
  exists cfg r tr,
    validateInputs (withReadFile happy (fun _ => inr README_NO_MARKERS)) [] =
      (Val cfg, []) /\
    render cfg [] = (Val r, tr) /\
    run (withReadFile happy (fun _ => inr README_NO_MARKERS)) =
    (tr ++ [EReadFile (fullPath cfg);
            EWarning (noMarkersWarning (readmePath cfg))])%list.
Proof.
  do 3 eexists.
  split; [vm_compute; reflexivity|]. split; [vm_compute; reflexivity|].
  refine (proj1 (no_markers_ends_quietly
                   (withReadFile happy (fun _ => inr README_NO_MARKERS))
                   _ _ [] _ README_NO_MARKERS _ _ _ _));
    vm_compute; reflexivity.
Defined.

(** When the spliced document cannot be written, the run fails with a
    message that gives the path and the cause, and makes no remote
    call. *)
Theorem write_failure_aborts (W : World) (cfg : Config) (r : Rendered)
    (tr0 tr : list Event) (doc : string) (err : Thrown) :
  let res := updateReadmeContent doc (badgesMarkdown r) in
  validateInputs W [] = (Val cfg, tr0) ->
  render cfg tr0 = (Val r, tr) ->
  readFileSync W (fullPath cfg) = inr doc ->
  markersFound res = true ->
  updated res = true ->
  writeFileSync W (fullPath cfg) (content res) = Some err ->
  run W = (tr ++ [EReadFile (fullPath cfg);
                  EWriteFile (fullPath cfg) (content res);
                  ESetFailed ("Failed to write README at " ++ fullPath cfg ++ ": " ++
                              errText err)])%list /\
  callsOf (run W) = [].
Proof.
  intros res Hv Hr Hread Hm Hu Hw.
  destruct (rendered_trace_quiet W cfg r tr0 tr Hv Hr) as [Hc _].
  assert (R : run W = (tr ++ [EReadFile (fullPath cfg);
                  EWriteFile (fullPath cfg) (content res);
                  ESetFailed ("Failed to write README at " ++ fullPath cfg ++ ": " ++
                              errText err)])%list).
  { apply (splice_exit W cfg r tr0 tr Hv Hr).
    unfold spliceDocument, bind, emit, returnNow. rewrite Hread.
    fold res. rewrite Hm, Hu, Hw. cbn [negb]. now rewrite <- !app_assoc. }
  rewrite R, callsOf_app, Hc. auto.
Qed.

Lemma write_failure_aborts_witness :
  exists cfg r tr,
    validateInputs (withWriteFile happy (fun _ _ => Some (NonError "EACCES"))) [] =
      (Val cfg, []) /\
    render cfg [] = (Val r, tr) /\
    run (withWriteFile happy (fun _ _ => Some (NonError "EACCES"))) =
    (tr ++ [EReadFile (fullPath cfg);
            EWriteFile (fullPath cfg)
              (content (updateReadmeContent README_WITH_MARKERS (badgesMarkdown r)));
            ESetFailed ("Failed to write README at " ++ fullPath cfg ++ ": " ++
                        errText (NonError "EACCES"))])%list.
Proof.
  do 3 eexists.
  split; [vm_compute; reflexivity|]. split; [vm_compute; reflexivity|].
  refine (proj1 (write_failure_aborts
                   (withWriteFile happy (fun _ _ => Some (NonError "EACCES")))
                   _ _ [] _ README_WITH_MARKERS (NonError "EACCES") _ _ _ _ _ _));
    vm_compute; reflexivity.
Defined.

End LocalProps.

(** ** The token and the default branch *)

Module ConnectProps.

Import Badges Readme Index Scenario Spec Extra.
Import StringFacts MonadFacts UrlFacts DriverFacts RunFacts LocalProps.

Lemma spliceDocument_val (W : World) (cfg : Config) (r : Rendered)
    (res : UpdateResult) (tr tr' : list Event) :
  spliceDocument W cfg r tr = (Val res, tr') ->
  tr' = (tr ++ [EReadFile (fullPath cfg);
                EWriteFile (fullPath cfg) (content res); writtenInfo])%list.
Proof.
  unfold spliceDocument, bind, emit, returnNow, ret, writtenInfo.
  destruct (readFileSync W (fullPath cfg)) as [err|doc]; [discriminate|].
  destruct (markersFound _) eqn:Hm; cbn [negb]; [|discriminate].
  destruct (updated _) eqn:Hu; cbn [negb]; [|discriminate].
  destruct (writeFileSync W _ _); [discriminate|].
  intros [= <- <-]. now rewrite <- !app_assoc.
Qed.

Lemma validateInputs_branch (W : World) (cfg : Config) (tr tr' : list Event) :
  validateInputs W tr = (Val cfg, tr') ->
  prBranch cfg = branchOf W /\ invalidBranch (branchOf W) = false.
Proof.
  unfold validateInputs, getInputRequired, branchOf.
  destruct (truthy (rawInput W "products")); cbn [bind ret throw]; [|discriminate].
  unfold bind at 1. cbn [ret].
  destruct (invalidBranch _) eqn:B; [discriminate|].
  destruct (arrIncludes validStyles _) eqn:S; cbn [negb]; [|discriminate].
  destruct (arrIncludes validLinkTos _); cbn [negb]; [|discriminate].
  destruct (truthy (getInput W "badge-service-url") && _); [discriminate|].
  destruct (startsWith _ _) eqn:P; cbn [negb]; [|discriminate].
  intros [= <- <-]. cbn [prBranch]. auto.
Qed.

(** What a successful local part leaves in the trace. *)
Lemma localPart_val (W : World) cfg r res (tr : list Event) :
  localPart W [] = (Val (cfg, r, res), tr) ->
  (exists ws,
    tr = (map EWarning ws ++ renderReport cfg r ++
          [EReadFile (fullPath cfg);
           EWriteFile (fullPath cfg) (content res); writtenInfo])%list) /\
  prBranch cfg = branchOf W /\ invalidBranch (branchOf W) = false.
Proof.
  unfold localPart. intros H.
  apply bind_inv in H as (cfg' & t0 & Hv & H).
  apply bind_inv in H as (r' & t1 & Hr & H).
  apply bind_inv in H as (res' & t2 & Hs & H).
  unfold ret in H. injection H as <- <- <- <-.
  apply spliceDocument_val in Hs as ->.
  pose proof (validateInputs_val _ _ _ _ Hv). subst t0.
  destruct (render_val _ _ _ _ Hr) as (ws & -> & _).
  split; [|now apply validateInputs_branch in Hv].
  exists ws. cbn [Datatypes.app]. now rewrite <- !app_assoc.
Qed.

Lemma callsOf_warnings (ws : list string) : callsOf (map EWarning ws) = [].
Proof. induction ws; cbn; auto. Qed.

Lemma localPart_calls (W : World) x (tr : list Event) :
  localPart W [] = (Val x, tr) -> callsOf tr = [].
Proof.
  destruct x as [[cfg r] res]. intros H.
  apply localPart_val in H as ((ws & ->) & _).
  now rewrite callsOf_app, callsOf_warnings.
Qed.

(** The token step and the two look-ups, by the remote's answers. *)
Lemma connect_cases (W : World) (tr : list Event) :
  let h := callsOf tr in
  let b := fst (branchLookup W h) in
  let looked := ([ESetSecret (match tokenOf W with Some t => t | None => "" end)] ++
                 snd (branchLookup W h) ++ [ERemote (getRefCall W b)])%list in
  connect W tr =
  if negb (truthyOpt (tokenOf W)) then
    (Return, (tr ++ [ESetFailed noTokenMessage])%list)
  else
    match git_getRef W (h ++ [reposGetCall W; getRefCall W b])%list with
    | inr sha => (Val (mkConn b sha), (tr ++ looked)%list)
    | inl e => (Throw e, (tr ++ looked)%list)
    end.
Proof.
  intros h b looked. subst h b looked.
  unfold connect, branchLookup, noTokenMessage. fold (tokenOf W).
  destruct (negb (truthyOpt (tokenOf W))); [reflexivity|].
  unfold tryCatch, bind, remote, emit, ret, getRefCall, fallbackWarning.
  fold (reposGetCall W) (fallbackBranch W). flatten_traces.
  destruct (repos_get W _) as [e1|b]; cbn [fst snd]; flatten_traces;
    destruct (git_getRef W _) as [e2|sha]; flatten_traces; reflexivity.
Qed.

Lemma body_after_local (W : World) cfg r res (tr : list Event) :
  localPart W [] = (Val (cfg, r, res), tr) ->
  body W [] = remotePart W cfg r res tr.
Proof.
  intros H. unfold body, remotePart, bind. rewrite prepare_after_local.
  unfold bind, ret. rewrite H. cbn [fst snd].
  destruct (connect W tr) as [[cn| |e] t]; reflexivity.
Qed.

Lemma run_after_local (W : World) cfg r res (tr : list Event) :
  localPart W [] = (Val (cfg, r, res), tr) ->
  run W = finish (remotePart W cfg r res tr).
Proof. intros H. now rewrite run_finish, (body_after_local _ _ _ _ _ H). Qed.

Lemma token_present (W : World) :
  truthyOpt (tokenOf W) = true ->
  exists t, tokenOf W = Some t /\ truthy t = true.
Proof.
  unfold truthyOpt. destruct (tokenOf W) as [t|]; [eauto|discriminate].
Qed.

Lemma missing_token_run (W : World) cfg r res (tr : list Event) :
  localPart W [] = (Val (cfg, r, res), tr) ->
  truthyOpt (tokenOf W) = false ->
  run W = (tr ++ [ESetFailed noTokenMessage])%list /\ callsOf (run W) = [].
Proof.
  intros Hl Ht.
  assert (R : run W = (tr ++ [ESetFailed noTokenMessage])%list).
  { rewrite (run_after_local _ _ _ _ _ Hl). unfold remotePart.
    erewrite bind_return; [reflexivity|].
    pose proof (connect_cases W tr) as C. cbv zeta in C. now rewrite Ht in C. }
  split; [exact R|].
  now rewrite R, callsOf_app, (localPart_calls _ _ _ Hl).
Qed.

(** Without a token the run fails once the document has been rewritten:
    the failure asks for a token, the written document stays written, and
    no remote call is made. *)
Theorem missing_token_aborts_after_write (W : World) cfg r res (tr : list Event) :
  localPart W [] = (Val (cfg, r, res), tr) ->
  truthyOpt (tokenOf W) = false ->
  run W = (tr ++ [ESetFailed noTokenMessage])%list /\
  In (EWriteFile (fullPath cfg) (content res)) tr /\
  callsOf (run W) = [].
Proof.
  intros Hl Ht.
  destruct (missing_token_run W cfg r res tr Hl Ht) as [R Hc].
  apply localPart_val in Hl as ((ws & E) & _).
  repeat split; auto.
  rewrite E, !in_app_iff. right. right. cbn. auto.
Qed.

Lemma missing_token_aborts_after_write_witness :
  exists cfg r res tr,
    localPart (withInputs happy [("products", "python:3.12")]) [] =
      (Val (cfg, r, res), tr) /\
    truthyOpt (tokenOf (withInputs happy [("products", "python:3.12")])) = false /\
    run (withInputs happy [("products", "python:3.12")]) =
      (tr ++ [ESetFailed noTokenMessage])%list /\
    In (EWriteFile (fullPath cfg) (content res)) tr /\
    callsOf (run (withInputs happy [("products", "python:3.12")])) = [].
Proof.
  do 4 eexists. split; [vm_compute; reflexivity|]. split; [reflexivity|].
  refine (missing_token_aborts_after_write _ _ _ _ _ _ _); vm_compute; reflexivity.
Defined.

(** The connection step of a run whose local part has succeeded and which
    has a token. *)
Lemma connect_after_local (W : World) x (tr : list Event) (t : string) :
  localPart W [] = (Val x, tr) ->
  tokenOf W = Some t -> truthy t = true ->
  let b := fst (branchLookup W []) in
  let looked := ([ESetSecret t] ++ snd (branchLookup W []) ++
                 [ERemote (getRefCall W b)])%list in
  connect W tr =
  match git_getRef W [reposGetCall W; getRefCall W b] with
  | inr sha => (Val (mkConn b sha), (tr ++ looked)%list)
  | inl e => (Throw e, (tr ++ looked)%list)
  end.
Proof.
  intros Hl Ht Htt. pose proof (connect_cases W tr) as C. cbv zeta in C.
  rewrite (localPart_calls _ _ _ Hl), Ht in C. unfold truthyOpt in C.
  rewrite Htt in C. exact C.
Qed.

(** When the tip of the default branch cannot be looked up, the error
    reaches the outer handler: the run reports it as its failure right
    after the look-up, and the only remote calls made are the two
    look-ups.  The document has been rewritten on disk by then. *)
Theorem tip_lookup_failure_is_fatal (W : World) cfg r res (tr : list Event)
    (t : string) (err : Thrown) :
  localPart W [] = (Val (cfg, r, res), tr) ->
  tokenOf W = Some t -> truthy t = true ->
  git_getRef W [reposGetCall W; getRefCall W (fst (branchLookup W []))] = inl err ->
  run W = (tr ++ [ESetSecret t] ++ snd (branchLookup W []) ++
           [ERemote (getRefCall W (fst (branchLookup W [])));
            ESetFailed (topLevelMessage err)])%list /\
  callsOf (run W) = [reposGetCall W; getRefCall W (fst (branchLookup W []))] /\
  In (EWriteFile (fullPath cfg) (content res)) tr.
Proof.
  intros Hl Ht Htt Hg.
  assert (R : run W = (tr ++ [ESetSecret t] ++ snd (branchLookup W []) ++
           [ERemote (getRefCall W (fst (branchLookup W [])));
            ESetFailed (topLevelMessage err)])%list).
  { rewrite (run_after_local _ _ _ _ _ Hl). unfold remotePart.
    pose proof (connect_after_local W _ tr t Hl Ht Htt) as C. cbv zeta in C.
    rewrite Hg in C. erewrite bind_throw by exact C. cbn [finish].
    now rewrite <- !app_assoc. }
  split; [exact R|]. split.
  - rewrite R, !callsOf_app, (localPart_calls _ _ _ Hl).
    unfold branchLookup. cbn [Datatypes.app]. destruct (repos_get W _); reflexivity.
  - apply localPart_val in Hl as ((ws & ->) & _).
    rewrite !in_app_iff. right. right. cbn. auto.
Qed.

Lemma tip_lookup_failure_is_fatal_witness :
  exists cfg r res tr,
    localPart (withGetRef happy (fun _ => inl (ErrorObj "Not Found"))) [] =
      (Val (cfg, r, res), tr) /\
    run (withGetRef happy (fun _ => inl (ErrorObj "Not Found"))) =
      (tr ++ [ESetSecret "fake-token"] ++
       snd (branchLookup (withGetRef happy (fun _ => inl (ErrorObj "Not Found"))) []) ++
       [ERemote (getRefCall (withGetRef happy (fun _ => inl (ErrorObj "Not Found")))
                  (fst (branchLookup
                          (withGetRef happy (fun _ => inl (ErrorObj "Not Found"))) [])));
        ESetFailed (topLevelMessage (ErrorObj "Not Found"))])%list.
Proof.
  do 4 eexists. split; [vm_compute; reflexivity|].
  refine (proj1 (tip_lookup_failure_is_fatal _ _ _ _ _ _ _ _ _ _ _));
    vm_compute; reflexivity.
Defined.

(** When the repository cannot be asked for its default branch, the run
    warns and goes on with the branch of the event payload, or with
    [main] when the payload names none or an empty one: that branch is
    the one whose tip is looked up next, and the base of the connection
    the later steps work with. *)
Theorem default_branch_falls_back (W : World) cfg r res (tr : list Event)
    (t : string) (err : Thrown) :
  localPart W [] = (Val (cfg, r, res), tr) ->
  tokenOf W = Some t -> truthy t = true ->
  repos_get W [reposGetCall W] = inl err ->
  fallbackBranch W <> "" /\
  (context_default_branch W = None -> fallbackBranch W = "main") /\
  (exists o,
     connect W tr =
     (o, tr ++ [ESetSecret t; ERemote (reposGetCall W); fallbackWarning err;
                ERemote (getRefCall W (fallbackBranch W))])%list /\
     forall cn, o = Val cn -> defaultBranch cn = fallbackBranch W) /\
  exists rest,
    run W = (tr ++ [ESetSecret t; ERemote (reposGetCall W); fallbackWarning err;
                    ERemote (getRefCall W (fallbackBranch W))] ++ rest)%list.
Proof.
  intros Hl Ht Htt Hr.
  assert (B : branchLookup W [] =
              (fallbackBranch W, [ERemote (reposGetCall W); fallbackWarning err])).
  { unfold branchLookup. cbn [Datatypes.app]. now rewrite Hr. }
  pose proof (connect_after_local W _ tr t Hl Ht Htt) as C. cbv zeta in C.
  rewrite B in C. cbn [fst snd Datatypes.app] in C.
  split; [|split; [|split]].
  - unfold fallbackBranch, orElse.
    destruct (context_default_branch W) as [b|]; [|discriminate].
    destruct (truthy b) eqn:E; [|discriminate].
    intros ->. discriminate.
  - unfold fallbackBranch. now intros ->.
  - destruct (git_getRef W _) as [e|sha]; eexists; (split; [exact C|]);
      intros cn [= <-]; reflexivity.
  - rewrite (run_after_local _ _ _ _ _ Hl). unfold remotePart, bind at 1.
    destruct (git_getRef W _) as [e|sha]; rewrite C.
    + cbn [finish]. eexists. rewrite <- app_assoc. cbn [Datatypes.app]. reflexivity.
    + edestruct (finish_extends
                   (reconcile W (mkPrepared cfg r res (mkConn (fallbackBranch W) sha)))
                   (tr ++ [ESetSecret t; ERemote (reposGetCall W); fallbackWarning err;
                           ERemote (getRefCall W (fallbackBranch W))])%list anyEvent)
        as (rest & E & _); [|reflexivity|].
      * apply emitsOnly_reconcile; reflexivity.
      * exists rest. rewrite E. now rewrite <- app_assoc.
Qed.

Lemma default_branch_falls_back_witness :
  exists cfg r res tr,
    localPart (withReposGet happy (fun _ => inl (ErrorObj "Forbidden"))) [] =
      (Val (cfg, r, res), tr) /\
    fallbackBranch (withReposGet happy (fun _ => inl (ErrorObj "Forbidden"))) <> "".
Proof.
  do 4 eexists. split; [vm_compute; reflexivity|].
  refine (proj1 (default_branch_falls_back _ _ _ _ _ "fake-token"
                   (ErrorObj "Forbidden") _ _ _ _));
    vm_compute; reflexivity.
Defined.

End ConnectProps.

(** ** What holds of every run *)

Module RunInvariants.

Import Badges Readme Index Scenario Spec Extra.
Import StringFacts MonadFacts UrlFacts DriverFacts RunFacts LocalProps ConnectProps.

Lemma local_is_report_or_file (e : Event) :
  isRemote e = false -> isLocalReport e = true \/ isFile e = true.
Proof. destruct e; cbn; auto; discriminate. Qed.

(** What [prepare] emits satisfies any [Q] that holds of everything local
    and of the two look-ups of the connection step. *)
Lemma emitsOnly_prepare_early (Q : Event -> bool) (W : World) :
  (forall e, isRemote e = false -> Q e = true) ->
  (forall o r, Q (ERemote (ReposGet o r)) = true) ->
  (forall o r ref, Q (ERemote (GitGetRef o r ref)) = true) ->
  emitsOnly Q (prepare W).
Proof.
  intros Hl Hg Hr.
  assert (R : forall e, isLocalReport e = true -> Q e = true).
  { intros e H. apply Hl. destruct e; auto; discriminate. }
  assert (F : forall e, isFile e = true -> Q e = true).
  { intros e H. apply Hl. destruct e; auto; discriminate. }
  unfold prepare. emits;
    auto using emitsOnly_validateInputs, emitsOnly_render, emitsOnly_spliceDocument.
  unfold connect. emits; auto.
Qed.

Lemma emitsOnly_reconcile_addressed (W : World) (p : Prepared) :
  emitsOnly (addressedTo W p) (reconcile W p).
Proof.
  unfold reconcile, ensureBranch, commitFile, getFileSha, upsertPR.
  emits;
    unfold addressedTo, createRefCall, updateRefCall, deleteRefCall,
      getContentCall, commitCall;
    rewrite ?String.eqb_refl; reflexivity.
Qed.

(** Once the tip of the default branch is known, every remote call of the
    run that names a branch, a path, a title or a content names those of
    this run: refs are created, moved (never with force) and deleted only
    for the validated working branch and only at the tip found; the
    content calls name the document path on the working branch and carry
    the base64 form of the document that was written to disk; the
    pull-request calls have the working branch as head and the default
    branch found as base. *)
Theorem remote_calls_are_addressed (W : World) (p : Prepared) (tr : list Event) :
  prepare W [] = (Val p, tr) ->
  forallb (addressedTo W p) (run W) = true /\
  prBranch (config p) = branchOf W /\
  invalidBranch (branchOf W) = false /\
  In (EWriteFile (fullPath (config p)) (content (result p))) (run W).
Proof.
  intros Hp.
  assert (Ht : forallb (addressedTo W p) tr = true).
  { eapply DriverTheorems.stage_events; [|exact Hp|reflexivity].
    apply emitsOnly_prepare_early; try reflexivity.
    intros e H. destruct e; try reflexivity; discriminate. }
  destruct (finish_extends (reconcile W p) tr (addressedTo W p)
              (emitsOnly_reconcile_addressed W p)) as (rest & E & F);
    [reflexivity|].
  rewrite (body_after_prepare _ _ _ Hp), E.
  pose proof Hp as Hp'. rewrite prepare_after_local in Hp'.
  apply bind_inv in Hp' as ([[cfg r] res] & t1 & Hl & Hc).
  apply bind_inv in Hc as (cn & t2 & Hc & Hv).
  unfold ret in Hv. cbn [fst snd] in Hv. injection Hv as <- <-.
  cbn [config result].
  destruct (localPart_val _ _ _ _ _ Hl) as ((ws & Et) & Hb & Hi).
  repeat split; auto.
  - now rewrite forallb_app, Ht, F.
  - destruct (DriverTheorems.stage_extends (connect W) t1 _ _
                (emitsOnly_connect anyEvent (fun _ _ => eq_refl) (fun _ _ => eq_refl) W)
                Hc) as (s & ->).
    rewrite Et, !in_app_iff. left. left. right. right. cbn. auto.
Qed.

Lemma remote_calls_are_addressed_witness :
  exists p tr,
    prepare happy [] = (Val p, tr) /\
    forallb (addressedTo happy p) (run happy) = true.
Proof.
  do 2 eexists. split; [vm_compute; reflexivity|].
  refine (proj1 (remote_calls_are_addressed _ _ _ _)). vm_compute; reflexivity.
Defined.

(** *** The order of the write, the masking and the first call *)

Lemma noCallBefore_quiet (g : Event -> bool) (l : list Event) :
  callsOf l = [] -> noCallBefore g l = true.
Proof.
  induction l as [|e l IH]; [reflexivity|]. cbn [noCallBefore].
  destruct (g e); [reflexivity|]. destruct e; cbn; auto; discriminate.
Qed.

Lemma noCallBefore_found (g : Event -> bool) (l1 l2 : list Event) (e : Event) :
  callsOf l1 = [] -> g e = true -> noCallBefore g (l1 ++ e :: l2) = true.
Proof.
  intros H G. induction l1 as [|x l1 IH]; cbn [Datatypes.app noCallBefore].
  - now rewrite G.
  - destruct (g x); [reflexivity|].
    destruct x; cbn in *; auto; discriminate.
Qed.

Lemma emitsOnly_localPart_notSecret (W : World) : emitsOnly notSecret (localPart W).
Proof.
  unfold localPart, validateInputs, getInputRequired, render, spliceDocument.
  emits.
Qed.

Lemma emitsOnly_reconcile_notSecret (W : World) (p : Prepared) :
  emitsOnly notSecret (reconcile W p).
Proof.
  unfold reconcile, ensureBranch, commitFile, getFileSha, upsertPR. emits.
Qed.

Lemma run_of_local (W : World) (o : Outcome (Config * Rendered * UpdateResult))
    (tr : list Event) :
  localPart W [] = (o, tr) ->
  run W = match o with
          | Val (cfg, r, res) => finish (remotePart W cfg r res tr)
          | Return => tr
          | Throw e => (tr ++ [ESetFailed (topLevelMessage e)])%list
          end.
Proof.
  intros H. destruct o as [[[cfg r] res]| |e].
  - now apply run_after_local.
  - now apply run_after_local_exit.
  - rewrite run_finish. unfold body, bind. rewrite prepare_after_local.
    unfold bind. now rewrite H.
Qed.

Lemma not_in_when_all (Q : Event -> bool) (l : list Event) (e : Event) :
  forallb Q l = true -> Q e = false -> ~ In e l.
Proof.
  intros F N I. rewrite forallb_forall in F. specialize (F e I). congruence.
Qed.

(** How the run goes on once the local part has succeeded and there is a
    token: the token is masked next, and never again. *)
Lemma run_with_token (W : World) x (tr : list Event) (t : string) :
  localPart W [] = (Val x, tr) ->
  tokenOf W = Some t -> truthy t = true ->
  exists rest, run W = (tr ++ ESetSecret t :: rest)%list /\
               forallb notSecret rest = true.
Proof.
  intros Hl Ht Htt. destruct x as [[cfg r] res].
  rewrite (run_after_local _ _ _ _ _ Hl). unfold remotePart, bind.
  pose proof (connect_after_local W _ tr t Hl Ht Htt) as C. cbv zeta in C.
  assert (L : forallb notSecret (snd (branchLookup W [])) = true).
  { unfold branchLookup. destruct (repos_get W _); reflexivity. }
  destruct (git_getRef W _) as [e|sha]; rewrite C.
  - cbn [finish].
    exists (snd (branchLookup W []) ++
            [ERemote (getRefCall W (fst (branchLookup W [])));
             ESetFailed (topLevelMessage e)])%list.
    split.
    + rewrite <- !app_assoc. cbn [Datatypes.app]. reflexivity.
    + rewrite !forallb_app, L. reflexivity.
  - match goal with |- context [reconcile W ?p ?t0] =>
      destruct (finish_extends (reconcile W p) t0 notSecret
                  (emitsOnly_reconcile_notSecret W p)) as (rest & E & F);
        [reflexivity|]
    end.
    rewrite E.
    exists (snd (branchLookup W []) ++
            [ERemote (getRefCall W (fst (branchLookup W [])))] ++ rest)%list.
    split.
    + rewrite <- !app_assoc. cbn [Datatypes.app]. reflexivity.
    + rewrite !forallb_app, L, F. reflexivity.
Qed.

(** In every run, no remote call is made before the document has been
    written to disk, nor before the token has been masked with
    [core.setSecret]; and the only value ever masked is the token (the
    input, or else the environment variable). *)
Theorem calls_follow_write_and_mask (W : World) :
  noCallBefore isWrite (run W) = true /\
  noCallBefore isSecret (run W) = true /\
  forall t, In (ESetSecret t) (run W) -> tokenOf W = Some t /\ truthy t = true.
Proof.
  destruct (localPart W []) as [o tr] eqn:L.
  assert (Q : callsOf tr = []).
  { apply no_calls.
    exact (local_events notRemote W o tr notRemote_report notRemote_file L). }
  assert (S : forallb notSecret tr = true).
  { eapply DriverTheorems.stage_events;
      [apply emitsOnly_localPart_notSecret | exact L | reflexivity]. }
  assert (Quiet : forall l, callsOf l = [] -> forallb notSecret l = true ->
            run W = l ->
            noCallBefore isWrite (run W) = true /\
            noCallBefore isSecret (run W) = true /\
            forall t, In (ESetSecret t) (run W) ->
                      tokenOf W = Some t /\ truthy t = true).
  { intros l Hc Hs ->. repeat split; try now apply noCallBefore_quiet.
    all: exfalso; revert H; now apply not_in_when_all with (Q := notSecret). }
  pose proof (run_of_local W o tr L) as R.
  destruct o as [[[cfg r] res]| |e].
  - destruct (truthyOpt (tokenOf W)) eqn:T.
    + apply token_present in T as (t & Ht & Htt).
      destruct (run_with_token W _ tr t L Ht Htt) as (rest & E & F).
      destruct (localPart_val _ _ _ _ _ L) as ((ws & Et) & _).
      split; [|split].
      * rewrite E, Et.
        replace ((map EWarning ws ++ renderReport cfg r ++
                  [EReadFile (fullPath cfg); EWriteFile (fullPath cfg) (content res);
                   writtenInfo]) ++ ESetSecret t :: rest)%list
          with ((map EWarning ws ++ renderReport cfg r ++ [EReadFile (fullPath cfg)]) ++
                EWriteFile (fullPath cfg) (content res) ::
                writtenInfo :: ESetSecret t :: rest)%list
          by (rewrite <- !app_assoc; reflexivity).
        apply noCallBefore_found; [|reflexivity].
        now rewrite !callsOf_app, callsOf_warnings.
      * rewrite E. now apply noCallBefore_found.
      * intros t' I. rewrite E, in_app_iff in I. destruct I as [I|[I|I]].
        -- exfalso. revert I. now apply not_in_when_all with (Q := notSecret).
        -- injection I as <-. auto.
        -- exfalso. revert I. now apply not_in_when_all with (Q := notSecret).
    + destruct (missing_token_run W cfg r res tr L T) as [E _].
      apply (Quiet (tr ++ [ESetFailed noTokenMessage])%list);
        [rewrite callsOf_app, Q | rewrite forallb_app, S | exact E]; reflexivity.
  - now apply (Quiet tr).
  - apply (Quiet (tr ++ [ESetFailed (topLevelMessage e)])%list);
      [rewrite callsOf_app, Q | rewrite forallb_app, S | exact R]; reflexivity.
Qed.

(** *** Failures come last *)

Lemma forallb_removelast {A} (Q : A -> bool) (l : list A) :
  forallb Q l = true -> forallb Q (removelast l) = true.
Proof.
  induction l as [|a l IH]; [auto|]. cbn [forallb]. rewrite andb_true_iff.
  intros [Ha Hl]. destruct l as [|b l]; [reflexivity|].
  change (removelast (a :: b :: l)) with (a :: removelast (b :: l)).
  cbn [forallb]. now rewrite Ha, IH.
Qed.

Lemma forallb_removelast_app {A} (Q : A -> bool) (l1 l2 : list A) :
  forallb Q l1 = true -> forallb Q (removelast l2) = true ->
  forallb Q (removelast (l1 ++ l2)) = true.
Proof.
  intros H1 H2. destruct l2 as [|b l2].
  - rewrite app_nil_r. now apply forallb_removelast.
  - rewrite removelast_app by discriminate. now rewrite forallb_app, H1, H2.
Qed.

Lemma orderly_ret {A} (a : A) : orderly (ret a).
Proof. intros tr. exists []. now rewrite app_nil_r. Qed.

Lemma orderly_returnNow {A} : orderly (@returnNow A).
Proof. intros tr. exists []. now rewrite app_nil_r. Qed.

Lemma orderly_throw {A} e : orderly (@throw A e).
Proof. intros tr. exists []. now rewrite app_nil_r. Qed.

Lemma orderly_emit e : notFailure e = true -> orderly (emit e).
Proof. intros H tr. exists [e]. cbn. now rewrite H. Qed.

Lemma orderly_fail {A} msg : orderly (emit (ESetFailed msg) ;;; @returnNow A).
Proof. intros tr. exists [ESetFailed msg]. split; reflexivity. Qed.

Lemma orderly_remote {A} c (answer : list Call -> Thrown + A) :
  orderly (remote c answer).
Proof.
  intros tr. exists [ERemote c]. unfold remote.
  destruct (answer _); split; reflexivity.
Qed.

Lemma orderly_bind {A B} (m : M A) (k : A -> M B) :
  orderly m -> (forall a, orderly (k a)) -> orderly (bind m k).
Proof.
  intros Hm Hk tr. unfold bind.
  destruct (Hm tr) as (s1 & E1 & F1).
  destruct (m tr) as [[a| |e] tr1]; cbn [fst snd] in E1, F1; subst tr1.
  - destruct (Hk a (tr ++ s1)%list) as (s2 & E2 & F2).
    exists (s1 ++ s2)%list. rewrite E2, app_assoc. split; [reflexivity|].
    destruct (fst (k a (tr ++ s1)%list)).
    + now rewrite forallb_app, F1, F2.
    + now apply forallb_removelast_app.
    + now rewrite forallb_app, F1, F2.
  - exists s1. auto.
  - exists s1. auto.
Qed.

Lemma orderly_tryCatch {A} (m : M A) (h : Thrown -> M A) :
  orderly m -> (forall e, orderly (h e)) -> orderly (tryCatch m h).
Proof.
  intros Hm Hh tr. unfold tryCatch.
  destruct (Hm tr) as (s1 & E1 & F1).
  destruct (m tr) as [[a| |e] tr1]; cbn [fst snd] in E1, F1; subst tr1.
  - exists s1. auto.
  - exists s1. auto.
  - destruct (Hh e (tr ++ s1)%list) as (s2 & E2 & F2).
    exists (s1 ++ s2)%list. rewrite E2, app_assoc. split; [reflexivity|].
    destruct (fst (h e (tr ++ s1)%list)).
    + now rewrite forallb_app, F1, F2.
    + now apply forallb_removelast_app.
    + now rewrite forallb_app, F1, F2.
Qed.

Lemma orderly_forEach {A} (l : list A) (f : A -> M unit) :
  (forall x, orderly (f x)) -> orderly (forEach l f).
Proof.
  intros H. induction l as [|x l IH]; cbn [forEach].
  - apply orderly_ret.
  - apply orderly_bind; auto.
Qed.

(** Breaks a goal [orderly m] down along the structure of [m]. *)
Ltac orders_step :=
  match goal with
  | |- orderly (bind (emit (ESetFailed _)) (fun _ => returnNow)) => apply orderly_fail
  | |- orderly (bind _ _) => apply orderly_bind
  | |- orderly (tryCatch _ _) => apply orderly_tryCatch
  | |- orderly (forEach _ _) => apply orderly_forEach
  | |- orderly (ret _) => apply orderly_ret
  | |- orderly returnNow => apply orderly_returnNow
  | |- orderly (throw _) => apply orderly_throw
  | |- orderly (emit _) => apply orderly_emit
  | |- orderly (remote _ _) => apply orderly_remote
  | |- orderly (if ?c then _ else _) => destruct c
  | |- orderly (match ?x with _ => _ end) => destruct x
  | |- orderly (let _ := _ in _) => cbv zeta
  | |- forall _, _ => intro
  end.

Ltac orders := repeat orders_step; try reflexivity.

Lemma orderly_body (W : World) : orderly (body W).
Proof.
  unfold body, prepare, reconcile, validateInputs, getInputRequired, render,
    spliceDocument, connect, ensureBranch, commitFile, getFileSha, upsertPR.
  orders.
Qed.

Lemma one_failure_at_most (l : list Event) :
  forallb notFailure (removelast l) = true ->
  List.length (filter isFailure l) <= 1.
Proof.
  intros H. destruct l as [|a l]; [cbn; lia|].
  rewrite (app_removelast_last a (l := a :: l)) by discriminate.
  rewrite filter_app, length_app.
  assert (E : filter isFailure (removelast (a :: l)) = []).
  { revert H. generalize (removelast (a :: l)). intros k.
    induction k as [|x k IH]; cbn; [auto|]. unfold notFailure at 1.
    rewrite andb_true_iff, negb_true_iff. intros [-> Hk]. auto. }
  rewrite E. cbn. destruct (isFailure _); cbn; lia.
Qed.

(** In every run nothing follows a failure report: when [core.setFailed]
    is called, it is the last thing the run does, so a run reports at
    most one failure and makes no remote call, file access or report
    after it. *)
Theorem failure_ends_the_run (W : World) :
  forallb notFailure (removelast (run W)) = true /\
  List.length (filter isFailure (run W)) <= 1.
Proof.
  assert (H : forallb notFailure (removelast (run W)) = true).
  { rewrite run_finish. destruct (orderly_body W []) as (suf & E & F).
    destruct (body W []) as [[[]| |e] tr]; cbn [fst snd Datatypes.app] in E, F; subst tr;
      cbn [finish].
    - now apply forallb_removelast.
    - exact F.
    - now rewrite removelast_last. }
  split; [exact H|]. now apply one_failure_at_most.
Qed.

End RunInvariants.

(** ** The pull request and the first commit *)

Module PullRequestProps.

Import Badges Readme Index Scenario Spec Extra.
Import StringFacts MonadFacts UrlFacts DriverFacts RunFacts LocalProps ConnectProps.

(** The five ways through the pull-request step, by the remote's answers. *)
Lemma upsertPR_cases (W : World) (cfg : Config) (r : Rendered) (cn : Conn)
    (tr : list Event) :
  let h := callsOf tr in
  let list_ := pullsListCall W cfg in
  upsertPR W cfg r cn tr =
  match pulls_list W (h ++ [list_])%list with
  | inl e => (Return, tr ++ [ERemote list_; prFailure cfg e])
  | inr (pr0 :: _) =>
      let update := pullsUpdateCall W cfg r pr0 in
      match pulls_update W (h ++ [list_; update])%list with
      | inl e => (Return, tr ++ [ERemote list_; ERemote update; prFailure cfg e])
      | inr _ =>
          (Val tt, tr ++ [ERemote list_; ERemote update;
                          EInfo ("Updated existing PR #" ++ natToString (number pr0))] ++
                   prOutputs pr0)
      end
  | inr [] =>
      let create := pullsCreateCall W cfg r cn in
      match pulls_create W (h ++ [list_; create])%list with
      | inl e => (Return, tr ++ [ERemote list_; ERemote create; prFailure cfg e])
      | inr pr =>
          (Val tt, tr ++ [ERemote list_; ERemote create;
                          EInfo ("Created PR #" ++ natToString (number pr) ++ ": " ++
                                 html_url pr)] ++
                   prOutputs pr)
      end
  end%list.
Proof.
  intros h list_. subst h.
  unfold upsertPR, tryCatch, bind, remote, emit, returnNow, prFailure,
    prFailedMessage, prOutputs, pullsUpdateCall, pullsCreateCall.
  fold (pullsListCall W cfg). fold list_. flatten_traces.
  destruct (pulls_list W _) as [e|[|pr0 more]]; flatten_traces; [reflexivity| |].
  - destruct (pulls_create W _) as [e|pr]; flatten_traces; reflexivity.
  - destruct (pulls_update W _) as [e|[]]; flatten_traces; reflexivity.
Qed.

Lemma body_via_commit (W : World) (tr : list Event) :
  body W tr =
  (p <- upToCommit W ;; upsertPR W (config p) (rendered p) (conn p)) tr.
Proof.
  unfold body, upToCommit, reconcile, bind, ret.
  destruct (prepare W tr) as [[p| |e] t1]; try reflexivity.
  destruct (ensureBranch W (config p) (conn p) t1) as [[[]| |e] t2]; try reflexivity.
  destruct (getFileSha W (config p) t2) as [[sha| |e] t3]; try reflexivity.
  destruct (commitFile W (config p) (result p) sha t3) as [[[]| |e] t4]; reflexivity.
Qed.

Lemma run_after_commit (W : World) (p : Prepared) (tr : list Event) :
  upToCommit W [] = (Val p, tr) ->
  run W = finish (upsertPR W (config p) (rendered p) (conn p) tr).
Proof.
  intros H. rewrite run_finish, body_via_commit.
  now rewrite (bind_val _ _ _ _ _ H).
Qed.

Lemma commitFile_val (W : World) cfg res sha (tr tr' : list Event) :
  commitFile W cfg res sha tr = (Val tt, tr') ->
  exists pre, tr' = (pre ++ [committedInfo])%list /\
              existsb isCommitEvent pre = true.
Proof.
  pose proof (commitFile_cases W cfg res sha tr) as C. cbv zeta in C.
  destruct (repos_createOrUpdateFileContents W _) as [e1|[]].
  - destruct (repos_createOrUpdateFileContents W _) as [e2|[]];
      rewrite C; [discriminate|].
    intros [= <-].
    exists (tr ++ [ERemote (commitCall W cfg res sha); retryWarning e1;
                   ERemote (getContentCall W cfg);
                   ERemote (commitCall W cfg res
                     (revisionMarkerAt W
                        (callsOf tr ++ [commitCall W cfg res sha;
                                        getContentCall W cfg])))])%list.
    split; [now rewrite <- app_assoc|].
    rewrite existsb_app. cbn. apply orb_true_r.
  - rewrite C. intros [= <-].
    exists (tr ++ [ERemote (commitCall W cfg res sha)])%list.
    split; [now rewrite <- app_assoc|].
    rewrite existsb_app. cbn. apply orb_true_r.
Qed.

(** When [run] gets past the commit, the commit's confirmation is the
    last thing in the trace. *)
Lemma upToCommit_val (W : World) (p : Prepared) (tr : list Event) :
  upToCommit W [] = (Val p, tr) ->
  exists pre, tr = (pre ++ [committedInfo])%list /\
              existsb isCommitEvent pre = true.
Proof.
  unfold upToCommit. intros H.
  apply bind_inv in H as (p' & t1 & _ & H).
  apply bind_inv in H as ([] & t2 & _ & H).
  apply bind_inv in H as (sha & t3 & _ & H).
  apply bind_inv in H as ([] & t4 & Hc & H).
  unfold ret in H. injection H as <- <-.
  now apply commitFile_val in Hc.
Qed.

(** When the working branch has an open pull request, the run updates the
    first one listed, with the configured title and the generated body,
    and reports its number and URL as outputs; it opens no pull request. *)
Theorem open_pull_request_is_updated (W : World) (p : Prepared) (tr : list Event)
    (pr0 : PullRequest) (more : list PullRequest) :
  upToCommit W [] = (Val p, tr) ->
  pulls_list W (callsOf tr ++ [pullsListCall W (config p)])%list = inr (pr0 :: more) ->
  pulls_update W (callsOf tr ++ [pullsListCall W (config p);
                                 pullsUpdateCall W (config p) (rendered p) pr0])%list
    = inr tt ->
  run W = (tr ++ [ERemote (pullsListCall W (config p));
                  ERemote (pullsUpdateCall W (config p) (rendered p) pr0);
                  EInfo ("Updated existing PR #" ++ natToString (number pr0));
                  ESetOutput "pr-number" (natToString (number pr0));
                  ESetOutput "pr-url" (html_url pr0)])%list.
Proof.
  intros Hc Hl Hu. rewrite (run_after_commit _ _ _ Hc).
  pose proof (upsertPR_cases W (config p) (rendered p) (conn p) tr) as C.
  cbv zeta in C. rewrite Hl, Hu in C. now rewrite C.
Qed.

Lemma open_pull_request_is_updated_witness :
  exists p tr,
    upToCommit
      (withPulls happy
         (fun _ => inr [mkPullRequest 10 "https://github.com/test/pr/10";
                        mkPullRequest 11 "https://github.com/test/pr/11"])
         (pulls_update happy) (pulls_create happy)) [] = (Val p, tr) /\
    run
      (withPulls happy
         (fun _ => inr [mkPullRequest 10 "https://github.com/test/pr/10";
                        mkPullRequest 11 "https://github.com/test/pr/11"])
         (pulls_update happy) (pulls_create happy)) =
    (tr ++ [ERemote (pullsListCall
                (withPulls happy
                   (fun _ => inr [mkPullRequest 10 "https://github.com/test/pr/10";
                                  mkPullRequest 11 "https://github.com/test/pr/11"])
                   (pulls_update happy) (pulls_create happy)) (config p));
            ERemote (pullsUpdateCall
                (withPulls happy
                   (fun _ => inr [mkPullRequest 10 "https://github.com/test/pr/10";
                                  mkPullRequest 11 "https://github.com/test/pr/11"])
                   (pulls_update happy) (pulls_create happy)) (config p) (rendered p)
                (mkPullRequest 10 "https://github.com/test/pr/10"));
            EInfo ("Updated existing PR #" ++
                   natToString (number (mkPullRequest 10 "https://github.com/test/pr/10")));
            ESetOutput "pr-number"
              (natToString (number (mkPullRequest 10 "https://github.com/test/pr/10")));
            ESetOutput "pr-url"
              (html_url (mkPullRequest 10 "https://github.com/test/pr/10"))])%list.
Proof.
  do 2 eexists. split; [vm_compute; reflexivity|].
  refine (open_pull_request_is_updated _ _ _ _
            [mkPullRequest 11 "https://github.com/test/pr/11"] _ _ _);
    vm_compute; reflexivity.
Defined.

(** When the working branch has no open pull request, the run opens one
    from the working branch onto the default branch found, with the
    configured title and the generated body, and reports the number and
    URL the remote answers as outputs. *)
Theorem missing_pull_request_is_opened (W : World) (p : Prepared) (tr : list Event)
    (pr : PullRequest) :
  upToCommit W [] = (Val p, tr) ->
  pulls_list W (callsOf tr ++ [pullsListCall W (config p)])%list = inr [] ->
  pulls_create W (callsOf tr ++ [pullsListCall W (config p);
                                 pullsCreateCall W (config p) (rendered p) (conn p)])%list
    = inr pr ->
  run W = (tr ++ [ERemote (pullsListCall W (config p));
                  ERemote (PullsCreate (context_owner W) (context_repo W)
                             (prTitle (config p)) (prBody (config p) (rendered p))
                             (prBranch (config p)) (defaultBranch (conn p)));
                  EInfo ("Created PR #" ++ natToString (number pr) ++ ": " ++
                         html_url pr);
                  ESetOutput "pr-number" (natToString (number pr));
                  ESetOutput "pr-url" (html_url pr)])%list.
Proof.
  intros Hc Hl Hu. rewrite (run_after_commit _ _ _ Hc).
  pose proof (upsertPR_cases W (config p) (rendered p) (conn p) tr) as C.
  cbv zeta in C. rewrite Hl, Hu in C. now rewrite C.
Qed.

Lemma missing_pull_request_is_opened_witness :
  exists p tr,
    upToCommit happy [] = (Val p, tr) /\
    run happy =
    (tr ++ [ERemote (pullsListCall happy (config p));
            ERemote (PullsCreate (context_owner happy) (context_repo happy)
                       (prTitle (config p)) (prBody (config p) (rendered p))
                       (prBranch (config p)) (defaultBranch (conn p)));
            EInfo ("Created PR #" ++
                   natToString (number (mkPullRequest 42 "https://github.com/test/pr/42")) ++
                   ": " ++ html_url (mkPullRequest 42 "https://github.com/test/pr/42"));
            ESetOutput "pr-number"
              (natToString (number (mkPullRequest 42 "https://github.com/test/pr/42")));
            ESetOutput "pr-url"
              (html_url (mkPullRequest 42 "https://github.com/test/pr/42"))])%list.
Proof.
  do 2 eexists. split; [vm_compute; reflexivity|].
  refine (missing_pull_request_is_opened _ _ _ _ _ _ _); vm_compute; reflexivity.
Defined.

Lemma emitsOnly_upToCommit_quiet (W : World) :
  emitsOnly (fun e => notPrOutput e && notPullRequestWrite e) (upToCommit W).
Proof.
  unfold upToCommit, prepare, validateInputs, getInputRequired, render,
    spliceDocument, connect, ensureBranch, commitFile, getFileSha.
  emits.
Qed.

Lemma upToCommit_quiet (W : World) o (tr : list Event) :
  upToCommit W [] = (o, tr) ->
  forallb notPrOutput tr = true /\
  filter isPullRequestWriteEvent tr = [] /\
  existsb isPullRequestWriteEvent tr = false.
Proof.
  intros H.
  assert (F : forallb (fun e => notPrOutput e && notPullRequestWrite e) tr = true).
  { eapply DriverTheorems.stage_events;
      [apply emitsOnly_upToCommit_quiet | exact H | reflexivity]. }
  clear H. induction tr as [|e tr IH]; [cbn; auto|].
  cbn [forallb filter existsb] in *.
  apply andb_true_iff in F as [He Ht]. apply andb_true_iff in He as [H1 H2].
  destruct (IH Ht) as (I1 & I2 & I3). rewrite H1, I1, I3.
  assert (N : isPullRequestWriteEvent e = false).
  { destruct e; try reflexivity. cbn in *. now apply negb_true_iff. }
  rewrite N. auto.
Qed.

(** When a call of the pull-request step fails (listing, updating or
    opening), the run does not throw and does not try again: it reports
    one failure, which names the error and says that the badge changes
    were committed to the working branch, and ends.  The commit made
    before stays, and neither pull-request output is set. *)
Theorem pull_request_failure_is_reported (W : World) (p : Prepared)
    (tr : list Event) :
  upToCommit W [] = (Val p, tr) ->
  let list_ := pullsListCall W (config p) in
  let create := pullsCreateCall W (config p) (rendered p) (conn p) in
  (forall err,
     pulls_list W (callsOf tr ++ [list_])%list = inl err ->
     run W = (tr ++ [ERemote list_; prFailure (config p) err])%list) /\
  (forall pr0 more err,
     pulls_list W (callsOf tr ++ [list_])%list = inr (pr0 :: more) ->
     pulls_update W (callsOf tr ++
                     [list_; pullsUpdateCall W (config p) (rendered p) pr0])%list
       = inl err ->
     run W = (tr ++ [ERemote list_;
                     ERemote (pullsUpdateCall W (config p) (rendered p) pr0);
                     prFailure (config p) err])%list) /\
  (forall err,
     pulls_list W (callsOf tr ++ [list_])%list = inr [] ->
     pulls_create W (callsOf tr ++ [list_; create])%list = inl err ->
     run W = (tr ++ [ERemote list_; ERemote create;
                     prFailure (config p) err])%list) /\
  In committedInfo tr /\
  forallb notPrOutput tr = true.
Proof.
  intros Hc list_ create.
  pose proof (upsertPR_cases W (config p) (rendered p) (conn p) tr) as C.
  cbv zeta in C. fold list_ create in C.
  rewrite (run_after_commit _ _ _ Hc), C.
  split; [|split; [|split; [|split]]].
  - now intros err ->.
  - now intros pr0 more err -> ->.
  - now intros err -> ->.
  - destruct (upToCommit_val _ _ _ Hc) as (pre & -> & _).
    rewrite in_app_iff. right. cbn. auto.
  - exact (proj1 (upToCommit_quiet _ _ _ Hc)).
Qed.

Lemma pull_request_failure_is_reported_witness :
  exists p tr,
    upToCommit
      (withPulls happy (fun _ => inl (ErrorObj "PR list failed"))
         (pulls_update happy) (pulls_create happy)) [] = (Val p, tr) /\
    run (withPulls happy (fun _ => inl (ErrorObj "PR list failed"))
           (pulls_update happy) (pulls_create happy)) =
    (tr ++ [ERemote (pullsListCall
              (withPulls happy (fun _ => inl (ErrorObj "PR list failed"))
                 (pulls_update happy) (pulls_create happy)) (config p));
            prFailure (config p) (ErrorObj "PR list failed")])%list.
Proof.
  do 2 eexists. split; [vm_compute; reflexivity|].
  refine (proj1 (pull_request_failure_is_reported _ _ _ _) _ _);
    vm_compute; reflexivity.
Defined.

Lemma starts_with_quiet_part (g : Event -> bool) (l1 l2 pre post : list Event)
    (e : Event) :
  (l1 ++ l2)%list = (pre ++ e :: post)%list ->
  existsb g l1 = false -> g e = true ->
  exists k, pre = (l1 ++ k)%list.
Proof.
  revert pre. induction l1 as [|a l1 IH]; intros pre E Q G.
  - now exists pre.
  - cbn [existsb] in Q. apply orb_false_iff in Q as [Qa Ql].
    destruct pre as [|b pre]; cbn [Datatypes.app] in E; injection E as -> E.
    + congruence.
    + destruct (IH pre E Ql G) as (k & ->). now exists k.
Qed.

(** In every run at most one call writes a pull request (an update or an
    opening, never both, never twice), and it comes after the commit:
    wherever the run writes a pull request, a commit call and the
    confirmation of the commit stand before it in the trace. *)
Theorem one_pull_request_write_at_most (W : World) :
  List.length (filter isPullRequestWriteEvent (run W)) <= 1 /\
  (forall pre e post,
     run W = (pre ++ e :: post)%list ->
     isPullRequestWriteEvent e = true ->
     In committedInfo pre /\ existsb isCommitEvent pre = true).
Proof.
  destruct (upToCommit W []) as [o tr] eqn:U.
  destruct (upToCommit_quiet _ _ _ U) as (_ & F & X).
  assert (Never : forall l, existsb isPullRequestWriteEvent l = false ->
            forall pre e post, l = (pre ++ e :: post)%list ->
            isPullRequestWriteEvent e = true -> False).
  { intros l Q pre e post -> G.
    rewrite existsb_app in Q. cbn [existsb] in Q. rewrite G in Q.
    now rewrite orb_true_r in Q. }
  destruct o as [p| |e].
  - pose proof (upsertPR_cases W (config p) (rendered p) (conn p) tr) as C.
    cbv zeta in C. rewrite (run_after_commit _ _ _ U), C.
    destruct (upToCommit_val _ _ _ U) as (pre0 & E & Hcommit).
    split.
    + destruct (pulls_list W _) as [e|[|pr0 more]];
        [| destruct (pulls_create W _) | destruct (pulls_update W _)];
        cbn [finish]; rewrite filter_app, length_app, F; cbn; lia.
    + intros pre e post R G.
      assert (K : exists k, pre = (tr ++ k)%list).
      { destruct (pulls_list W _) as [e0|[|pr0 more]];
          [| destruct (pulls_create W _) | destruct (pulls_update W _)];
          cbn [finish] in R;
          exact (starts_with_quiet_part _ _ _ _ _ _ R X G). }
      destruct K as (k & ->). rewrite E. split.
      * rewrite !in_app_iff. left. right. cbn. auto.
      * now rewrite !existsb_app, Hcommit.
  - rewrite run_finish, body_via_commit.
    erewrite bind_return by exact U. cbn [finish]. rewrite F.
    split; [cbn; lia|]. intros pre e post R G.
    destruct (Never _ X _ _ _ R G).
  - rewrite run_finish, body_via_commit.
    erewrite bind_throw by exact U. cbn [finish].
    rewrite filter_app, F. split; [cbn; lia|]. intros pre e0 post R G.
    refine (match Never _ _ _ _ _ R G with end).
    now rewrite existsb_app, X.
Qed.

(** *** The revision marker of the first commit *)

Lemma body_via_branch (W : World) (tr : list Event) :
  body W tr =
  (p <- upToBranch W ;;
   fileSha <- getFileSha W (config p) ;;
   commitFile W (config p) (result p) fileSha ;;;
   upsertPR W (config p) (rendered p) (conn p)) tr.
Proof.
  unfold body, upToBranch, reconcile, bind, ret.
  destruct (prepare W tr) as [[p| |e] t1]; try reflexivity.
  destruct (ensureBranch W (config p) (conn p) t1) as [[[]| |e] t2]; reflexivity.
Qed.

Lemma commitFile_starts (W : World) cfg res sha (tr : list Event) :
  exists more,
    snd (commitFile W cfg res sha tr) =
    (tr ++ ERemote (commitCall W cfg res sha) :: more)%list.
Proof.
  pose proof (commitFile_cases W cfg res sha tr) as C. cbv zeta in C.
  destruct (repos_createOrUpdateFileContents W _) as [e1|[]].
  - destruct (repos_createOrUpdateFileContents W _) as [e2|[]];
      rewrite C; eexists; reflexivity.
  - rewrite C. eexists. reflexivity.
Qed.

(** Once the working branch is in place, the run asks for the document
    on that branch and then commits.  The first commit carries the
    revision marker of the answer when the answer is a single entry of
    type [file]; when the look-up fails, or answers a directory listing
    or an entry of another type, the error is swallowed and the commit
    carries no marker. *)
Theorem first_commit_carries_branch_marker (W : World) (p : Prepared)
    (tr : list Event) :
  upToBranch W [] = (Val p, tr) ->
  let fetch :=
    ReposGetContent (context_owner W) (context_repo W)
      (readmePath (config p)) (prBranch (config p)) in
  let marker :=
    match repos_getContent W (callsOf tr ++ [fetch])%list with
    | inr (ContentObject type sha) => if type =? "file" then Some sha else None
    | inr ContentArray => None
    | inl _ => None
    end in
  exists rest,
    run W =
    (tr ++ [ERemote fetch;
            ERemote (ReposCreateOrUpdateFileContents
                       (context_owner W) (context_repo W)
                       (readmePath (config p)) (prTitle (config p))
                       (toBase64 (content (result p))) marker
                       (prBranch (config p)))] ++ rest)%list.
Proof.
  intros Hb fetch marker.
  change (ReposCreateOrUpdateFileContents (context_owner W) (context_repo W)
            (readmePath (config p)) (prTitle (config p))
            (toBase64 (content (result p))) marker (prBranch (config p)))
    with (commitCall W (config p) (result p) marker).
  change fetch with (getContentCall W (config p)) in *.
  rewrite run_finish, body_via_branch, (bind_val _ _ _ _ _ Hb).
  unfold bind at 1. rewrite getFileSha_run.
  assert (M : revisionMarkerAt W (callsOf tr ++ [getContentCall W (config p)])%list
              = marker).
  { unfold revisionMarkerAt, marker, fetch, shaOfFileData.
    destruct (repos_getContent W _) as [e|[|type sha]]; reflexivity. }
  rewrite M. fold fetch. unfold bind.
  destruct (commitFile_starts W (config p) (result p) marker
              (tr ++ [ERemote fetch])%list) as (more & E).
  destruct (commitFile W (config p) (result p) marker _) as [[[]| |e] t];
    cbn [snd] in E; subst t; cbn [finish].
  - edestruct (finish_extends (upsertPR W (config p) (rendered p) (conn p))
                 ((tr ++ [ERemote fetch]) ++
                  ERemote (commitCall W (config p) (result p) marker) :: more)%list
                 anyEvent) as (rest & R & _); [|reflexivity|].
    + apply emitsOnly_upsertPR; reflexivity.
    + rewrite R. exists (more ++ rest)%list. rewrite <- !app_assoc. reflexivity.
  - exists more. rewrite <- !app_assoc. reflexivity.
  - exists (more ++ [ESetFailed (topLevelMessage e)])%list.
    rewrite <- !app_assoc. reflexivity.
Qed.

Lemma first_commit_carries_branch_marker_witness :
  exists p tr,
    upToBranch (withGetContent happy (fun _ => inr ContentArray)) [] = (Val p, tr) /\
    exists rest,
      run (withGetContent happy (fun _ => inr ContentArray)) =
      (tr ++ [ERemote (ReposGetContent "test-owner" "test-repo"
                         (readmePath (config p)) (prBranch (config p)));
              ERemote (ReposCreateOrUpdateFileContents "test-owner" "test-repo"
                         (readmePath (config p)) (prTitle (config p))
                         (toBase64 (content (result p))) None
                         (prBranch (config p)))] ++ rest)%list.
Proof.
  do 2 eexists. split; [vm_compute; reflexivity|].
  refine (first_commit_carries_branch_marker
            (withGetContent happy (fun _ => inr ContentArray)) _ _ _).
  vm_compute; reflexivity.
Defined.

End PullRequestProps.

(** ** Inputs refused at the start *)

Module InputProps.

Import Badges Readme Index Scenario Spec Extra.
Import StringFacts MonadFacts UrlFacts RunFacts LocalProps.

Lemma run_of_validateInputs (W : World) o (tr : list Event) :
  validateInputs W [] = (o, tr) ->
  (forall cfg, o <> Val cfg) ->
  run W = match o with
          | Throw e => (tr ++ [ESetFailed (topLevelMessage e)])%list
          | _ => tr
          end.
Proof.
  intros H N. rewrite run_finish. unfold body, prepare, bind. rewrite H.
  destruct o as [cfg| |e]; [now destruct (N cfg)| |]; reflexivity.
Qed.

(** The first checks of a run, in their order: a missing [products]
    input, then a working-branch name that is not allowed, then an
    unknown style, then an unknown link target.  Each of them ends the
    run with one failure report that quotes the offending value; nothing
    is parsed, read, written or sent. *)
Theorem refused_inputs_end_the_run (W : World) :
  let style := orElse (getInput W "style") "flat" in
  let linkTo := orElse (getInput W "link-to") "badge-page" in
  (truthy (rawInput W "products") = false ->
   run W = [ESetFailed "Input required and not supplied: products"]) /\
  (truthy (rawInput W "products") = true ->
   invalidBranch (branchOf W) = true ->
   run W = [ESetFailed ("Invalid pr-branch: " ++ dq ++ branchOf W ++ dq ++
                        ". Branch name contains invalid characters.")]) /\
  (truthy (rawInput W "products") = true ->
   invalidBranch (branchOf W) = false ->
   arrIncludes validStyles style = false ->
   run W = [ESetFailed ("Invalid style: " ++ dq ++ style ++ dq ++
              ". Must be one of: flat, flat-square, plastic, for-the-badge")]) /\
  (truthy (rawInput W "products") = true ->
   invalidBranch (branchOf W) = false ->
   arrIncludes validStyles style = true ->
   arrIncludes validLinkTos linkTo = false ->
   run W = [ESetFailed ("Invalid link-to value: " ++ dq ++ linkTo ++ dq ++
                        ". Must be badge-page, releaserun, or none.")]).
Proof.
  intros style linkTo. subst style linkTo. unfold branchOf.
  repeat split; intros;
    (erewrite run_of_validateInputs;
     [| unfold validateInputs, getInputRequired;
        repeat match goal with H : _ = _ |- _ => rewrite H; clear H end;
        cbn [bind ret throw negb];
        try (unfold bind at 1; cbn [ret];
             repeat match goal with H : _ = _ |- _ => rewrite H; clear H end);
        reflexivity
      | intros cfg; discriminate]);
    reflexivity.
Qed.

End InputProps.

(** ** The branch step and the commit, call by call *)

Module ReconcileTheorems.

Import JS Platform Badges Readme Index Scenario Spec Extra.
Import StringFacts MonadFacts DriverFacts RunFacts LocalProps ConnectProps.

(** What [prepare] has found out when it succeeds: the two look-ups are
    the only calls made so far, the second one asked for the head of the
    default branch, and the tip the run goes on with is the remote's
    answer to it. *)
Lemma prepare_tip (W : World) (p : Prepared) (tr : list Event) :
  prepare W [] = (Val p, tr) ->
  callsOf tr = [ReposGet (context_owner W) (context_repo W);
                GitGetRef (context_owner W) (context_repo W)
                  ("heads/" ++ defaultBranch (conn p))] /\
  git_getRef W (callsOf tr) = inr (tipSha (conn p)) /\
  defaultBranch (conn p) = fst (branchLookup W []) /\
  prBranch (config p) = branchOf W.
Proof.
  intros Hp. rewrite prepare_after_local in Hp.
  apply bind_inv in Hp as ([[cfg r] res] & t1 & Hl & Hc).
  apply bind_inv in Hc as (cn & t2 & Hc & Hv).
  unfold ret in Hv. cbn [fst snd] in Hv. injection Hv as <- <-.
  cbn [config conn].
  pose proof (connect_cases W t1) as C. cbv zeta in C.
  rewrite (localPart_calls _ _ _ Hl) in C. cbn [Datatypes.app] in C.
  rewrite Hc in C.
  destruct (negb (truthyOpt (tokenOf W))); [discriminate|].
  destruct (git_getRef W _) as [e|sha] eqn:G; [discriminate|].
  injection C as -> ->. cbn [defaultBranch tipSha].
  assert (Q : callsOf (snd (branchLookup W [])) = [reposGetCall W]).
  { unfold branchLookup. destruct (repos_get W _); reflexivity. }
  match goal with
  | |- context [(t1 ++ ?a :: ?l ++ ?z)%list] =>
      change (t1 ++ a :: l ++ z)%list with (t1 ++ [a] ++ l ++ z)%list
  end.
  rewrite !callsOf_app, (localPart_calls _ _ _ Hl), Q.
  cbn [Datatypes.app callsOf flat_map].
  repeat split; try assumption.
  now destruct (localPart_val _ _ _ _ _ Hl) as (_ & Hb & _).
Qed.

(** C1. In every run no ref update is sent with force=true.  Once the
    run has reached the branch step, the tip it works with is the
    remote's answer to the look-up of the default branch's head, the last
    call made so far (the default branch being the one the repository
    names, or the fallback when it cannot be asked).  When creating the ref of the working branch at
    that tip fails, the next remote call is an update of the ref
    [heads/<working branch>] to that tip with force=false; when that
    fails too, the next call deletes that ref; and when the deletion
    succeeds, the next call creates [refs/heads/<working branch>] again
    at that tip. *)
Theorem no_force_push :
  (forall W, forallb notForce (run W) = true) /\
  (forall W p tr e1,
     prepare W [] = (Val p, tr) ->
     let owner := context_owner W in
     let repo := context_repo W in
     let branch := branchOf W in
     let tip := tipSha (conn p) in
     let h := callsOf tr in
     let create := GitCreateRef owner repo ("refs/heads/" ++ branch) tip in
     let update := GitUpdateRef owner repo ("heads/" ++ branch) tip false in
     let delete := GitDeleteRef owner repo ("heads/" ++ branch) in
     git_createRef W (h ++ [create]) = inl e1 ->
     (h = [ReposGet owner repo;
           GitGetRef owner repo ("heads/" ++ defaultBranch (conn p))] /\
      defaultBranch (conn p) = fst (branchLookup W []) /\
      git_getRef W h = inr tip) /\
     (exists rest, callsOf (run W) = h ++ [create; update] ++ rest) /\
     (forall e2,
        git_updateRef W (h ++ [create; update]) = inl e2 ->
        (exists rest, callsOf (run W) = h ++ [create; update; delete] ++ rest) /\
        (git_deleteRef W (h ++ [create; update; delete]) = inr tt ->
         exists rest,
           callsOf (run W) = h ++ [create; update; delete; create] ++ rest)))%list.
Proof.
  split; [exact (proj1 DriverTheorems.branch_step_calls)|].
  intros W p tr e1 Hp owner repo branch tip h create update delete.
  subst create update delete branch.
  destruct (prepare_tip W p tr Hp) as (Hh & Hg & Hd & Hb).
  rewrite <- Hb. intros Hc.
  split; [repeat split; assumption|].
  exact (proj2 DriverTheorems.branch_step_calls W p tr e1 Hp Hc).
Qed.

Lemma no_force_push_witness :
  exists p tr rest,
    prepare divergedWorld [] = (Val p, tr) /\
    tipSha (conn p) = "abc123" /\
    callsOf (run divergedWorld) =
    (callsOf tr ++
     [GitCreateRef "test-owner" "test-repo" "refs/heads/releaserun/badges-update"
        "abc123";
      GitUpdateRef "test-owner" "test-repo" "heads/releaserun/badges-update"
        "abc123" false;
      GitDeleteRef "test-owner" "test-repo" "heads/releaserun/badges-update";
      GitCreateRef "test-owner" "test-repo" "refs/heads/releaserun/badges-update"
        "abc123"] ++ rest)%list.
Proof.
  destruct (prepare divergedWorld []) as [o tr] eqn:Hp.
  vm_compute in Hp. injection Hp as <- <-.
  match goal with
  | |- exists p tr rest, (Val ?p0, ?tr0) = _ /\ _ =>
      assert (Hp : prepare divergedWorld [] = (Val p0, tr0))
        by (vm_compute; reflexivity);
      destruct (proj2 no_force_push divergedWorld p0 tr0
                  (ErrorObj "Reference already exists") Hp) as (_ & _ & H);
        [vm_compute; reflexivity|];
      destruct (H (ErrorObj "Update is not a fast forward")) as [_ H'];
        [vm_compute; reflexivity|];
      destruct H' as (rest & Hr); [vm_compute; reflexivity|];
      exists p0, tr0, rest; split; [reflexivity | split; [reflexivity | exact Hr]]
  end.
Defined.

(** C3. When the first commit of the file fails, the run warns, asks the
    remote for the file on the working branch again, and sends the commit
    a second time: the same path, message, content and branch, and as
    revision marker the one of the answer just received (the marker of a
    single entry of type [file]; none when the look-up fails or answers
    anything else).  The run holds exactly two commit calls.  When the
    second one fails too, the error reaches the outer handler, which
    reports it with [core.setFailed] and ends the run.  Either way the
    badge-markup, badge-count and branch-name outputs set before are in
    the trace of the run. *)
Theorem commit_retry (W : World) (p : Prepared) (tr1 tr2 tr3 : list Event)
    (fileSha : option string) (e1 : Thrown) :
  let cfg := config p in
  let h := callsOf tr3 in
  let commitWith := fun marker : option string =>
    ReposCreateOrUpdateFileContents (context_owner W) (context_repo W)
      (readmePath cfg) (prTitle cfg) (toBase64 (content (result p))) marker
      (prBranch cfg) in
  let first := commitWith fileSha in
  let fetch :=
    ReposGetContent (context_owner W) (context_repo W) (readmePath cfg)
      (prBranch cfg) in
  let retrySha :=
    match repos_getContent W (h ++ [first; fetch])%list with
    | inr (ContentObject type sha) => if type =? "file" then Some sha else None
    | inr ContentArray => None
    | inl _ => None
    end in
  let second := commitWith retrySha in
  let attempts :=
    [ERemote first;
     EWarning ("File content update failed, retrying once: " ++ errText e1);
     ERemote fetch; ERemote second] in
  prepare W [] = (Val p, tr1) ->
  ensureBranch W cfg (conn p) tr1 = (Val tt, tr2) ->
  getFileSha W cfg tr2 = (Val fileSha, tr3) ->
  repos_createOrUpdateFileContents W (h ++ [first])%list = inl e1 ->
  (exists rest, run W = (tr3 ++ attempts ++ rest)%list) /\
  List.length (filter isCommitEvent (run W)) = 2 /\
  (forall e2,
     repos_createOrUpdateFileContents W (h ++ [first; fetch; second])%list = inl e2 ->
     run W = (tr3 ++ attempts ++ [ESetFailed (topLevelMessage e2)])%list) /\
  (forall e, In e (earlyOutputs cfg (rendered p)) -> In e (run W)).
Proof.
  intros cfg h commitWith first fetch retrySha second attempts.
  assert (R : retrySha =
              revisionMarkerAt W (h ++ [commitCall W cfg (result p) fileSha;
                                        getContentCall W cfg])%list).
  { unfold retrySha, revisionMarkerAt, shaOfFileData.
    destruct (repos_getContent W _) as [e|[|type sha]]; reflexivity. }
  subst attempts second. rewrite R.
  exact (DriverTheorems.commit_retry_steps W p tr1 tr2 tr3 fileSha e1).
Qed.

Lemma commit_retry_witness :
  exists p tr1 tr2 tr3 fileSha,
    prepare commitFailWorld [] = (Val p, tr1) /\
    ensureBranch commitFailWorld (config p) (conn p) tr1 = (Val tt, tr2) /\
    getFileSha commitFailWorld (config p) tr2 = (Val fileSha, tr3) /\
    fileSha = Some "file-sha-123" /\
    run commitFailWorld =
    (tr3 ++
     [ERemote (ReposCreateOrUpdateFileContents "test-owner" "test-repo"
                 (readmePath (config p)) (prTitle (config p))
                 (toBase64 (content (result p))) (Some "file-sha-123")
                 (prBranch (config p)));
      EWarning "File content update failed, retrying once: Conflict";
      ERemote (ReposGetContent "test-owner" "test-repo" (readmePath (config p))
                 (prBranch (config p)));
      ERemote (ReposCreateOrUpdateFileContents "test-owner" "test-repo"
                 (readmePath (config p)) (prTitle (config p))
                 (toBase64 (content (result p))) (Some "file-sha-456")
                 (prBranch (config p)))] ++
     [ESetFailed "Conflict"])%list.
Proof.
  do 5 eexists.
  split; [vm_compute; reflexivity|].
  split; [vm_compute; reflexivity|].
  split; [vm_compute; reflexivity|].
  split; [reflexivity|].
  refine (proj1 (proj2 (proj2
            (commit_retry commitFailWorld _ _ _ _ _ (ErrorObj "Conflict") _ _ _ _)))
            (ErrorObj "Conflict") _);
    vm_compute; reflexivity.
Defined.

End ReconcileTheorems.
